(** * Verification of the index handle registry, the lock coordinator and
      the FETCH response engine

    Shallow embedding of [src/lib-storage/index/index-storage.c] and
    [src/imap/imap-fetch.c].  C [int]/[time_t] values are integers of [Z];
    unsigned values ([unsigned int], [uoff_t]) are naturals of [N]; C strings
    are [string]s.  Objects that the C code reaches through function
    pointers (the index, a mail, the mailbox, the output stream) are kept
    abstract and passed in as interfaces. *)

From Stdlib Require Import ZArith NArith List String Ascii Bool Lia.
From Stdlib Require Import Sorting.Permutation.
From Stdlib Require Import Numbers.DecimalString.
Import ListNotations.

(** [printf]'s [%u] (and [PRIuUOFF_T]): an unsigned number in decimal. *)
Definition dec (n : N) : string := NilEmpty.string_of_uint (N.to_uint n).

(* ================================================================== *)
(** * The index handle registry (index-storage.c, lines 15-150) *)
(* ================================================================== *)

Module Registry.

Local Open Scope string_scope.
Local Open Scope list_scope.
Local Open Scope Z_scope.

(** [#define INDEX_CACHE_TIMEOUT 10] *)
Definition INDEX_CACHE_TIMEOUT : Z := 10.
(** [#define INDEX_CACHE_MAX 3] *)
Definition INDEX_CACHE_MAX : Z := 3.

(** The two fields of [struct stat] the registry compares. *)
Record file_id : Type := { st_dev : Z; st_ino : Z }.

(** A [struct mail_index *]: the address of the index object. *)
Definition mail_index : Type := Z.

(** [struct index_list] (the [next] pointer is the list structure). *)
Record index_list : Type :=
  { index : mail_index; refcount : Z; destroy_time : Z }.

(** The file's static variables [indexes] and [to_index], and the handles
    on which [index->free] has been called so far (latest first). *)
Record registry : Type :=
  { indexes : list index_list; to_index : bool; freed : list mail_index }.

Definition registry_init : registry :=
  {| indexes := []; to_index := false; freed := [] |}.

(** [index_storage_add] *)
Definition index_storage_add (idx : mail_index) (reg : registry) : registry :=
  {| indexes := {| index := idx; refcount := 1; destroy_time := 0 |}
                  :: indexes reg;
     to_index := to_index reg;
     freed := freed reg |}.

Definition same_file (st1 st2 : file_id) : bool :=
  (st_ino st1 =? st_ino st2) && (st_dev st1 =? st_dev st2).

Definition unreferenced (r : index_list) : bool := refcount r =? 0.

Definition count_unreferenced (l : list index_list) : nat :=
  List.length (filter unreferenced l).

Definition expired (ioloop_time : Z) (r : index_list) : bool :=
  destroy_time r <=? ioloop_time.

(** The loop of [destroy_unrefed]: the entries kept and the handles freed. *)
Fixpoint destroy_scan (all : bool) (ioloop_time : Z) (l : list index_list)
  : list index_list * list mail_index :=
  match l with
  | [] => ([], [])
  | r :: rest =>
      let '(kept, fr) := destroy_scan all ioloop_time rest in
      if unreferenced r && (all || expired ioloop_time r)
      then (kept, index r :: fr)
      else (r :: kept, fr)
  end.

(** [destroy_unrefed] *)
Definition destroy_unrefed (all : bool) (ioloop_time : Z) (reg : registry)
  : registry :=
  let '(kept, fr) := destroy_scan all ioloop_time (indexes reg) in
  {| indexes := kept;
     to_index := match kept with
                 | [] => false  (* timeout_remove when it was set *)
                 | _ :: _ => to_index reg
                 end;
     freed := rev fr ++ freed reg |}.

(** [index_removal_timeout]: the timer's callback. *)
Definition index_removal_timeout (ioloop_time : Z) (reg : registry) : registry :=
  destroy_unrefed false ioloop_time reg.

(** [index_storage_destroy_unrefed] *)
Definition index_storage_destroy_unrefed (ioloop_time : Z) (reg : registry)
  : registry :=
  destroy_unrefed true ioloop_time reg.

(** The loop of [index_storage_unref] with its two assertions: [None] is a
    failed [i_assert] (the process aborts). *)
Fixpoint unref_scan (idx : mail_index) (ioloop_time : Z) (l : list index_list)
  : option (list index_list) :=
  match l with
  | [] => None
  | r :: rest =>
      if index r =? idx then
        if 0 <? refcount r then
          Some ({| index := index r;
                   refcount := refcount r - 1;
                   destroy_time := ioloop_time + INDEX_CACHE_TIMEOUT |} :: rest)
        else None
      else
        match unref_scan idx ioloop_time rest with
        | Some rest' => Some (r :: rest')
        | None => None
        end
  end.

(** [index_storage_unref] *)
Definition index_storage_unref (idx : mail_index) (ioloop_time : Z)
  (reg : registry) : option registry :=
  match unref_scan idx ioloop_time (indexes reg) with
  | Some l => Some {| indexes := l; to_index := true; freed := freed reg |}
  | None => None
  end.

Definition ref_entry (r : index_list) : index_list :=
  {| index := index r; refcount := refcount r + 1;
     destroy_time := destroy_time r |}.

Section WithFilesystem.

(** [stat(2)] on a path: [None] when it fails.  The filesystem is the same
    for every call of a run. *)
Variable stat : string -> option file_id.
(** The [dir] field of the index object at an address. *)
Variable index_dir : mail_index -> string.

Definition index_file_id (idx : mail_index) : option file_id :=
  stat (index_dir idx).

Definition matches (st1 : file_id) (r : index_list) : bool :=
  match index_file_id (index r) with
  | Some st2 => same_file st1 st2
  | None => false
  end.

(** The loop of [index_storage_lookup_ref]: entries kept, handles freed,
    and the value of [match] at the end. *)
Fixpoint lookup_scan (st1 : file_id) (ioloop_time : Z) (l : list index_list)
  (destroy_count : Z) (match_ : option mail_index)
  : list index_list * list mail_index * option mail_index :=
  match l with
  | [] => ([], [], match_)
  | r :: rest =>
      let r' := if matches st1 r then ref_entry r else r in
      let match' := if matches st1 r then Some (index r) else match_ in
      if unreferenced r' then
        if expired ioloop_time r' || (INDEX_CACHE_MAX <=? destroy_count) then
          let '(kept, fr, m) :=
            lookup_scan st1 ioloop_time rest destroy_count match' in
          (kept, index r' :: fr, m)
        else
          let '(kept, fr, m) :=
            lookup_scan st1 ioloop_time rest (destroy_count + 1) match' in
          (r' :: kept, fr, m)
      else
        let '(kept, fr, m) :=
          lookup_scan st1 ioloop_time rest destroy_count match' in
        (r' :: kept, fr, m)
  end.

(** [index_storage_lookup_ref] *)
Definition index_storage_lookup_ref (path : string) (ioloop_time : Z)
  (reg : registry) : registry * option mail_index :=
  match stat path with
  | None => (reg, None)
  | Some st1 =>
      let '(kept, fr, m) := lookup_scan st1 ioloop_time (indexes reg) 0 None in
      ({| indexes := kept; to_index := to_index reg;
          freed := rev fr ++ freed reg |}, m)
  end.

(** ** Runs of registry operations *)

Inductive registry_op : Type :=
| OpAdd (idx : mail_index)
| OpLookupRef (path : string)
| OpUnref (idx : mail_index)
| OpSweep (all : bool).

(** One operation at event-loop time [ioloop_time]; [None] when an
    assertion of [index_storage_unref] fails. *)
Definition apply_op (ioloop_time : Z) (o : registry_op) (reg : registry)
  : option registry :=
  match o with
  | OpAdd idx => Some (index_storage_add idx reg)
  | OpLookupRef path => Some (fst (index_storage_lookup_ref path ioloop_time reg))
  | OpUnref idx => index_storage_unref idx ioloop_time reg
  | OpSweep all => Some (destroy_unrefed all ioloop_time reg)
  end.

Inductive reachable : registry -> Prop :=
| reachable_init : reachable registry_init
| reachable_step : forall reg ioloop_time o reg',
    reachable reg ->
    apply_op ioloop_time o reg = Some reg' ->
    reachable reg'.

Definition has_unreferenced (reg : registry) : bool :=
  existsb unreferenced (indexes reg).

(** ** The cap on unreferenced entries *)

Lemma lookup_scan_cap : forall st1 now l dc m,
  0 <= dc <= INDEX_CACHE_MAX ->
  Z.of_nat (count_unreferenced (fst (fst (lookup_scan st1 now l dc m))))
  <= INDEX_CACHE_MAX - dc.
Proof.
  intros st1 now l; induction l as [|r rest IH]; intros dc m Hdc.
  - unfold count_unreferenced, INDEX_CACHE_MAX in *.
    cbn [lookup_scan fst filter List.length Z.of_nat]. lia.
  - cbn [lookup_scan].
    set (r' := if matches st1 r then ref_entry r else r).
    set (m' := if matches st1 r then Some (index r) else m).
    destruct (unreferenced r') eqn:Hu.
    + destruct (expired now r' || (INDEX_CACHE_MAX <=? dc)) eqn:Hc.
      * specialize (IH dc m' Hdc).
        destruct (lookup_scan st1 now rest dc m') as [[kept fr] mm]; exact IH.
      * apply orb_false_elim in Hc as [_ Hc]. apply Z.leb_gt in Hc.
        assert (Hdc' : 0 <= dc + 1 <= INDEX_CACHE_MAX) by lia.
        specialize (IH (dc + 1) m' Hdc').
        destruct (lookup_scan st1 now rest (dc + 1) m') as [[kept fr] mm].
        cbn [fst] in *. unfold count_unreferenced in *.
        cbn [filter]. rewrite Hu. cbn [List.length].
        rewrite Nat2Z.inj_succ. lia.
    + specialize (IH dc m' Hdc).
      destruct (lookup_scan st1 now rest dc m') as [[kept fr] mm].
      cbn [fst] in *. unfold count_unreferenced in *.
      cbn [filter]. rewrite Hu. exact IH.
Qed.

Lemma destroy_scan_kept : forall all now l,
  fst (destroy_scan all now l)
  = filter (fun r => negb (unreferenced r && (all || expired now r))) l.
Proof.
  intros all now l; induction l as [|r rest IH]; [reflexivity|].
  cbn [destroy_scan filter].
  destruct (destroy_scan all now rest) as [kept fr]. cbn [fst] in IH.
  destruct (unreferenced r && (all || expired now r)); cbn [negb fst]; congruence.
Qed.

Lemma destroy_unrefed_indexes : forall all now reg,
  indexes (destroy_unrefed all now reg)
  = filter (fun r => negb (unreferenced r && (all || expired now r)))
      (indexes reg).
Proof.
  intros all now reg. rewrite <- destroy_scan_kept. unfold destroy_unrefed.
  destruct (destroy_scan all now (indexes reg)) as [kept fr]. reflexivity.
Qed.

(** C4 (amended): the cap of 3 unreferenced entries is enforced by the scan
    of [index_storage_lookup_ref] (whenever its path can be statted), for
    any destroy timestamps; the timer-driven sweep removes exactly the
    unreferenced entries whose timestamp has elapsed and enforces no cap. *)
Theorem lookup_ref_caps_unreferenced : forall path st1 now reg,
  stat path = Some st1 ->
  (count_unreferenced (indexes (fst (index_storage_lookup_ref path now reg)))
   <= Z.to_nat INDEX_CACHE_MAX)%nat
  /\ indexes (index_removal_timeout now reg)
     = filter (fun r => negb (unreferenced r && expired now r)) (indexes reg).
Proof.
  intros path st1 now reg Hstat. split.
  - unfold index_storage_lookup_ref. rewrite Hstat.
    pose proof (lookup_scan_cap st1 now (indexes reg) 0 None) as H.
    destruct (lookup_scan st1 now (indexes reg) 0 None) as [[kept fr] m].
    cbn [fst indexes] in *. unfold INDEX_CACHE_MAX in *. lia.
  - unfold index_removal_timeout. rewrite destroy_unrefed_indexes. reflexivity.
Qed.

(** ** The sweep timer *)

Lemma existsb_unreferenced_filter : forall (f : index_list -> bool) l,
  existsb unreferenced (filter f l) = true -> existsb unreferenced l = true.
Proof.
  intros f l H. apply existsb_exists in H as [r [Hin Hr]].
  apply filter_In in Hin as [Hin _]. apply existsb_exists; eauto.
Qed.

Lemma lookup_scan_kept_in : forall st1 now l dc m r',
  In r' (fst (fst (lookup_scan st1 now l dc m))) ->
  In r' l \/ exists r, In r l /\ r' = ref_entry r.
Proof.
  intros st1 now l; induction l as [|r rest IH]; intros dc m r0 H.
  - destruct H.
  - cbn [lookup_scan] in H.
    set (r' := if matches st1 r then ref_entry r else r) in *.
    set (m' := if matches st1 r then Some (index r) else m) in *.
    assert (Hhead : r0 = r' -> In r0 (r :: rest)
                               \/ exists r1, In r1 (r :: rest) /\ r0 = ref_entry r1).
    { intros ->. subst r'. destruct (matches st1 r).
      - right. exists r. split; [left|]; reflexivity.
      - left. left. reflexivity. }
    assert (Htail : forall dc', In r0 (fst (fst (lookup_scan st1 now rest dc' m'))) ->
              In r0 (r :: rest) \/ exists r1, In r1 (r :: rest) /\ r0 = ref_entry r1).
    { intros dc' Hin. destruct (IH dc' m' r0 Hin) as [Hl | [r1 [Hl Hr]]].
      - left. right. exact Hl.
      - right. exists r1. split; [right|]; assumption. }
    destruct (unreferenced r').
    + destruct (expired now r' || (INDEX_CACHE_MAX <=? dc)).
      * specialize (Htail dc).
        destruct (lookup_scan st1 now rest dc m') as [[kept fr] mm]. auto.
      * specialize (Htail (dc + 1)).
        destruct (lookup_scan st1 now rest (dc + 1) m') as [[kept fr] mm].
        cbn [fst] in *. destruct H as [H | H]; [symmetry in H|]; auto.
    + specialize (Htail dc).
      destruct (lookup_scan st1 now rest dc m') as [[kept fr] mm].
      cbn [fst] in *. destruct H as [H | H]; [symmetry in H|]; auto.
Qed.

Definition refcounts_nonneg (l : list index_list) : Prop :=
  Forall (fun r => 0 <= refcount r) l.

Lemma lookup_scan_nonneg : forall st1 now l dc m,
  refcounts_nonneg l ->
  refcounts_nonneg (fst (fst (lookup_scan st1 now l dc m))).
Proof.
  intros st1 now l dc m Hl. apply Forall_forall. intros r' Hin.
  unfold refcounts_nonneg in Hl. rewrite Forall_forall in Hl.
  apply lookup_scan_kept_in in Hin as [Hin | [r [Hin ->]]].
  - auto.
  - specialize (Hl r Hin). cbn [ref_entry refcount]. lia.
Qed.

Lemma lookup_scan_unreferenced : forall st1 now l dc m,
  refcounts_nonneg l ->
  existsb unreferenced (fst (fst (lookup_scan st1 now l dc m))) = true ->
  existsb unreferenced l = true.
Proof.
  intros st1 now l dc m Hl H.
  apply existsb_exists in H as [r' [Hin Hu]].
  unfold refcounts_nonneg in Hl. rewrite Forall_forall in Hl.
  apply lookup_scan_kept_in in Hin as [Hin | [r [Hin ->]]].
  - apply existsb_exists. eauto.
  - specialize (Hl r Hin). unfold unreferenced in Hu.
    cbn [ref_entry refcount] in Hu. apply Z.eqb_eq in Hu. lia.
Qed.

Lemma unref_scan_nonneg : forall idx now l l',
  unref_scan idx now l = Some l' ->
  refcounts_nonneg l -> refcounts_nonneg l'.
Proof.
  intros idx now l; induction l as [|r rest IH]; intros l' H Hl; [discriminate|].
  cbn [unref_scan] in H. inversion Hl as [|? ? Hr Hrest]; subst.
  destruct (index r =? idx).
  - destruct (0 <? refcount r) eqn:Hpos; [|discriminate].
    injection H as <-. apply Z.ltb_lt in Hpos.
    constructor; [cbn [refcount]; lia | exact Hrest].
  - destruct (unref_scan idx now rest) as [rest'|]; [|discriminate].
    injection H as <-. constructor; [exact Hr | apply IH; auto].
Qed.

(** The invariant of the registry between operations. *)
Definition registry_inv (reg : registry) : Prop :=
  refcounts_nonneg (indexes reg)
  /\ (has_unreferenced reg = true -> to_index reg = true).

Lemma registry_inv_step : forall now o reg reg',
  registry_inv reg -> apply_op now o reg = Some reg' -> registry_inv reg'.
Proof.
  intros now o reg reg' [Hnn Ht] Hstep. destruct o as [idx|path|idx|all];
    cbn [apply_op] in Hstep.
  - injection Hstep as <-. split.
    + constructor; [cbn; lia | exact Hnn].
    + unfold has_unreferenced. cbn. exact Ht.
  - injection Hstep as <-. unfold index_storage_lookup_ref.
    destruct (stat path) as [st1|]; [|split; assumption].
    pose proof (lookup_scan_nonneg st1 now (indexes reg) 0 None Hnn) as Hn'.
    pose proof (lookup_scan_unreferenced st1 now (indexes reg) 0 None Hnn) as Hu'.
    destruct (lookup_scan st1 now (indexes reg) 0 None) as [[kept fr] m].
    cbn [fst] in *. split; [exact Hn'|].
    unfold has_unreferenced. cbn [indexes to_index]. intros H. auto.
  - unfold index_storage_unref in Hstep.
    destruct (unref_scan idx now (indexes reg)) as [l|] eqn:Hscan; [|discriminate].
    injection Hstep as <-. split; [|reflexivity].
    cbn [indexes]. eapply unref_scan_nonneg; eauto.
  - injection Hstep as <-. split.
    + rewrite destroy_unrefed_indexes. unfold refcounts_nonneg in *.
      rewrite Forall_forall in *. intros r Hin.
      apply filter_In in Hin as [Hin _]. auto.
    + unfold has_unreferenced. rewrite destroy_unrefed_indexes. intros H.
      unfold destroy_unrefed.
      rewrite (surjective_pairing (destroy_scan all now (indexes reg))).
      rewrite destroy_scan_kept. cbn [to_index].
      destruct (filter _ (indexes reg)) eqn:Hf; [discriminate H|].
      rewrite <- Hf in H. apply existsb_unreferenced_filter in H. auto.
Qed.

Lemma reachable_inv : forall reg, reachable reg -> registry_inv reg.
Proof.
  induction 1 as [|reg now o reg' _ IH Hstep].
  - split; [constructor | discriminate].
  - eapply registry_inv_step; eauto.
Qed.

(** C5 (amended): between registry operations the sweep timer exists
    whenever the registry holds an unreferenced entry (attaching a handle
    creates no timer, and a lookup that reaps the last entry leaves the
    timer in place); a sweep pass that leaves the registry empty leaves no
    timer. *)
Theorem timer_covers_unreferenced : forall reg,
  reachable reg ->
  (has_unreferenced reg = true -> to_index reg = true)
  /\ (forall all now,
        indexes (destroy_unrefed all now reg) = [] ->
        to_index (destroy_unrefed all now reg) = false).
Proof.
  intros reg Hreach. split.
  - apply (reachable_inv reg Hreach).
  - intros all now Hempty. unfold destroy_unrefed in *.
    destruct (destroy_scan all now (indexes reg)) as [kept fr].
    cbn [indexes to_index] in *. subst kept. reflexivity.
Qed.

(** ** Sessions sharing one physical mailbox *)

Inductive session_call : Type :=
| CallResolve (path : string) (ioloop_time : Z)
| CallRelease (idx : mail_index) (ioloop_time : Z).

(** The call is on the physical mailbox [x]: a lookup of a path that
    resolves to [x], or the release of a handle whose directory is [x]. *)
Definition on_identity (x : file_id) (c : session_call) : Prop :=
  match c with
  | CallResolve path _ => stat path = Some x
  | CallRelease idx _ => index_file_id idx = Some x
  end.

Definition run_call (c : session_call) (reg : registry) : option registry :=
  match c with
  | CallResolve path now => Some (fst (index_storage_lookup_ref path now reg))
  | CallRelease idx now => index_storage_unref idx now reg
  end.

Fixpoint run_calls (cs : list session_call) (reg : registry)
  : option registry :=
  match cs with
  | [] => Some reg
  | c :: cs' =>
      match run_call c reg with
      | Some reg' => run_calls cs' reg'
      | None => None
      end
  end.

(** [index_storage_add] called once for each handle of [hs], in order. *)
Definition attach_all (hs : list mail_index) : registry :=
  fold_left (fun reg h => index_storage_add h reg) hs registry_init.

(** The registry entries whose directory is the file [st]. *)
Definition entries_of (st : file_id) (l : list index_list) : list index_list :=
  filter (matches st) l.

Lemma same_file_eq : forall a b, same_file a b = true <-> a = b.
Proof.
  intros [d1 i1] [d2 i2]. unfold same_file. cbn [st_dev st_ino].
  rewrite andb_true_iff, !Z.eqb_eq. split.
  - intros [-> ->]. reflexivity.
  - intros H. injection H as -> ->. split; reflexivity.
Qed.

Lemma matches_iff : forall st r,
  matches st r = true <-> index_file_id (index r) = Some st.
Proof.
  intros st r. unfold matches.
  destruct (index_file_id (index r)) as [st2|].
  - rewrite same_file_eq. split; [intros -> | intros H; injection H as ->];
      reflexivity.
  - split; discriminate.
Qed.

Lemma matches_ref_entry : forall st r, matches st (ref_entry r) = matches st r.
Proof. reflexivity. Qed.

(** What every entry satisfies while only the mailbox [x] is resolved and
    released: the other mailboxes keep the reference of their attach. *)
Definition held (x : file_id) (r : index_list) : Prop :=
  0 <= refcount r /\ (matches x r = false -> 1 <= refcount r).

Definition ref_if_match (x : file_id) (r : index_list) : index_list :=
  if matches x r then ref_entry r else r.

Lemma lookup_scan_held : forall x now l dc m,
  Forall (held x) l ->
  fst (lookup_scan x now l dc m) = (map (ref_if_match x) l, []).
Proof.
  intros x now l; induction l as [|r rest IH]; intros dc m Hl; [reflexivity|].
  inversion Hl as [|? ? [Hr0 Hr1] Hrest]; subst.
  cbn [lookup_scan map]. fold (ref_if_match x r).
  assert (Hu : unreferenced (ref_if_match x r) = false).
  { unfold unreferenced, ref_if_match. apply Z.eqb_neq.
    destruct (matches x r) eqn:Hm; [cbn [ref_entry refcount]|specialize (Hr1 eq_refl)];
      lia. }
  rewrite Hu.
  specialize (IH dc (if matches x r then Some (index r) else m) Hrest).
  destruct (lookup_scan x now rest dc _) as [[kept fr] mm].
  cbn [fst] in *. injection IH as -> ->. reflexivity.
Qed.

Lemma lookup_scan_no_match : forall x now l dc m,
  Forall (fun r => matches x r = false) l ->
  snd (lookup_scan x now l dc m) = m.
Proof.
  intros x now l; induction l as [|r rest IH]; intros dc m Hl; [reflexivity|].
  inversion Hl as [|? ? Hr Hrest]; subst.
  cbn [lookup_scan]. rewrite Hr.
  destruct (unreferenced r); [destruct (expired now r || (INDEX_CACHE_MAX <=? dc))|].
  - specialize (IH dc m Hrest).
    destruct (lookup_scan x now rest dc m) as [[kept fr] mm]; exact IH.
  - specialize (IH (dc + 1) m Hrest).
    destruct (lookup_scan x now rest (dc + 1) m) as [[kept fr] mm]; exact IH.
  - specialize (IH dc m Hrest).
    destruct (lookup_scan x now rest dc m) as [[kept fr] mm]; exact IH.
Qed.

Lemma lookup_scan_snd_cons : forall x now r rest dc m,
  exists dc',
    snd (lookup_scan x now (r :: rest) dc m)
    = snd (lookup_scan x now rest dc'
             (if matches x r then Some (index r) else m)).
Proof.
  intros x now r rest dc m. cbn [lookup_scan].
  set (r' := if matches x r then ref_entry r else r).
  set (m' := if matches x r then Some (index r) else m).
  destruct (unreferenced r'); [destruct (expired now r' || (INDEX_CACHE_MAX <=? dc))|].
  - exists dc. destruct (lookup_scan x now rest dc m') as [[kept fr] mm]; reflexivity.
  - exists (dc + 1).
    destruct (lookup_scan x now rest (dc + 1) m') as [[kept fr] mm]; reflexivity.
  - exists dc. destruct (lookup_scan x now rest dc m') as [[kept fr] mm]; reflexivity.
Qed.

Lemma filter_nil_Forall : forall (f : index_list -> bool) l,
  (List.length (filter f l) <= 0)%nat -> Forall (fun r => f r = false) l.
Proof.
  intros f l; induction l as [|r rest IH]; intros H; [constructor|].
  cbn [filter] in H. destruct (f r) eqn:Hf; cbn [List.length] in H; [lia|].
  constructor; auto.
Qed.

Lemma map_ref_if_no_match : forall x l,
  Forall (fun r => matches x r = false) l -> map (ref_if_match x) l = l.
Proof.
  intros x l H; induction H as [|r rest Hr _ IH]; [reflexivity|].
  cbn [map]. unfold ref_if_match at 1. rewrite Hr, IH. reflexivity.
Qed.

(** With at most one entry for [x], the handle a scan returns is the handle
    of that entry, and no other entry matches. *)
Lemma lookup_scan_unique_match : forall x now l dc m h,
  (List.length (entries_of x l) <= 1)%nat ->
  snd (lookup_scan x now l dc m) = Some h ->
  (Forall (fun r => matches x r = false) l /\ m = Some h)
  \/ exists l1 r l2,
       l = l1 ++ r :: l2 /\ matches x r = true /\ index r = h
       /\ Forall (fun r => matches x r = false) l1
       /\ Forall (fun r => matches x r = false) l2.
Proof.
  intros x now l; induction l as [|r rest IH]; intros dc m h Hone Hm.
  - left. split; [constructor | exact Hm].
  - destruct (lookup_scan_snd_cons x now r rest dc m) as [dc' Hc].
    rewrite Hc in Hm. clear Hc.
    unfold entries_of in Hone. cbn [filter] in Hone.
    destruct (matches x r) eqn:Hr.
    + cbn [List.length] in Hone.
      assert (Hrest : Forall (fun r => matches x r = false) rest)
        by (apply filter_nil_Forall; lia).
      rewrite lookup_scan_no_match in Hm by exact Hrest.
      injection Hm as <-. right. exists [], r, rest.
      repeat split; auto.
    + destruct (IH dc' m h Hone Hm) as [[Hall ->] | (l1 & r2 & l2 & -> & H2 & Hh & H1 & H3)].
      * left. split; [constructor; assumption | reflexivity].
      * right. exists (r :: l1), r2, l2. repeat split; auto.
Qed.

Lemma unref_scan_held : forall x idx now l l',
  index_file_id idx = Some x ->
  unref_scan idx now l = Some l' ->
  Forall (held x) l ->
  Forall (held x) l' /\ map index l' = map index l.
Proof.
  intros x idx now l; induction l as [|r rest IH]; intros l' Hid H Hl;
    [discriminate|].
  cbn [unref_scan] in H. inversion Hl as [|? ? Hr Hrest]; subst.
  destruct (index r =? idx) eqn:Heq.
  - destruct (0 <? refcount r) eqn:Hpos; [|discriminate].
    injection H as <-. apply Z.ltb_lt in Hpos. apply Z.eqb_eq in Heq.
    split; [|reflexivity]. constructor; [|exact Hrest].
    split; [cbn [refcount]; lia|]. intros Hno.
    assert (Hyes : matches x {| index := index r; refcount := refcount r - 1;
                               destroy_time := now + INDEX_CACHE_TIMEOUT |} = true).
    { apply matches_iff. cbn [index]. rewrite Heq. exact Hid. }
    congruence.
  - destruct (unref_scan idx now rest) as [rest'|]; [|discriminate].
    injection H as <-. destruct (IH rest' Hid eq_refl Hrest) as [H1 H2].
    split; [constructor; assumption | cbn [map]; congruence].
Qed.

Definition fresh_entry (h : mail_index) : index_list :=
  {| index := h; refcount := 1; destroy_time := 0 |}.

Lemma attach_all_indexes : forall hs,
  indexes (attach_all hs) = map fresh_entry (rev hs).
Proof.
  intros hs. unfold attach_all.
  assert (G : forall reg,
             indexes (fold_left (fun reg h => index_storage_add h reg) hs reg)
             = map fresh_entry (rev hs) ++ indexes reg).
  { induction hs as [|h hs IH]; intros reg; [reflexivity|].
    cbn [fold_left rev]. rewrite IH, map_app, <- app_assoc. reflexivity. }
  rewrite G. apply app_nil_r.
Qed.

(** The state of a run on [x]: the handles are the attached ones, each
    entry is [held]. *)
Definition run_inv (hs : list mail_index) (x : file_id) (reg : registry) : Prop :=
  map index (indexes reg) = rev hs /\ Forall (held x) (indexes reg).

Lemma run_inv_attach : forall hs x, run_inv hs x (attach_all hs).
Proof.
  intros hs x. unfold run_inv. rewrite attach_all_indexes. split.
  - rewrite map_map. cbn [fresh_entry index]. apply map_id.
  - apply Forall_forall. intros r Hin. apply in_map_iff in Hin as [h [<- _]].
    split; [cbn; lia | intros _; cbn; lia].
Qed.

Lemma map_index_ref_if : forall x l,
  map index (map (ref_if_match x) l) = map index l.
Proof.
  intros x l. rewrite map_map. apply map_ext. intros r.
  unfold ref_if_match. destruct (matches x r); reflexivity.
Qed.

Lemma held_ref_if : forall x l,
  Forall (held x) l -> Forall (held x) (map (ref_if_match x) l).
Proof.
  intros x l H. induction H as [|r rest [H0 H1] _ IH]; [constructor|].
  cbn [map]. constructor; [|exact IH].
  unfold ref_if_match. destruct (matches x r) eqn:Hm.
  - split; [cbn [ref_entry refcount]; lia|].
    rewrite matches_ref_entry. congruence.
  - split; [exact H0 | intros _; apply H1; reflexivity].
Qed.

Lemma run_inv_call : forall hs x c reg reg',
  on_identity x c -> run_call c reg = Some reg' ->
  run_inv hs x reg -> run_inv hs x reg'.
Proof.
  intros hs x c reg reg' Hon Hrun [Hidx Hheld]. destruct c as [path now|idx now];
    cbn [on_identity run_call] in *.
  - injection Hrun as <-. unfold index_storage_lookup_ref. rewrite Hon.
    pose proof (lookup_scan_held x now (indexes reg) 0 None Hheld) as Hk.
    destruct (lookup_scan x now (indexes reg) 0 None) as [[kept fr] m].
    cbn [fst] in *. injection Hk as -> ->. split; cbn [indexes].
    + rewrite map_index_ref_if. exact Hidx.
    + apply held_ref_if. exact Hheld.
  - unfold index_storage_unref in Hrun.
    destruct (unref_scan idx now (indexes reg)) as [l|] eqn:Hscan; [|discriminate].
    injection Hrun as <-.
    destruct (unref_scan_held x idx now _ _ Hon Hscan Hheld) as [H1 H2].
    split; cbn [indexes]; [congruence | exact H1].
Qed.

Lemma run_inv_calls : forall hs x cs reg reg',
  Forall (on_identity x) cs -> run_calls cs reg = Some reg' ->
  run_inv hs x reg -> run_inv hs x reg'.
Proof.
  intros hs x cs; induction cs as [|c cs IH]; intros reg reg' Hon Hrun Hinv.
  - injection Hrun as <-. exact Hinv.
  - inversion Hon as [|? ? Hc Hcs]; subst. cbn [run_calls] in Hrun.
    destruct (run_call c reg) as [reg1|] eqn:Hcall; [|discriminate].
    eapply IH; eauto using run_inv_call.
Qed.

Lemma unref_scan_le : forall idx now n l l',
  unref_scan idx now l = Some l' ->
  Forall (fun r => refcount r <= n) l -> Forall (fun r => refcount r <= n) l'.
Proof.
  intros idx now n l; induction l as [|r rest IH]; intros l' H Hl; [discriminate|].
  cbn [unref_scan] in H. inversion Hl as [|? ? Hr Hrest]; subst.
  destruct (index r =? idx).
  - destruct (0 <? refcount r); [|discriminate]. injection H as <-.
    constructor; [cbn [refcount]; lia | exact Hrest].
  - destruct (unref_scan idx now rest) as [rest'|]; [|discriminate].
    injection H as <-. constructor; [exact Hr | apply IH; auto].
Qed.

Lemma ref_if_match_le : forall x n l,
  Forall (fun r => refcount r <= n) l ->
  Forall (fun r => refcount r <= n + 1) (map (ref_if_match x) l).
Proof.
  intros x n l Hl. induction Hl as [|r rest Hr _ IH]; [constructor|].
  cbn [map]. constructor; [|exact IH].
  unfold ref_if_match. destruct (matches x r); cbn [ref_entry refcount]; lia.
Qed.

(** Each call raises a reference count by at most one: in a run of fewer
    than [INT_MAX] calls the C [int] never overflows. *)
Lemma run_calls_bound : forall hs x cs reg reg' n,
  Forall (on_identity x) cs -> run_calls cs reg = Some reg' ->
  run_inv hs x reg ->
  Forall (fun r => refcount r <= n) (indexes reg) ->
  Forall (fun r => refcount r <= n + Z.of_nat (List.length cs)) (indexes reg').
Proof.
  intros hs x cs; induction cs as [|c cs IH]; intros reg reg' n Hon Hrun Hinv Hle.
  - injection Hrun as <-. cbn [List.length Z.of_nat]. rewrite Z.add_0_r. exact Hle.
  - inversion Hon as [|? ? Hc Hcs]; subst. cbn [run_calls] in Hrun.
    destruct (run_call c reg) as [reg1|] eqn:Hcall; [|discriminate].
    assert (Hinv1 : run_inv hs x reg1) by (eapply run_inv_call; eauto).
    assert (Hle1 : Forall (fun r => refcount r <= n + 1) (indexes reg1)).
    { destruct c as [path now|idx now]; cbn [on_identity run_call] in *.
      - injection Hcall as <-. unfold index_storage_lookup_ref. rewrite Hc.
        destruct Hinv as [_ Hheld].
        pose proof (lookup_scan_held x now (indexes reg) 0 None Hheld) as Hk.
        destruct (lookup_scan x now (indexes reg) 0 None) as [[kept fr] m].
        cbn [fst] in *. injection Hk as -> ->. cbn [indexes].
        apply ref_if_match_le. exact Hle.
      - unfold index_storage_unref in Hcall.
        destruct (unref_scan idx now (indexes reg)) as [l|] eqn:Hscan; [|discriminate].
        injection Hcall as <-. cbn [indexes].
        eapply Forall_impl; [|eapply unref_scan_le; eauto].
        cbn beta. intros r Hr. lia. }
    specialize (IH reg1 reg' (n + 1) Hcs Hrun Hinv1 Hle1).
    eapply Forall_impl; [|exact IH]. cbn beta. intros r Hr.
    cbn [List.length]. rewrite Nat2Z.inj_succ. lia.
Qed.

Lemma entries_of_count : forall st l,
  NoDup (map index_file_id (map index l)) ->
  (List.length (entries_of st l) <= 1)%nat
  /\ (In (Some st) (map index_file_id (map index l)) ->
      List.length (entries_of st l) = 1%nat).
Proof.
  intros st l; induction l as [|r rest IH]; intros Hnd.
  - split; [cbn; lia | intros []].
  - cbn [map] in Hnd. inversion Hnd as [|? ? Hnotin Hnd']; subst.
    destruct (IH Hnd') as [IH1 IH2]. unfold entries_of in *. cbn [filter map].
    destruct (matches st r) eqn:Hm.
    + apply matches_iff in Hm. rewrite Hm in Hnotin.
      assert (Hz : List.length (filter (matches st) rest) = 0%nat).
      { destruct (filter (matches st) rest) as [|r2 t] eqn:Hf; [reflexivity|].
        exfalso. apply Hnotin.
        assert (Hin : In r2 (filter (matches st) rest)) by (rewrite Hf; left; reflexivity).
        apply filter_In in Hin as [Hin Hm2]. apply matches_iff in Hm2.
        rewrite <- Hm2. apply in_map. apply in_map. exact Hin. }
      cbn [List.length]. rewrite Hz. split; [lia | reflexivity].
    + split; [exact IH1|]. intros [Hhead | Htail]; [|auto].
      apply matches_iff in Hhead. congruence.
Qed.

(** C7: starting from a registry where each physical mailbox was attached
    once, after any sequence of lookups and releases on one physical
    mailbox [x] every reference count is at least 0, every attached
    (device, inode) pair has exactly one entry (and no pair has two), and a
    successful lookup of [x] increments the reference count of exactly the
    entry whose handle it returns.  No count exceeds the number of calls
    plus one, which is where the unbounded integers of the model agree with
    the C [int]. *)
Theorem shared_identity_invariant : forall hs x cs reg,
  NoDup (map index_file_id hs) ->
  Forall (on_identity x) cs ->
  run_calls cs (attach_all hs) = Some reg ->
  refcounts_nonneg (indexes reg)
  /\ (forall st, (List.length (entries_of st (indexes reg)) <= 1)%nat)
  /\ (forall h st, In h hs -> index_file_id h = Some st ->
        List.length (entries_of st (indexes reg)) = 1%nat)
  /\ (forall path now reg' h,
        stat path = Some x ->
        index_storage_lookup_ref path now reg = (reg', Some h) ->
        exists l1 r l2,
          indexes reg = l1 ++ r :: l2 /\ index r = h
          /\ indexes reg' = l1 ++ ref_entry r :: l2)
  /\ Forall (fun r => refcount r <= 1 + Z.of_nat (List.length cs)) (indexes reg).
Proof.
  intros hs x cs reg Hnd Hon Hrun.
  destruct (run_inv_calls hs x cs _ _ Hon Hrun (run_inv_attach hs x))
    as [Hidx Hheld].
  assert (Hnd' : NoDup (map index_file_id (map index (indexes reg)))).
  { rewrite Hidx, map_rev. apply NoDup_rev. exact Hnd. }
  split; [|split; [|split; [|split]]];
    [ | | | | apply (run_calls_bound hs x cs (attach_all hs) reg 1 Hon Hrun
                       (run_inv_attach hs x));
            rewrite attach_all_indexes; apply Forall_forall; intros r Hin;
            apply in_map_iff in Hin as [h [<- _]]; cbn; lia ].
  - unfold refcounts_nonneg. eapply Forall_impl; [|exact Hheld].
    intros r [H0 _]. exact H0.
  - intros st. apply (entries_of_count st _ Hnd').
  - intros h st Hin Hst. apply (entries_of_count st _ Hnd').
    rewrite Hidx, map_rev, <- in_rev, <- Hst. apply in_map. exact Hin.
  - intros path now reg' h Hstat Hlook.
    unfold index_storage_lookup_ref in Hlook. rewrite Hstat in Hlook.
    pose proof (lookup_scan_held x now (indexes reg) 0 None Hheld) as Hk.
    pose proof (lookup_scan_unique_match x now (indexes reg) 0 None h
                  (proj1 (entries_of_count x _ Hnd'))) as Hu.
    destruct (lookup_scan x now (indexes reg) 0 None) as [[kept fr] m].
    cbn [fst snd] in *. injection Hk as -> ->. injection Hlook as <- ->.
    destruct (Hu eq_refl) as [[_ Hnone] | (l1 & r & l2 & Hl & Hm & Hh & H1 & H2)];
      [discriminate|].
    exists l1, r, l2. split; [exact Hl|]. split; [exact Hh|].
    cbn [indexes]. rewrite Hl, map_app. cbn [map].
    rewrite (map_ref_if_no_match x l1 H1), (map_ref_if_no_match x l2 H2).
    unfold ref_if_match. rewrite Hm. reflexivity.
Qed.

(** ** Further properties of attach, release and sweep *)


Lemma unref_scan_split : forall idx now l l',
  unref_scan idx now l = Some l' ->
  exists l1 r l2,
    l = l1 ++ r :: l2 /\ index r = idx /\ 0 < refcount r
    /\ l' = l1 ++ {| index := idx; refcount := refcount r - 1;
                     destroy_time := now + INDEX_CACHE_TIMEOUT |} :: l2.
Proof.
  intros idx now l; induction l as [|r rest IH]; intros l' H; [discriminate|].
  cbn [unref_scan] in H. destruct (index r =? idx) eqn:Heq.
  - destruct (0 <? refcount r) eqn:Hpos; [|discriminate]. injection H as <-.
    apply Z.eqb_eq in Heq. apply Z.ltb_lt in Hpos.
    exists [], r, rest. rewrite Heq. repeat split; auto.
  - destruct (unref_scan idx now rest) as [rest'|]; [|discriminate].
    injection H as <-.
    destruct (IH rest' eq_refl) as (l1 & r2 & l2 & -> & Hi & Hp & ->).
    exists (r :: l1), r2, l2. repeat split; auto.
Qed.

(** X4: a release takes one reference from the first entry of the handle,
    stamps it with the time of the release plus the grace window of 10
    seconds, and leaves a timer; until that time the timer-driven sweep
    keeps the entry. *)
Theorem release_schedules_destruction : forall idx now reg reg',
  index_storage_unref idx now reg = Some reg' ->
  to_index reg' = true
  /\ exists l1 r l2,
       indexes reg = l1 ++ r :: l2 /\ index r = idx /\ 0 < refcount r
       /\ indexes reg'
          = l1 ++ {| index := idx; refcount := refcount r - 1;
                     destroy_time := now + INDEX_CACHE_TIMEOUT |} :: l2
       /\ forall t, t < now + INDEX_CACHE_TIMEOUT ->
            In {| index := idx; refcount := refcount r - 1;
                  destroy_time := now + INDEX_CACHE_TIMEOUT |}
               (indexes (index_removal_timeout t reg')).
Proof.
  intros idx now reg reg' H. unfold index_storage_unref in H.
  destruct (unref_scan idx now (indexes reg)) as [l|] eqn:Hscan; [|discriminate].
  injection H as <-. split; [reflexivity|].
  destruct (unref_scan_split idx now _ _ Hscan) as (l1 & r & l2 & E & Hi & Hp & ->).
  exists l1, r, l2. repeat split; auto.
  intros t Ht. unfold index_removal_timeout. rewrite destroy_unrefed_indexes.
  cbn [indexes]. apply filter_In. split; [apply in_elt|].
  unfold expired. cbn [destroy_time orb].
  apply Z.leb_gt in Ht. rewrite Ht, andb_false_r. reflexivity.
Qed.

(** X5: no sweep destroys an entry that is referenced, and the forced sweep
    leaves no unreferenced entry. *)
Theorem sweep_spares_referenced : forall all now reg,
  filter (fun r => negb (unreferenced r)) (indexes (destroy_unrefed all now reg))
  = filter (fun r => negb (unreferenced r)) (indexes reg)
  /\ count_unreferenced (indexes (index_storage_destroy_unrefed now reg)) = 0%nat.
Proof.
  intros all now reg. split.
  - rewrite destroy_unrefed_indexes.
    induction (indexes reg) as [|r rest IH]; [reflexivity|].
    cbn [filter]. destruct (unreferenced r) eqn:Hu; cbn [andb negb].
    + destruct (all || expired now r); cbn [negb filter]; rewrite ?Hu; exact IH.
    + cbn [filter]. rewrite Hu. cbn [negb]. rewrite IH. reflexivity.
  - unfold index_storage_destroy_unrefed, count_unreferenced.
    rewrite destroy_unrefed_indexes.
    induction (indexes reg) as [|r rest IH]; [reflexivity|].
    cbn [filter orb]. rewrite andb_true_r.
    destruct (unreferenced r) eqn:Hu; cbn [negb filter]; rewrite ?Hu; exact IH.
Qed.

(** Runs of timed operations, for concrete scenarios. *)
Fixpoint run_ops (ops : list (Z * registry_op)) (reg : registry)
  : option registry :=
  match ops with
  | [] => Some reg
  | (now, o) :: ops' =>
      match apply_op now o reg with
      | Some reg' => run_ops ops' reg'
      | None => None
      end
  end.

Lemma run_ops_reachable : forall ops reg reg',
  reachable reg -> run_ops ops reg = Some reg' -> reachable reg'.
Proof.
  induction ops as [|[now o] ops IH]; intros reg reg' Hreach Hrun.
  - injection Hrun as <-. exact Hreach.
  - cbn [run_ops] in Hrun.
    destruct (apply_op now o reg) as [reg1|] eqn:Hstep; [|discriminate].
    eapply IH; [|exact Hrun]. eapply reachable_step; eauto.
Defined.

End WithFilesystem.

(** ** A concrete filesystem: five mailboxes and a symlink to the first *)

Definition mbox_id (n : Z) : file_id := {| st_dev := 1; st_ino := n |}.

Definition demo_stat (path : string) : option file_id :=
  if String.eqb path "/mail/a" then Some (mbox_id 10)
  else if String.eqb path "/link/a" then Some (mbox_id 10)
  else if String.eqb path "/mail/b" then Some (mbox_id 20)
  else if String.eqb path "/mail/c" then Some (mbox_id 30)
  else if String.eqb path "/mail/d" then Some (mbox_id 40)
  else if String.eqb path "/mail/e" then Some (mbox_id 50)
  else None.

Definition demo_dir (idx : mail_index) : string :=
  if idx =? 1 then "/mail/a"
  else if idx =? 2 then "/mail/b"
  else if idx =? 3 then "/mail/c"
  else if idx =? 4 then "/mail/d"
  else if idx =? 5 then "/mail/e"
  else "/nowhere".

(** Five mailboxes opened at time 0 and all closed at time 40. *)
Definition demo_closed_ops : list (Z * registry_op) :=
  [(0, OpAdd 1); (0, OpAdd 2); (0, OpAdd 3); (0, OpAdd 4); (0, OpAdd 5);
   (40, OpUnref 1); (40, OpUnref 2); (40, OpUnref 3); (40, OpUnref 4);
   (40, OpUnref 5)].

Definition demo_closed : registry :=
  {| indexes := map (fun h => {| index := h; refcount := 0; destroy_time := 50 |})
                  [5; 4; 3; 2; 1];
     to_index := true; freed := [] |}.

Lemma demo_closed_run :
  run_ops demo_stat demo_dir demo_closed_ops registry_init = Some demo_closed.
Proof. reflexivity. Defined.

(** C4 (counterexample): five handles released at time 40 are due at time
    50; the timer-driven sweep at time 45 destroys none of them, so five
    unreferenced entries remain after the sweep pass. *)
Lemma sweep_enforces_no_cap :
  run_ops demo_stat demo_dir (demo_closed_ops ++ [(45, OpSweep false)])
    registry_init = Some demo_closed
  /\ index_removal_timeout 45 demo_closed = demo_closed
  /\ count_unreferenced (indexes (index_removal_timeout 45 demo_closed)) = 5%nat
  /\ forallb (fun r => negb (expired 45 r)) (indexes demo_closed) = true.
Proof. repeat split. Qed.

Lemma lookup_ref_caps_unreferenced_witness :
  (count_unreferenced
     (indexes (fst (index_storage_lookup_ref demo_stat demo_dir
                      "/mail/e" 45 demo_closed)))
   <= Z.to_nat INDEX_CACHE_MAX)%nat
  /\ indexes (index_removal_timeout 45 demo_closed)
     = filter (fun r => negb (unreferenced r && expired 45 r))
         (indexes demo_closed).
Proof.
  exact (lookup_ref_caps_unreferenced demo_stat demo_dir
           "/mail/e" (mbox_id 50) 45 demo_closed eq_refl).
Defined.

(** That lookup keeps the matching entry and three
    unreferenced ones, and frees the fourth although it is not yet due. *)
Example lookup_ref_destroys_over_cap :
  index_storage_lookup_ref demo_stat demo_dir "/mail/e" 45 demo_closed
  = ({| indexes :=
          [ {| index := 5; refcount := 1; destroy_time := 50 |};
            {| index := 4; refcount := 0; destroy_time := 50 |};
            {| index := 3; refcount := 0; destroy_time := 50 |};
            {| index := 2; refcount := 0; destroy_time := 50 |} ];
        to_index := true; freed := [1] |}, Some 5).
Proof. reflexivity. Qed.

(** C5 (counterexample): after the first attach the registry holds an
    entry and no timer exists; and after a release at time 0 and a lookup
    of another mailbox at time 20, which reaps the expired entry, the
    registry is empty and the timer still exists. *)
Lemma timer_not_iff_nonempty :
  run_ops demo_stat demo_dir [(0, OpAdd 1)] registry_init
  = Some {| indexes := [ {| index := 1; refcount := 1; destroy_time := 0 |} ];
            to_index := false; freed := [] |}
  /\ run_ops demo_stat demo_dir
       [(0, OpAdd 1); (0, OpUnref 1); (20, OpLookupRef "/mail/b")] registry_init
     = Some {| indexes := []; to_index := true; freed := [1] |}.
Proof. split; reflexivity. Qed.

Lemma timer_covers_unreferenced_witness :
  to_index demo_closed = true
  /\ to_index (destroy_unrefed true 45 demo_closed) = false.
Proof.
  pose proof (timer_covers_unreferenced demo_stat demo_dir demo_closed
                (run_ops_reachable demo_stat demo_dir demo_closed_ops
                   registry_init demo_closed
                   (reachable_init demo_stat demo_dir) demo_closed_run))
    as [Htimer Hempty].
  split; [exact (Htimer eq_refl) | exact (Hempty true 45 eq_refl)].
Defined.


Lemma release_schedules_destruction_witness :
  to_index {| indexes := [ {| index := 1; refcount := 0; destroy_time := 17 |} ];
              to_index := true; freed := [] |} = true
  /\ exists l1 r l2,
       indexes (index_storage_add 1 registry_init) = l1 ++ r :: l2
       /\ index r = 1 /\ 0 < refcount r
       /\ [ {| index := 1; refcount := 0; destroy_time := 17 |} ]
          = l1 ++ {| index := 1; refcount := refcount r - 1;
                     destroy_time := 7 + INDEX_CACHE_TIMEOUT |} :: l2
       /\ forall t, t < 7 + INDEX_CACHE_TIMEOUT ->
            In {| index := 1; refcount := refcount r - 1;
                  destroy_time := 7 + INDEX_CACHE_TIMEOUT |}
               (indexes (index_removal_timeout t
                           {| indexes := [ {| index := 1; refcount := 0;
                                              destroy_time := 17 |} ];
                              to_index := true; freed := [] |})).
Proof.
  exact (release_schedules_destruction 1 7 (index_storage_add 1 registry_init)
           _ eq_refl).
Defined.

(** Two mailboxes attached once each; the first is resolved through its
    symlink, released twice and resolved again. *)
Definition demo_shared_calls : list session_call :=
  [CallResolve "/link/a" 5; CallRelease 1 6; CallRelease 1 7;
   CallResolve "/mail/a" 8].

Definition demo_shared : registry :=
  {| indexes := [ {| index := 2; refcount := 1; destroy_time := 0 |};
                  {| index := 1; refcount := 1; destroy_time := 17 |} ];
     to_index := true; freed := [] |}.

Lemma demo_shared_nodup : NoDup (map (index_file_id demo_stat demo_dir) [1; 2]).
Proof.
  constructor; [intros [H|[]]; discriminate H|].
  constructor; [intros []|constructor].
Defined.

Lemma demo_shared_on_identity :
  Forall (on_identity demo_stat demo_dir (mbox_id 10)) demo_shared_calls.
Proof. repeat constructor. Defined.

Lemma shared_identity_invariant_witness :
  refcounts_nonneg (indexes demo_shared)
  /\ List.length (entries_of demo_stat demo_dir (mbox_id 10) (indexes demo_shared))
     = 1%nat
  /\ exists l1 r l2,
       indexes demo_shared = l1 ++ r :: l2 /\ index r = 1
       /\ indexes (fst (index_storage_lookup_ref demo_stat demo_dir
                          "/link/a" 9 demo_shared))
          = l1 ++ ref_entry r :: l2.
Proof.
  pose proof (shared_identity_invariant demo_stat demo_dir [1; 2] (mbox_id 10)
                demo_shared_calls demo_shared demo_shared_nodup
                demo_shared_on_identity eq_refl) as (Hnn & _ & Hone & Hlook & _).
  split; [exact Hnn|]. split; [exact (Hone 1 (mbox_id 10) (or_introl eq_refl) eq_refl)|].
  exact (Hlook "/link/a" 9 _ 1 eq_refl eq_refl).
Defined.

(** ** Storage instances: [index_storage_init], [index_storage_deinit] *)

(** The static [index_storage_refcount] beside the registry. *)
Record storages : Type :=
  { index_storage_refcount : Z; cache : registry }.

(** [index_storage_init] *)
Definition index_storage_init (st : storages) : storages :=
  {| index_storage_refcount := index_storage_refcount st + 1;
     cache := cache st |}.

(** [index_storage_deinit] at event-loop time [ioloop_time]. *)
Definition index_storage_deinit (ioloop_time : Z) (st : storages) : storages :=
  if 0 <? index_storage_refcount st - 1
  then {| index_storage_refcount := index_storage_refcount st - 1;
          cache := cache st |}
  else {| index_storage_refcount := index_storage_refcount st - 1;
          cache := index_storage_destroy_unrefed ioloop_time (cache st) |}.

Fixpoint init_storages (n : nat) (st : storages) : storages :=
  match n with
  | O => st
  | S n' => init_storages n' (index_storage_init st)
  end.

(** [index_storage_deinit] called at each of the times [times], in order. *)
Fixpoint deinit_storages (times : list Z) (st : storages) : storages :=
  match times with
  | [] => st
  | t :: rest => deinit_storages rest (index_storage_deinit t st)
  end.

(** The handles an entry list and a registry account for. *)
Definition handles (reg : registry) : list mail_index :=
  map index (indexes reg) ++ freed reg.

(** The handles attached by a run of operations, in order. *)
Fixpoint attached (ops : list (Z * registry_op)) : list mail_index :=
  match ops with
  | [] => []
  | (_, OpAdd h) :: rest => h :: attached rest
  | _ :: rest => attached rest
  end.

Section RegistryScans.

Variable stat : string -> option file_id.
Variable index_dir : mail_index -> string.

Lemma init_storages_refcount : forall n st,
  index_storage_refcount (init_storages n st)
  = index_storage_refcount st + Z.of_nat n
  /\ cache (init_storages n st) = cache st.
Proof.
  induction n as [|n IH]; intros st.
  - cbn [init_storages Z.of_nat]. split; [lia | reflexivity].
  - cbn [init_storages]. destruct (IH (index_storage_init st)) as [H1 H2].
    rewrite H1, H2. cbn [index_storage_init index_storage_refcount cache].
    split; [lia | reflexivity].
Qed.

Lemma deinit_storages_early : forall times st,
  Z.of_nat (List.length times) < index_storage_refcount st ->
  index_storage_refcount (deinit_storages times st)
  = index_storage_refcount st - Z.of_nat (List.length times)
  /\ cache (deinit_storages times st) = cache st.
Proof.
  induction times as [|t rest IH]; intros st Hlt.
  - cbn [deinit_storages List.length Z.of_nat]. split; [lia | reflexivity].
  - cbn [List.length] in Hlt. rewrite Nat2Z.inj_succ in Hlt.
    cbn [deinit_storages].
    assert (Hstep : index_storage_deinit t st
                    = {| index_storage_refcount := index_storage_refcount st - 1;
                         cache := cache st |}).
    { unfold index_storage_deinit.
      destruct (0 <? index_storage_refcount st - 1) eqn:E; [reflexivity|].
      apply Z.ltb_ge in E. lia. }
    rewrite Hstep.
    destruct (IH {| index_storage_refcount := index_storage_refcount st - 1;
                    cache := cache st |}) as [H1 H2];
      [cbn [index_storage_refcount]; lia|].
    rewrite H1, H2. cbn [index_storage_refcount cache List.length].
    rewrite Nat2Z.inj_succ. split; [lia | reflexivity].
Qed.

(** X8: when as many storages are deinitialised as were initialised, the
    last [index_storage_deinit] runs the forced sweep: no unreferenced
    entry is left, the referenced entries are all kept, and the count is
    back where it was.  The deinitialisations before the last one leave the
    registry as it is. *)
Theorem last_deinit_empties_cache : forall n times last st,
  index_storage_refcount st = 0 ->
  List.length times = n ->
  let opened := init_storages (S n) st in
  cache (deinit_storages times opened) = cache st
  /\ index_storage_refcount (deinit_storages (times ++ [last]) opened) = 0
  /\ count_unreferenced
       (indexes (cache (deinit_storages (times ++ [last]) opened))) = 0%nat
  /\ filter (fun r => negb (unreferenced r))
       (indexes (cache (deinit_storages (times ++ [last]) opened)))
     = filter (fun r => negb (unreferenced r)) (indexes (cache st)).
Proof.
  intros n times last st H0 Hlen opened. subst opened.
  destruct (init_storages_refcount (S n) st) as [Hr Hc].
  destruct (deinit_storages_early times (init_storages (S n) st)) as [Hr2 Hc2];
    [rewrite Hr, Hlen, H0; lia|].
  split; [congruence|].
  assert (Happ : forall a b s0,
            deinit_storages (a ++ b) s0 = deinit_storages b (deinit_storages a s0)).
  { induction a as [|x a IH]; intros b s0; [reflexivity|]. cbn. apply IH. }
  rewrite Happ. cbn [deinit_storages].
  set (s1 := deinit_storages times (init_storages (S n) st)) in *.
  assert (H1 : index_storage_refcount s1 = 1)
    by (rewrite Hr2, Hr, Hlen, H0; lia).
  unfold index_storage_deinit. rewrite H1. cbn [Z.sub Z.add Z.opp Z.pos_sub Z.ltb Z.compare].
  cbn [index_storage_refcount cache].
  destruct (sweep_spares_referenced true last (cache s1)) as [Hkeep Hnone].
  split; [reflexivity|]. split; [exact Hnone|].
  unfold index_storage_destroy_unrefed. rewrite Hkeep, Hc2, Hc. reflexivity.
Qed.

(** *** What a scan keeps and what it frees *)

Lemma lookup_scan_handles : forall st1 now l dc m,
  Permutation (map index l)
    (map index (fst (fst (lookup_scan stat index_dir st1 now l dc m)))
     ++ snd (fst (lookup_scan stat index_dir st1 now l dc m))).
Proof.
  intros st1 now l; induction l as [|r rest IH]; intros dc m; [constructor|].
  cbn [lookup_scan map].
  set (r' := if matches stat index_dir st1 r then ref_entry r else r).
  set (m' := if matches stat index_dir st1 r then Some (index r) else m).
  assert (Hidx : index r' = index r)
    by (subst r'; destruct (matches stat index_dir st1 r); reflexivity).
  destruct (unreferenced r');
    [destruct (expired now r' || (INDEX_CACHE_MAX <=? dc))|].
  - specialize (IH dc m').
    destruct (lookup_scan stat index_dir st1 now rest dc m') as [[kept fr] mm].
    cbn [fst snd] in *. rewrite Hidx. apply Permutation_cons_app. exact IH.
  - specialize (IH (dc + 1) m').
    destruct (lookup_scan stat index_dir st1 now rest (dc + 1) m') as [[kept fr] mm].
    cbn [fst snd map app] in *. rewrite Hidx. apply perm_skip. exact IH.
  - specialize (IH dc m').
    destruct (lookup_scan stat index_dir st1 now rest dc m') as [[kept fr] mm].
    cbn [fst snd map app] in *. rewrite Hidx. apply perm_skip. exact IH.
Qed.

Lemma destroy_scan_handles : forall all now l,
  Permutation (map index l)
    (map index (fst (destroy_scan all now l)) ++ snd (destroy_scan all now l)).
Proof.
  intros all now l; induction l as [|r rest IH]; [constructor|].
  cbn [destroy_scan map].
  destruct (destroy_scan all now rest) as [kept fr]. cbn [fst snd] in IH.
  destruct (unreferenced r && (all || expired now r)); cbn [fst snd map app].
  - apply Permutation_cons_app. exact IH.
  - apply perm_skip. exact IH.
Qed.

Lemma handles_step : forall now o reg reg',
  apply_op stat index_dir now o reg = Some reg' ->
  Permutation (handles reg')
    (match o with OpAdd h => h :: handles reg | _ => handles reg end).
Proof.
  intros now o reg reg' H. destruct o as [h|path|idx|all]; cbn [apply_op] in H.
  - injection H as <-. reflexivity.
  - injection H as <-. unfold index_storage_lookup_ref.
    destruct (stat path) as [st1|]; [|reflexivity].
    pose proof (lookup_scan_handles st1 now (indexes reg) 0 None) as Hp.
    destruct (lookup_scan stat index_dir st1 now (indexes reg) 0 None)
      as [[kept fr] m].
    cbn [fst snd] in *. unfold handles. cbn [indexes freed].
    rewrite app_assoc. apply Permutation_app_tail.
    symmetry. etransitivity; [exact Hp|].
    apply Permutation_app_head. apply Permutation_rev.
  - unfold index_storage_unref in H.
    destruct (unref_scan idx now (indexes reg)) as [l|] eqn:Hscan; [|discriminate].
    injection H as <-. unfold handles. cbn [indexes freed].
    destruct (unref_scan_split idx now _ _ Hscan)
      as (l1 & r & l2 & E & Hi & _ & ->).
    rewrite E, !map_app. cbn [map index]. rewrite Hi. reflexivity.
  - injection H as <-. unfold destroy_unrefed.
    pose proof (destroy_scan_handles all now (indexes reg)) as Hp.
    destruct (destroy_scan all now (indexes reg)) as [kept fr].
    cbn [fst snd] in *. unfold handles. cbn [indexes freed].
    rewrite app_assoc. apply Permutation_app_tail.
    symmetry. etransitivity; [exact Hp|].
    apply Permutation_app_head. apply Permutation_rev.
Qed.

Lemma handles_run : forall ops reg reg',
  run_ops stat index_dir ops reg = Some reg' ->
  Permutation (handles reg') (attached ops ++ handles reg).
Proof.
  induction ops as [|[now o] ops IH]; intros reg reg' H.
  - injection H as <-. reflexivity.
  - cbn [run_ops] in H.
    destruct (apply_op stat index_dir now o reg) as [reg1|] eqn:Hstep;
      [|discriminate].
    specialize (IH reg1 reg' H). pose proof (handles_step now o reg reg1 Hstep) as Hs.
    etransitivity; [exact IH|].
    destruct o as [h|path|idx|all]; cbn [attached];
      try (apply Permutation_app_head; exact Hs).
    etransitivity; [apply Permutation_app_head; exact Hs|].
    symmetry. apply Permutation_middle.
Qed.

(** X9: after any run of attach, lookup, release and sweep operations from
    the empty registry, the handles still cached together with the handles
    freed so far are exactly the handles that were attached, each as often
    as it was attached: no handle is lost and none is freed twice. *)
Theorem no_handle_is_lost : forall ops reg,
  run_ops stat index_dir ops registry_init = Some reg ->
  Permutation (map index (indexes reg) ++ freed reg) (attached ops).
Proof.
  intros ops reg H. pose proof (handles_run ops registry_init reg H) as Hp.
  unfold handles in Hp at 2. cbn [indexes freed registry_init map app] in Hp.
  rewrite app_nil_r in Hp. exact Hp.
Qed.

Lemma lookup_scan_match : forall st1 now l dc m0,
  refcounts_nonneg l ->
  (Forall (fun r => matches stat index_dir st1 r = false) l
   /\ snd (lookup_scan stat index_dir st1 now l dc m0) = m0)
  \/ exists r,
       In r l /\ matches stat index_dir st1 r = true
       /\ snd (lookup_scan stat index_dir st1 now l dc m0) = Some (index r)
       /\ In (ref_entry r)
            (fst (fst (lookup_scan stat index_dir st1 now l dc m0))).
Proof.
  intros st1 now l; induction l as [|r rest IH]; intros dc m0 Hnn.
  - left. split; [constructor | reflexivity].
  - inversion Hnn as [|? ? Hr Hrest]; subst. cbn [lookup_scan].
    set (r' := if matches stat index_dir st1 r then ref_entry r else r).
    set (m' := if matches stat index_dir st1 r then Some (index r) else m0).
    assert (Hcase : forall dc',
      (Forall (fun r => matches stat index_dir st1 r = false) (r :: rest)
       /\ snd (lookup_scan stat index_dir st1 now rest dc' m') = m0)
      \/ (exists r0, In r0 (r :: rest) /\ matches stat index_dir st1 r0 = true
            /\ snd (lookup_scan stat index_dir st1 now rest dc' m') = Some (index r0)
            /\ (In (ref_entry r0)
                  (fst (fst (lookup_scan stat index_dir st1 now rest dc' m')))
                \/ (r0 = r /\ unreferenced r' = false)))).
    { intros dc'. destruct (IH dc' m' Hrest) as [[Hno Hm] | (r0 & Hin & Hm0 & Hs & Hk)].
      - subst r' m'. destruct (matches stat index_dir st1 r) eqn:Hmr.
        + right. exists r. repeat split; auto; [left; reflexivity|].
          right. split; [reflexivity|]. unfold unreferenced.
          cbn [ref_entry refcount]. apply Z.eqb_neq. lia.
        + left. split; [constructor; assumption | exact Hm].
      - right. exists r0. repeat split; auto. right; exact Hin. }
    destruct (unreferenced r') eqn:Hu;
      [destruct (expired now r' || (INDEX_CACHE_MAX <=? dc))|].
    + destruct (Hcase dc) as [[Hno Hm] | (r0 & Hin & Hm0 & Hs & [Hk | [_ Hk]])];
        [| |discriminate Hk];
        destruct (lookup_scan stat index_dir st1 now rest dc m') as [[kept fr] mm];
        cbn [fst snd] in *; [left; auto | right; exists r0; auto].
    + destruct (Hcase (dc + 1)) as [[Hno Hm] | (r0 & Hin & Hm0 & Hs & [Hk | [_ Hk]])];
        [| |discriminate Hk];
        destruct (lookup_scan stat index_dir st1 now rest (dc + 1) m')
          as [[kept fr] mm];
        cbn [fst snd] in *; [left; auto | right; exists r0; repeat split; auto].
      right. exact Hk.
    + destruct (Hcase dc) as [[Hno Hm] | (r0 & Hin & Hm0 & Hs & [Hk | [-> _]])];
        destruct (lookup_scan stat index_dir st1 now rest dc m') as [[kept fr] mm];
        cbn [fst snd] in *.
      * left; auto.
      * right. exists r0. repeat split; auto. right. exact Hk.
      * right. exists r. repeat split; auto. left. subst r'. rewrite Hm0.
        reflexivity.
Qed.

(** X10: a lookup of a path that cannot be statted changes nothing and
    returns no handle.  Otherwise it returns a handle exactly when some
    cached entry's directory is the same file as the path; the entry it
    returns stays cached, with one more reference, whatever its destroy
    timestamp. *)
Theorem lookup_ref_finds_cached_entry : forall path now reg,
  refcounts_nonneg (indexes reg) ->
  match stat path with
  | None => index_storage_lookup_ref stat index_dir path now reg = (reg, None)
  | Some st1 =>
      (Forall (fun r => matches stat index_dir st1 r = false) (indexes reg)
       /\ snd (index_storage_lookup_ref stat index_dir path now reg) = None)
      \/ exists r,
           In r (indexes reg) /\ matches stat index_dir st1 r = true
           /\ snd (index_storage_lookup_ref stat index_dir path now reg)
              = Some (index r)
           /\ In (ref_entry r)
                (indexes (fst (index_storage_lookup_ref stat index_dir
                                 path now reg)))
  end.
Proof.
  intros path now reg Hnn. unfold index_storage_lookup_ref.
  destruct (stat path) as [st1|]; [|reflexivity].
  pose proof (lookup_scan_match st1 now (indexes reg) 0 None Hnn) as Hm.
  destruct (lookup_scan stat index_dir st1 now (indexes reg) 0 None)
    as [[kept fr] m].
  cbn [fst snd indexes] in *. exact Hm.
Qed.

Lemma lookup_scan_not_due : forall st1 now l dc m,
  Forall (fun r => unreferenced r && expired now r = false)
    (fst (fst (lookup_scan stat index_dir st1 now l dc m))).
Proof.
  intros st1 now l; induction l as [|r rest IH]; intros dc m; [constructor|].
  cbn [lookup_scan].
  set (r' := if matches stat index_dir st1 r then ref_entry r else r).
  set (m' := if matches stat index_dir st1 r then Some (index r) else m).
  destruct (unreferenced r') eqn:Hu;
    [destruct (expired now r' || (INDEX_CACHE_MAX <=? dc)) eqn:Hc|].
  - specialize (IH dc m').
    destruct (lookup_scan stat index_dir st1 now rest dc m') as [[kept fr] mm].
    exact IH.
  - specialize (IH (dc + 1) m').
    destruct (lookup_scan stat index_dir st1 now rest (dc + 1) m') as [[kept fr] mm].
    cbn [fst] in *. constructor; [|exact IH].
    apply orb_false_elim in Hc as [Hc _]. rewrite Hc. apply andb_false_r.
  - specialize (IH dc m').
    destruct (lookup_scan stat index_dir st1 now rest dc m') as [[kept fr] mm].
    cbn [fst] in *. constructor; [|exact IH]. rewrite Hu. reflexivity.
Qed.

(** X11: after a sweep pass, and after the scan of a lookup whose path can
    be statted, no entry remains that is unreferenced and due (its destroy
    timestamp at or before the current time). *)
Theorem no_due_entry_survives : forall now reg,
  Forall (fun r => unreferenced r && expired now r = false)
    (indexes (index_removal_timeout now reg))
  /\ forall path st1,
       stat path = Some st1 ->
       Forall (fun r => unreferenced r && expired now r = false)
         (indexes (fst (index_storage_lookup_ref stat index_dir path now reg))).
Proof.
  intros now reg. split.
  - unfold index_removal_timeout. rewrite destroy_unrefed_indexes.
    apply Forall_forall. intros r Hin. apply filter_In in Hin as [_ Hr].
    cbn [orb] in Hr. apply negb_true_iff in Hr. exact Hr.
  - intros path st1 Hstat. unfold index_storage_lookup_ref. rewrite Hstat.
    pose proof (lookup_scan_not_due st1 now (indexes reg) 0 None) as Hd.
    destruct (lookup_scan stat index_dir st1 now (indexes reg) 0 None)
      as [[kept fr] m].
    exact Hd.
Qed.

End RegistryScans.

(** Two storage instances over the five closed mailboxes: the first
    [index_storage_deinit] keeps them, the second empties the cache. *)
Lemma last_deinit_empties_cache_witness :
  let st := {| index_storage_refcount := 0; cache := demo_closed |} in
  cache (deinit_storages [41] (init_storages 2 st)) = demo_closed
  /\ indexes (cache (deinit_storages ([41] ++ [42]) (init_storages 2 st))) = [].
Proof.
  pose proof (last_deinit_empties_cache 1 [41] 42
                {| index_storage_refcount := 0; cache := demo_closed |}
                eq_refl eq_refl) as Hw.
  split; [exact (proj1 Hw) | vm_compute; reflexivity].
Defined.

Lemma no_handle_is_lost_witness :
  Permutation (map index (indexes demo_closed) ++ freed demo_closed)
    (attached demo_closed_ops).
Proof.
  exact (no_handle_is_lost demo_stat demo_dir demo_closed_ops demo_closed
           demo_closed_run).
Defined.

Lemma demo_closed_nonneg : refcounts_nonneg (indexes demo_closed).
Proof.
  unfold refcounts_nonneg. repeat constructor; vm_compute; discriminate.
Defined.

(** A second path to the first mailbox finds its cached entry. *)
Lemma lookup_ref_finds_cached_entry_witness :
  (Forall (fun r => matches demo_stat demo_dir (mbox_id 10) r = false)
     (indexes demo_closed)
   /\ snd (index_storage_lookup_ref demo_stat demo_dir "/link/a" 45 demo_closed)
      = None)
  \/ exists r,
       In r (indexes demo_closed)
       /\ matches demo_stat demo_dir (mbox_id 10) r = true
       /\ snd (index_storage_lookup_ref demo_stat demo_dir "/link/a" 45 demo_closed)
          = Some (index r)
       /\ In (ref_entry r)
            (indexes (fst (index_storage_lookup_ref demo_stat demo_dir
                             "/link/a" 45 demo_closed))).
Proof.
  exact (lookup_ref_finds_cached_entry demo_stat demo_dir "/link/a" 45
           demo_closed demo_closed_nonneg).
Defined.


End Registry.

(* ================================================================== *)
(** * Lock coordinator and error translation
      (index-storage.c, lines 20, 225-321 and 437-464) *)
(* ================================================================== *)

Module Lock.

Local Open Scope string_scope.
Local Open Scope list_scope.
Local Open Scope Z_scope.

(** [#define LOCK_NOTIFY_INTERVAL 30] *)
Definition LOCK_NOTIFY_INTERVAL : Z := 30.

(** An [enum mail_lock_type] or [enum mailbox_lock_type] value, as the C
    integer it is. *)
Definition lock_value : Type := Z.

(** The enumeration constants that [index_storage_lock] compares with.
    The headers that give them their values ([mail-index.h],
    [mail-storage.h]) are not among the sources, so the values are
    parameters. *)
Class LockEnums : Type :=
  { MAIL_LOCK_UNLOCK : lock_value;
    MAIL_LOCK_SHARED : lock_value;
    MAIL_LOCK_EXCLUSIVE : lock_value;
    MAILBOX_LOCK_UNLOCK : lock_value }.

(** The three kinds handled by the [switch] of [lock_notify]. *)
Inductive mail_lock_notify_type : Type :=
| MAIL_LOCK_NOTIFY_MAILBOX_ABORT
| MAIL_LOCK_NOTIFY_MAILBOX_OVERRIDE
| MAIL_LOCK_NOTIFY_INDEX_ABORT.

Definition notify_type_eqb (a b : mail_lock_notify_type) : bool :=
  match a, b with
  | MAIL_LOCK_NOTIFY_MAILBOX_ABORT, MAIL_LOCK_NOTIFY_MAILBOX_ABORT
  | MAIL_LOCK_NOTIFY_MAILBOX_OVERRIDE, MAIL_LOCK_NOTIFY_MAILBOX_OVERRIDE
  | MAIL_LOCK_NOTIFY_INDEX_ABORT, MAIL_LOCK_NOTIFY_INDEX_ABORT => true
  | _, _ => false
  end.

(** The cases of the [switch] of [mail_storage_set_index_error]. *)
Inductive mail_index_error : Type :=
| MAIL_INDEX_ERROR_NONE
| MAIL_INDEX_ERROR_INTERNAL
| MAIL_INDEX_ERROR_INCONSISTENT
| MAIL_INDEX_ERROR_DISKSPACE
| MAIL_INDEX_ERROR_INDEX_LOCK_TIMEOUT
| MAIL_INDEX_ERROR_MAILBOX_LOCK_TIMEOUT.

(** A [struct mail_cache_transaction_ctx *]. *)
Definition trans_ctx_ptr : Type := Z.

(** The fields of [struct index_mailbox] that these functions read or
    write.  [last_notify_type = None] is the C value
    [(enum mail_lock_notify_type)-1]. *)
Record index_mailbox : Type :=
  { box_name : string;
    readonly : bool;
    inconsistent : bool;
    lock_type : lock_value;
    trans_ctx : option trans_ctx_ptr;
    next_lock_notify : Z;
    last_notify_type : option mail_lock_notify_type }.

(** The calls the code makes on its collaborators, in call order. *)
Inductive event : Type :=
| EvAlarm (secs : N)                       (* alarm(secs) *)
| EvNotifyNo (msg : string)                (* storage->callbacks->notify_no *)
| EvNotifyOk (msg : string)                (* storage->callbacks->notify_ok *)
| EvSetInternalError                       (* mail_storage_set_internal_error *)
| EvSetError (msg : string)                (* mail_storage_set_error *)
| EvCommit (ctx : trans_ctx_ptr) (ok : bool)  (* mail_cache_transaction_commit *)
| EvEnd (ctx : trans_ctx_ptr) (ok : bool)     (* mail_cache_transaction_end *)
| EvSetLockNotifyCallback (installed : bool)  (* index->set_lock_notify_callback *)
| EvSetLock (lock : lock_value) (ok : bool)   (* index->set_lock *)
| EvResetError.                            (* index_reset_error *)

(** ** Stall notification: [lock_notify] *)

Definition alarm_events (secs_left : N) : list event :=
  if (secs_left mod 15 =? 0)%N then [] else [EvAlarm (secs_left mod 15)].

Definition notification (notify_type : mail_lock_notify_type) (secs_left : N)
  : event :=
  match notify_type with
  | MAIL_LOCK_NOTIFY_MAILBOX_ABORT =>
      EvNotifyNo ("Mailbox is locked, will abort in " ++ dec secs_left
                  ++ " seconds")
  | MAIL_LOCK_NOTIFY_MAILBOX_OVERRIDE =>
      EvNotifyOk ("Stale mailbox lock file detected, will override in "
                  ++ dec secs_left ++ " seconds")
  | MAIL_LOCK_NOTIFY_INDEX_ABORT =>
      EvNotifyNo ("Mailbox index is locked, will abort in " ++ dec secs_left
                  ++ " seconds")
  end.

Definition set_notified (notify_type : mail_lock_notify_type) (now : Z)
  (ibox : index_mailbox) : index_mailbox :=
  {| box_name := box_name ibox;
     readonly := readonly ibox;
     inconsistent := inconsistent ibox;
     lock_type := lock_type ibox;
     trans_ctx := trans_ctx ibox;
     next_lock_notify := now + LOCK_NOTIFY_INTERVAL;
     last_notify_type := Some notify_type |}.

(** The early [return] of [lock_notify]. *)
Definition notify_suppressed (notify_type : mail_lock_notify_type)
  (secs_left : N) (now : Z) (ibox : index_mailbox) : bool :=
  match last_notify_type ibox with
  | None =>
      match notify_type with
      | MAIL_LOCK_NOTIFY_MAILBOX_OVERRIDE => false
      | _ => (now <? next_lock_notify ibox) || (secs_left <? 15)%N
      end
  | Some last =>
      if notify_type_eqb last notify_type
      then (now <? next_lock_notify ibox) || (secs_left <? 15)%N
      else false
  end.

(** [lock_notify]; [now] is the value of [time(NULL)]. *)
Definition lock_notify (notify_type : mail_lock_notify_type) (secs_left : N)
  (now : Z) (ibox : index_mailbox) : index_mailbox * list event :=
  if notify_suppressed notify_type secs_left now ibox
  then (ibox, alarm_events secs_left)
  else (set_notified notify_type now ibox,
        alarm_events secs_left ++ [notification notify_type secs_left]).

Definition is_notification (e : event) : bool :=
  match e with
  | EvNotifyNo _ | EvNotifyOk _ => true
  | _ => false
  end.

(** A notification was passed to the storage callbacks. *)
Definition shown (evs : list event) : bool := existsb is_notification evs.

(** One invocation of the callback by the lock provider while it waits. *)
Record stall : Type :=
  { stall_type : mail_lock_notify_type; stall_secs_left : N; stall_time : Z }.

Fixpoint deliver_stalls (stalls : list stall) (ibox : index_mailbox)
  : index_mailbox * list event :=
  match stalls with
  | [] => (ibox, [])
  | s :: rest =>
      let '(ibox1, evs1) :=
        lock_notify (stall_type s) (stall_secs_left s) (stall_time s) ibox in
      let '(ibox2, evs2) := deliver_stalls rest ibox1 in
      (ibox2, evs1 ++ evs2)
  end.

(** ** The index object behind its function pointers *)

Class IndexOps (W : Type) : Type :=
  { (* index->set_lock: the result, and the callback invocations made
       while waiting (when a callback is installed) *)
    index_set_lock : lock_value -> W -> bool * list stall * W;
    (* index->get_last_error *)
    index_get_last_error : W -> mail_index_error;
    (* index_reset_error *)
    index_reset_error : W -> W;
    (* index->mailbox_readonly *)
    index_mailbox_readonly : W -> bool;
    mail_cache_transaction_commit : trans_ctx_ptr -> W -> bool * W;
    mail_cache_transaction_end : trans_ctx_ptr -> W -> bool * W }.

Section WithIndex.

Context {W : Type} `{IndexOps W} `{LockEnums}.

(** A session, the index it is bound to, and the calls made so far. *)
Record session : Type :=
  { ibox : index_mailbox; index : W; trace : list event }.

Definition set_inconsistent (b : index_mailbox) : index_mailbox :=
  {| box_name := box_name b;
     readonly := readonly b;
     inconsistent := true;
     lock_type := lock_type b;
     trans_ctx := trans_ctx b;
     next_lock_notify := next_lock_notify b;
     last_notify_type := last_notify_type b |}.

(** The [switch] of [mail_storage_set_index_error]: the session and the
    calls on the storage. *)
Definition translate_error (e : mail_index_error) (b : index_mailbox)
  : index_mailbox * list event :=
  match e with
  | MAIL_INDEX_ERROR_NONE
  | MAIL_INDEX_ERROR_INTERNAL => (b, [EvSetInternalError])
  | MAIL_INDEX_ERROR_INCONSISTENT => (set_inconsistent b, [])
  | MAIL_INDEX_ERROR_DISKSPACE => (b, [EvSetError "Out of disk space"])
  | MAIL_INDEX_ERROR_INDEX_LOCK_TIMEOUT =>
      (b, [EvSetError ("Timeout while waiting for lock to index of mailbox "
                       ++ box_name b)])
  | MAIL_INDEX_ERROR_MAILBOX_LOCK_TIMEOUT =>
      (b, [EvSetError ("Timeout while waiting for lock to mailbox "
                       ++ box_name b)])
  end.

(** [mail_storage_set_index_error] *)
Definition mail_storage_set_index_error (s : session) : bool * session :=
  let '(b, evs) := translate_error (index_get_last_error (index s)) (ibox s) in
  (false,
   {| ibox := b;
      index := index_reset_error (index s);
      trace := trace s ++ evs ++ [EvResetError] |}).

(** [index_storage_init_lock_notify]; [now] is [time(NULL)]. *)
Definition index_storage_init_lock_notify (now : Z) (s : session) : session :=
  {| ibox :=
       {| box_name := box_name (ibox s);
          readonly := if index_mailbox_readonly (index s) then true
                      else readonly (ibox s);
          inconsistent := inconsistent (ibox s);
          lock_type := lock_type (ibox s);
          trans_ctx := trans_ctx (ibox s);
          next_lock_notify := now + LOCK_NOTIFY_INTERVAL;
          last_notify_type := None |};
     index := index s;
     trace := trace s ++ [EvSetLockNotifyCallback true] |}.

(** The [if (ibox->trans_ctx != NULL)] block of [index_storage_lock]:
    the value of [ret] and the session after it. *)
Definition finish_transaction (s : session) : bool * session :=
  match trans_ctx (ibox s) with
  | None => (true, s)
  | Some ctx =>
      let '(ok1, w1) := mail_cache_transaction_commit ctx (index s) in
      let '(ok2, w2) := mail_cache_transaction_end ctx w1 in
      (ok1 && ok2,
       {| ibox :=
            {| box_name := box_name (ibox s);
               readonly := readonly (ibox s);
               inconsistent := inconsistent (ibox s);
               lock_type := lock_type (ibox s);
               trans_ctx := None;
               next_lock_notify := next_lock_notify (ibox s);
               last_notify_type := last_notify_type (ibox s) |};
          index := w2;
          trace := trace s ++ [EvCommit ctx ok1; EvEnd ctx ok2] |})
  end.

(** [index_storage_lock] from the comment "we have to set/reset this every
    time" on, entered with the value [ret]. *)
Definition acquire (ret : bool) (lock : lock_value) (now : Z) (s : session)
  : bool * session :=
  let s1 := index_storage_init_lock_notify now s in
  let '(ok, stalls, w) := index_set_lock lock (index s1) in
  let '(b, evs) := deliver_stalls stalls (ibox s1) in
  let s2 := {| ibox := b; index := w;
               trace := trace s1 ++ evs
                        ++ [EvSetLock lock ok; EvSetLockNotifyCallback false] |} in
  if ret && ok then (true, s2) else mail_storage_set_index_error s2.

(** [index_storage_lock] *)
Definition index_storage_lock (lock : lock_value) (now : Z) (s : session)
  : bool * session :=
  if lock =? MAIL_LOCK_UNLOCK then
    let '(ret, s1) := finish_transaction s in
    if negb (lock_type (ibox s1) =? MAILBOX_LOCK_UNLOCK)
    then (true, s1)
    else acquire ret lock now s1
  else
    if lock_type (ibox s) =? MAIL_LOCK_EXCLUSIVE
    then (true, s)
    else acquire true lock now s.

End WithIndex.

Arguments session W : clear implicits.

(** ** Throttling of stall notifications *)

Lemma notify_type_eqb_refl : forall t, notify_type_eqb t t = true.
Proof. destruct t; reflexivity. Qed.

Lemma shown_alarm_events : forall secs, shown (alarm_events secs) = false.
Proof.
  intros secs. unfold alarm_events.
  destruct (secs mod 15 =? 0)%N; reflexivity.
Qed.

Lemma shown_notification : forall t secs,
  shown (alarm_events secs ++ [notification t secs]) = true.
Proof.
  intros t secs. unfold shown. rewrite existsb_app. apply orb_true_iff. right.
  destruct t; reflexivity.
Qed.

(** C2 (amended): a stall notification of the same kind as the previous one
    is suppressed when it arrives before the next allowed notification time
    (30 seconds after the last one shown) or when the remaining time is
    under 15 seconds; otherwise it is shown, and the next allowed time
    becomes 30 seconds later. *)
Theorem same_kind_notification_throttled : forall t secs now b,
  last_notify_type b = Some t ->
  lock_notify t secs now b
  = (if (now <? next_lock_notify b) || (secs <? 15)%N
     then (b, alarm_events secs)
     else (set_notified t now b, alarm_events secs ++ [notification t secs]))
  /\ shown (snd (lock_notify t secs now b))
     = negb ((now <? next_lock_notify b) || (secs <? 15)%N)
  /\ (shown (snd (lock_notify t secs now b)) = true ->
      next_lock_notify (fst (lock_notify t secs now b))
      = now + LOCK_NOTIFY_INTERVAL).
Proof.
  intros t secs now b Hlast.
  unfold lock_notify, notify_suppressed. rewrite Hlast, notify_type_eqb_refl.
  destruct ((now <? next_lock_notify b) || (secs <? 15)%N); cbn [fst snd negb].
  - rewrite shown_alarm_events. repeat split. discriminate.
  - rewrite shown_notification. repeat split.
Qed.

(** A session that was last notified of an imminent mailbox-lock abort and
    may be notified again from time 100 on. *)
Definition demo_box : index_mailbox :=
  {| box_name := "INBOX"; readonly := false; inconsistent := false;
     lock_type := 0; trans_ctx := None;
     next_lock_notify := 100;
     last_notify_type := Some MAIL_LOCK_NOTIFY_MAILBOX_ABORT |}.

(** C2 (counterexample): with 10 seconds left, a notification of the same
    kind is not shown: neither within the throttle interval (time 90) nor
    after it (time 200). *)
Lemma escalation_is_suppressed :
  lock_notify MAIL_LOCK_NOTIFY_MAILBOX_ABORT 10 90 demo_box
  = (demo_box, [EvAlarm 10])
  /\ lock_notify MAIL_LOCK_NOTIFY_MAILBOX_ABORT 10 200 demo_box
     = (demo_box, [EvAlarm 10])
  /\ shown (snd (lock_notify MAIL_LOCK_NOTIFY_MAILBOX_ABORT 10 90 demo_box))
     = false.
Proof. repeat split. Qed.

Lemma same_kind_notification_throttled_witness :
  lock_notify MAIL_LOCK_NOTIFY_MAILBOX_ABORT 30 200 demo_box
  = (set_notified MAIL_LOCK_NOTIFY_MAILBOX_ABORT 200 demo_box,
     [EvNotifyNo "Mailbox is locked, will abort in 30 seconds"]).
Proof.
  exact (proj1 (same_kind_notification_throttled
                  MAIL_LOCK_NOTIFY_MAILBOX_ABORT 30 200 demo_box eq_refl)).
Defined.

(** ** Error translation and the lock state machine *)

Section LockProofs.

Context {W : Type} `{IndexOps W} `{LockEnums}.

Lemma lock_notify_keeps_session : forall t secs now b,
  let b' := fst (lock_notify t secs now b) in
  inconsistent b' = inconsistent b /\ lock_type b' = lock_type b
  /\ trans_ctx b' = trans_ctx b /\ box_name b' = box_name b.
Proof.
  intros t secs now b. unfold lock_notify.
  destruct (notify_suppressed t secs now b); repeat split.
Qed.

Lemma deliver_stalls_keeps_session : forall stalls b,
  let b' := fst (deliver_stalls stalls b) in
  inconsistent b' = inconsistent b /\ lock_type b' = lock_type b
  /\ trans_ctx b' = trans_ctx b /\ box_name b' = box_name b.
Proof.
  induction stalls as [|s rest IH]; intros b; [repeat split|].
  cbn [deliver_stalls].
  pose proof (lock_notify_keeps_session (stall_type s) (stall_secs_left s)
                (stall_time s) b) as Hn.
  destruct (lock_notify (stall_type s) (stall_secs_left s) (stall_time s) b)
    as [b1 evs1].
  specialize (IH b1). destruct (deliver_stalls rest b1) as [b2 evs2].
  cbn [fst] in *. intuition congruence.
Qed.

Lemma translate_error_sticky : forall e b,
  inconsistent b = true -> inconsistent (fst (translate_error e b)) = true.
Proof. intros e b Hb. destruct e; cbn; auto. Qed.

Lemma set_index_error_sticky : forall s : session W,
  inconsistent (ibox s) = true ->
  inconsistent (ibox (snd (mail_storage_set_index_error s))) = true.
Proof.
  intros s Hs. unfold mail_storage_set_index_error.
  pose proof (translate_error_sticky (index_get_last_error (index s)) _ Hs) as Ht.
  destruct (translate_error (index_get_last_error (index s)) (ibox s)).
  exact Ht.
Qed.

Lemma acquire_sticky : forall ret lock now (s : session W),
  inconsistent (ibox s) = true ->
  inconsistent (ibox (snd (acquire ret lock now s))) = true.
Proof.
  intros ret lock now s Hs. unfold acquire.
  destruct (index_set_lock lock (index (index_storage_init_lock_notify now s)))
    as [[ok stalls] w].
  pose proof (deliver_stalls_keeps_session stalls
                (ibox (index_storage_init_lock_notify now s))) as [Hd _].
  destruct (deliver_stalls stalls (ibox (index_storage_init_lock_notify now s)))
    as [b evs].
  cbn [fst] in Hd. cbn [index_storage_init_lock_notify ibox inconsistent] in Hd.
  destruct (ret && ok).
  - cbn [snd ibox]. congruence.
  - apply set_index_error_sticky. cbn [ibox]. congruence.
Qed.

Lemma finish_transaction_inconsistent : forall s : session W,
  inconsistent (ibox (snd (finish_transaction s))) = inconsistent (ibox s).
Proof.
  intros s. unfold finish_transaction.
  destruct (trans_ctx (ibox s)) as [ctx|]; [|reflexivity].
  destruct (mail_cache_transaction_commit ctx (index s)) as [ok1 w1].
  destruct (mail_cache_transaction_end ctx w1) as [ok2 w2]. reflexivity.
Qed.

Lemma lock_sticky : forall lock now (s : session W),
  inconsistent (ibox s) = true ->
  inconsistent (ibox (snd (index_storage_lock lock now s))) = true.
Proof.
  intros lock now s Hs. unfold index_storage_lock.
  destruct (lock =? MAIL_LOCK_UNLOCK).
  - pose proof (finish_transaction_inconsistent s) as Hf.
    destruct (finish_transaction s) as [ret s1]. cbn [snd] in Hf.
    destruct (negb (lock_type (ibox s1) =? MAILBOX_LOCK_UNLOCK)).
    + cbn [snd]. congruence.
    + apply acquire_sticky. congruence.
  - destruct (lock_type (ibox s) =? MAIL_LOCK_EXCLUSIVE); [exact Hs|].
    apply acquire_sticky. exact Hs.
Qed.

(** C9: [mail_storage_set_index_error] reports failure, resets the index
    layer's error state as its last step, and translates each error kind:
    none/internal to an internal-error report on the storage, inconsistent
    to the session's inconsistency flag (which neither the translation nor
    a later lock operation clears), disk space to the user error "Out of
    disk space", and either lock timeout to a timeout error that names the
    mailbox. *)
Theorem index_error_translation : forall s : session W,
  fst (mail_storage_set_index_error s) = false
  /\ index (snd (mail_storage_set_index_error s))
     = index_reset_error (index s)
  /\ trace (snd (mail_storage_set_index_error s))
     = trace s
       ++ match index_get_last_error (index s) with
          | MAIL_INDEX_ERROR_NONE | MAIL_INDEX_ERROR_INTERNAL =>
              [EvSetInternalError]
          | MAIL_INDEX_ERROR_INCONSISTENT => []
          | MAIL_INDEX_ERROR_DISKSPACE => [EvSetError "Out of disk space"]
          | MAIL_INDEX_ERROR_INDEX_LOCK_TIMEOUT =>
              [EvSetError
                 ("Timeout while waiting for lock to index of mailbox "
                  ++ box_name (ibox s))]
          | MAIL_INDEX_ERROR_MAILBOX_LOCK_TIMEOUT =>
              [EvSetError
                 ("Timeout while waiting for lock to mailbox "
                  ++ box_name (ibox s))]
          end
       ++ [EvResetError]
  /\ ibox (snd (mail_storage_set_index_error s))
     = match index_get_last_error (index s) with
       | MAIL_INDEX_ERROR_INCONSISTENT => set_inconsistent (ibox s)
       | _ => ibox s
       end
  /\ inconsistent (set_inconsistent (ibox s)) = true
  /\ (inconsistent (ibox s) = true ->
      inconsistent (ibox (snd (mail_storage_set_index_error s))) = true
      /\ forall lock now,
           inconsistent (ibox (snd (index_storage_lock lock now s))) = true).
Proof.
  intros s. unfold mail_storage_set_index_error.
  destruct (index_get_last_error (index s)) eqn:He; cbn [translate_error fst snd
    index trace ibox]; repeat split; auto;
    try (intros; apply lock_sticky; assumption).
Qed.

(** C10: while the session's lock type is Exclusive, a request for any lock
    other than Unlocked returns success at once: no call is made on the
    index (the trace is the same), and neither the session nor the index
    changes. *)
Theorem exclusive_lock_is_kept : forall lock now (s : session W),
  lock_type (ibox s) = MAIL_LOCK_EXCLUSIVE ->
  lock <> MAIL_LOCK_UNLOCK ->
  index_storage_lock lock now s = (true, s).
Proof.
  intros lock now s Hex Hreq. unfold index_storage_lock.
  apply Z.eqb_neq in Hreq. rewrite Hreq, Hex, Z.eqb_refl. reflexivity.
Qed.

(** X1: unlocking with an open cache transaction calls commit, then end on
    the index state the commit left, whatever the commit returned, and
    clears the session's transaction handle. *)
Theorem unlock_attempts_commit_and_end : forall now (s : session W) ctx,
  trans_ctx (ibox s) = Some ctx ->
  let c := mail_cache_transaction_commit ctx (index s) in
  let e := mail_cache_transaction_end ctx (snd c) in
  exists rest,
    trace (snd (index_storage_lock MAIL_LOCK_UNLOCK now s))
    = trace s ++ [EvCommit ctx (fst c); EvEnd ctx (fst e)] ++ rest
    /\ trans_ctx (ibox (snd (index_storage_lock MAIL_LOCK_UNLOCK now s))) = None.
Proof.
  intros now s ctx Hctx c e. subst c e. unfold index_storage_lock.
  rewrite Z.eqb_refl. unfold finish_transaction. rewrite Hctx.
  destruct (mail_cache_transaction_commit ctx (index s)) as [ok1 w1].
  cbn [fst snd].
  destruct (mail_cache_transaction_end ctx w1) as [ok2 w2]. cbn [fst snd ibox lock_type].
  destruct (negb (lock_type (ibox s) =? MAILBOX_LOCK_UNLOCK)).
  - exists []. cbn [snd trace ibox trans_ctx]. split; reflexivity.
  - unfold acquire.
    match goal with |- context [index_set_lock ?l ?w] =>
      destruct (index_set_lock l w) as [[ok stalls] w3] end.
    match goal with |- context [deliver_stalls ?a ?b] =>
      pose proof (deliver_stalls_keeps_session a b) as (_ & _ & Ht & _);
      destruct (deliver_stalls a b) as [b4 evs] end.
    cbn [fst index_storage_init_lock_notify ibox trans_ctx] in Ht.
    destruct (ok1 && ok2 && ok).
    + eexists. cbn [snd trace ibox index_storage_init_lock_notify].
      rewrite <- !app_assoc. split; [reflexivity | exact Ht].
    + unfold mail_storage_set_index_error. cbn [index ibox trace].
      match goal with |- context [translate_error ?a ?b] =>
        assert (Hte : trans_ctx (fst (translate_error a b)) = trans_ctx b)
          by (destruct a; reflexivity);
        destruct (translate_error a b) as [b5 evs5] end.
      cbn [fst] in Hte.
      eexists. cbn [snd trace ibox index_storage_init_lock_notify].
      rewrite <- !app_assoc. split; [reflexivity | congruence].
Qed.

(** X2: when the session's own lock type is unlocked, the result of an
    unlock is the conjunction of commit, end and the index unlock. *)
Theorem unlock_result_is_conjunction : forall now (s : session W) ctx,
  trans_ctx (ibox s) = Some ctx ->
  lock_type (ibox s) = MAILBOX_LOCK_UNLOCK ->
  let c := mail_cache_transaction_commit ctx (index s) in
  let e := mail_cache_transaction_end ctx (snd c) in
  fst (index_storage_lock MAIL_LOCK_UNLOCK now s)
  = fst c && fst e && fst (fst (index_set_lock MAIL_LOCK_UNLOCK (snd e))).
Proof.
  intros now s ctx Hctx Hun c e. subst c e. unfold index_storage_lock.
  rewrite Z.eqb_refl. unfold finish_transaction. rewrite Hctx.
  destruct (mail_cache_transaction_commit ctx (index s)) as [ok1 w1].
  cbn [fst snd].
  destruct (mail_cache_transaction_end ctx w1) as [ok2 w2].
  cbn [fst snd ibox lock_type]. rewrite Hun, Z.eqb_refl. cbn [negb].
  unfold acquire. cbn [index_storage_init_lock_notify index ibox].
  destruct (index_set_lock MAIL_LOCK_UNLOCK w2) as [[ok stalls] w3].
  match goal with |- context [deliver_stalls ?a ?b] =>
    destruct (deliver_stalls a b) as [b4 evs] end.
  cbn [fst]. destruct (ok1 && ok2 && ok) eqn:Hall.
  - reflexivity.
  - unfold mail_storage_set_index_error.
    match goal with |- context [translate_error ?a ?b] =>
      destruct (translate_error a b) end. reflexivity.
Qed.

(** While the session's own lock type is not unlocked, an unlock returns
    success whatever commit and end returned. *)
Lemma unlock_while_locked_succeeds : forall now (s : session W),
  lock_type (ibox s) <> MAILBOX_LOCK_UNLOCK ->
  fst (index_storage_lock MAIL_LOCK_UNLOCK now s) = true.
Proof.
  intros now s Hl. unfold index_storage_lock. rewrite Z.eqb_refl.
  assert (Hf : lock_type (ibox (snd (finish_transaction s))) = lock_type (ibox s)).
  { unfold finish_transaction. destruct (trans_ctx (ibox s)) as [ctx|]; [|reflexivity].
    destruct (mail_cache_transaction_commit ctx (index s)) as [ok1 w1].
    destruct (mail_cache_transaction_end ctx w1) as [ok2 w2]. reflexivity. }
  destruct (finish_transaction s) as [ret s1]. cbn [snd] in Hf.
  rewrite Hf. apply Z.eqb_neq in Hl. rewrite Hl. reflexivity.
Qed.

End LockProofs.

(** ** Sequences of stall notifications *)

(** The stalls of one waiting period whose message [lock_notify] passes on
    to the storage callbacks, in order. *)
Fixpoint shown_stalls (stalls : list stall) (ibox : index_mailbox)
  : list stall :=
  match stalls with
  | [] => []
  | s :: rest =>
      if notify_suppressed (stall_type s) (stall_secs_left s) (stall_time s) ibox
      then shown_stalls rest ibox
      else s :: shown_stalls rest
                  (set_notified (stall_type s) (stall_time s) ibox)
  end.

Definition stall_message (s : stall) : event :=
  notification (stall_type s) (stall_secs_left s).

Lemma filter_alarm_events : forall secs,
  filter is_notification (alarm_events secs) = [].
Proof.
  intros secs. unfold alarm_events.
  destruct (secs mod 15 =? 0)%N; reflexivity.
Qed.

Lemma filter_notification : forall t secs,
  filter is_notification [notification t secs] = [notification t secs].
Proof. intros [] secs; reflexivity. Qed.

Lemma deliver_stalls_messages : forall stalls b,
  filter is_notification (snd (deliver_stalls stalls b))
  = map stall_message (shown_stalls stalls b).
Proof.
  induction stalls as [|s rest IH]; intros b; [reflexivity|].
  cbn [deliver_stalls shown_stalls]. unfold lock_notify.
  destruct (notify_suppressed (stall_type s) (stall_secs_left s)
              (stall_time s) b).
  - specialize (IH b). destruct (deliver_stalls rest b) as [b2 evs2].
    cbn [snd] in *. rewrite filter_app, filter_alarm_events. exact IH.
  - specialize (IH (set_notified (stall_type s) (stall_time s) b)).
    destruct (deliver_stalls rest
                (set_notified (stall_type s) (stall_time s) b)) as [b2 evs2].
    cbn [snd map] in *.
    rewrite !filter_app, filter_alarm_events, filter_notification, IH.
    reflexivity.
Qed.

Lemma shown_stalls_head : forall stalls b s post,
  shown_stalls stalls b = s :: post ->
  notify_suppressed (stall_type s) (stall_secs_left s) (stall_time s) b
  = false.
Proof.
  induction stalls as [|s0 rest IH]; intros b s post Heq; [discriminate|].
  cbn [shown_stalls] in Heq.
  destruct (notify_suppressed (stall_type s0) (stall_secs_left s0)
              (stall_time s0) b) eqn:Hs.
  - exact (IH _ _ _ Heq).
  - injection Heq as Hs0 _. subst s0. exact Hs.
Qed.

Lemma shown_stalls_tail : forall stalls b pre s tail,
  shown_stalls stalls b = pre ++ s :: tail ->
  exists rest b',
    tail = shown_stalls rest (set_notified (stall_type s) (stall_time s) b').
Proof.
  induction stalls as [|s0 rest IH]; intros b pre s tail Heq.
  - destruct pre; discriminate.
  - cbn [shown_stalls] in Heq.
    destruct (notify_suppressed (stall_type s0) (stall_secs_left s0)
                (stall_time s0) b).
    + exact (IH _ _ _ _ Heq).
    + destruct pre as [|p pre'].
      * cbn [app] in Heq. injection Heq as Hs0 Htail. subst s0.
        exists rest, b. symmetry. exact Htail.
      * cbn [app] in Heq. injection Heq as _ Htail.
        exact (IH _ _ _ _ Htail).
Qed.

(** X12: the notifications that one waiting period passes on to the storage
    callbacks are the messages of the stalls that [lock_notify] does not
    suppress, and two consecutive ones of the same kind are at least
    [LOCK_NOTIFY_INTERVAL] seconds apart, the later one with at least 15
    seconds left. *)
Theorem shown_notifications_are_spaced : forall stalls b pre s1 s2 post,
  shown_stalls stalls b = pre ++ s1 :: s2 :: post ->
  stall_type s1 = stall_type s2 ->
  filter is_notification (snd (deliver_stalls stalls b))
  = map stall_message (pre ++ s1 :: s2 :: post)
  /\ stall_time s1 + LOCK_NOTIFY_INTERVAL <= stall_time s2
  /\ (15 <= stall_secs_left s2)%N.
Proof.
  intros stalls b pre s1 s2 post Heq Hty.
  split; [rewrite deliver_stalls_messages, Heq; reflexivity|].
  destruct (shown_stalls_tail _ _ _ _ _ Heq) as (rest & b' & Htail).
  symmetry in Htail. apply shown_stalls_head in Htail.
  unfold notify_suppressed in Htail.
  cbn [set_notified last_notify_type next_lock_notify] in Htail.
  rewrite Hty, notify_type_eqb_refl in Htail.
  apply orb_false_iff in Htail as [Ht Hs].
  apply Z.ltb_ge in Ht. apply N.ltb_ge in Hs. split; assumption.
Qed.

(** A wait of 100 seconds on a locked mailbox, polled every 10 seconds from
    time 1000 on. *)
Definition demo_wait : list stall :=
  map (fun k =>
         {| stall_type := MAIL_LOCK_NOTIFY_MAILBOX_ABORT;
            stall_secs_left := N.of_nat (100 - 10 * k);
            stall_time := 1000 + 10 * Z.of_nat k |})
      (seq 0 10).

Definition demo_fresh_box : index_mailbox :=
  {| box_name := "INBOX"; readonly := false; inconsistent := false;
     lock_type := 0; trans_ctx := None;
     next_lock_notify := 1000 + LOCK_NOTIFY_INTERVAL;
     last_notify_type := None |}.

Lemma demo_wait_shown :
  shown_stalls demo_wait demo_fresh_box
  = [] ++ {| stall_type := MAIL_LOCK_NOTIFY_MAILBOX_ABORT;
             stall_secs_left := 70; stall_time := 1030 |}
       :: {| stall_type := MAIL_LOCK_NOTIFY_MAILBOX_ABORT;
             stall_secs_left := 40; stall_time := 1060 |}
       :: [].
Proof. vm_compute. reflexivity. Defined.

Lemma shown_notifications_are_spaced_witness :
  filter is_notification (snd (deliver_stalls demo_wait demo_fresh_box))
  = [EvNotifyNo "Mailbox is locked, will abort in 70 seconds";
     EvNotifyNo "Mailbox is locked, will abort in 40 seconds"]
  /\ 1030 + LOCK_NOTIFY_INTERVAL <= 1060
  /\ (15 <= 40)%N.
Proof.
  exact (shown_notifications_are_spaced demo_wait demo_fresh_box [] _ _ []
           demo_wait_shown eq_refl).
Defined.

(** ** Lock attempts *)

Section LockAttempts.

Context {W : Type} `{IndexOps W} `{LockEnums}.

(** Whether the lock-notify callback is installed after the calls [evs],
    when it was [installed] before them. *)
Definition callback_installed (evs : list event) (installed : bool) : bool :=
  fold_left (fun b e =>
               match e with
               | EvSetLockNotifyCallback i => i
               | _ => b
               end) evs installed.

Definition is_set_lock (e : event) : bool :=
  match e with
  | EvSetLock _ _ => true
  | _ => false
  end.

Lemma callback_installed_app : forall evs1 evs2 b,
  callback_installed (evs1 ++ evs2) b
  = callback_installed evs2 (callback_installed evs1 b).
Proof. intros. unfold callback_installed. apply fold_left_app. Qed.

Lemma translate_error_quiet : forall e b,
  filter is_notification (snd (translate_error e b)) = []
  /\ filter is_set_lock (snd (translate_error e b)) = []
  /\ (forall i, callback_installed (snd (translate_error e b)) i = i).
Proof. intros [] b; repeat split. Qed.

Lemma translate_error_keeps : forall e b,
  let b' := fst (translate_error e b) in
  lock_type b' = lock_type b /\ box_name b' = box_name b
  /\ readonly b' = readonly b /\ trans_ctx b' = trans_ctx b.
Proof. intros [] b; repeat split. Qed.

Lemma lock_notify_keeps_readonly : forall t secs now b,
  readonly (fst (lock_notify t secs now b)) = readonly b.
Proof.
  intros t secs now b. unfold lock_notify.
  destruct (notify_suppressed t secs now b); reflexivity.
Qed.

Lemma lock_notify_calls : forall t secs now b,
  filter is_set_lock (snd (lock_notify t secs now b)) = []
  /\ (forall i, callback_installed (snd (lock_notify t secs now b)) i = i).
Proof.
  intros t secs now b. unfold lock_notify, alarm_events.
  destruct (notify_suppressed t secs now b); destruct (secs mod 15 =? 0)%N;
    destruct t; repeat split.
Qed.

Lemma deliver_stalls_calls : forall stalls b,
  readonly (fst (deliver_stalls stalls b)) = readonly b
  /\ filter is_set_lock (snd (deliver_stalls stalls b)) = []
  /\ (forall i, callback_installed (snd (deliver_stalls stalls b)) i = i).
Proof.
  induction stalls as [|s rest IH]; intros b; [repeat split|].
  cbn [deliver_stalls].
  pose proof (lock_notify_keeps_readonly (stall_type s) (stall_secs_left s)
                (stall_time s) b) as Hr.
  pose proof (lock_notify_calls (stall_type s) (stall_secs_left s)
                (stall_time s) b) as [Hl Hc].
  destruct (lock_notify (stall_type s) (stall_secs_left s) (stall_time s) b)
    as [b1 evs1].
  destruct (IH b1) as (IHr & IHl & IHc).
  destruct (deliver_stalls rest b1) as [b2 evs2]. cbn [fst snd] in *.
  split; [congruence|]. split.
  - rewrite filter_app, Hl, IHl. reflexivity.
  - intros i. rewrite callback_installed_app, Hc, IHc. reflexivity.
Qed.

(** What one pass through the locking part of [index_storage_lock] does to
    the session. *)
Definition attempt_ok (lock : lock_value) (s s' : session W) : Prop :=
  lock_type (ibox s') = lock_type (ibox s)
  /\ box_name (ibox s') = box_name (ibox s)
  /\ trans_ctx (ibox s') = trans_ctx (ibox s)
  /\ (readonly (ibox s) = true -> readonly (ibox s') = true)
  /\ exists evs,
       trace s' = trace s ++ evs
       /\ callback_installed evs false = false
       /\ (List.length (filter is_set_lock evs) <= 1)%nat
       /\ forall l ok, In (EvSetLock l ok) evs -> l = lock.

Lemma acquire_attempt : forall ret lock now (s : session W),
  attempt_ok lock s (snd (acquire ret lock now s)).
Proof.
  intros ret lock now s. unfold acquire.
  destruct (index_set_lock lock (index (index_storage_init_lock_notify now s)))
    as [[ok stalls] w].
  pose proof (deliver_stalls_keeps_session stalls
                (ibox (index_storage_init_lock_notify now s)))
    as (_ & Hlt & Htc & Hbn).
  pose proof (deliver_stalls_calls stalls
                (ibox (index_storage_init_lock_notify now s)))
    as (Hro & Hsl & Hcb).
  assert (Hin : forall e, In e (snd (deliver_stalls stalls
                   (ibox (index_storage_init_lock_notify now s)))) ->
                 is_set_lock e = false).
  { intros e He. destruct (is_set_lock e) eqn:Hse; [|reflexivity].
    assert (Hf : In e (filter is_set_lock (snd (deliver_stalls stalls
                   (ibox (index_storage_init_lock_notify now s)))))).
    { apply filter_In. split; assumption. }
    rewrite Hsl in Hf. destruct Hf. }
  destruct (deliver_stalls stalls (ibox (index_storage_init_lock_notify now s)))
    as [b evs].
  cbn [fst snd] in *.
  cbn [index_storage_init_lock_notify ibox lock_type box_name trans_ctx
       readonly trace] in *.
  destruct (ret && ok).
  - cbn [snd ibox trace]. unfold attempt_ok. cbn [ibox trace].
    repeat split; try assumption.
    + intros Hr. rewrite Hro, Hr. destruct (index_mailbox_readonly (index s));
        reflexivity.
    + exists ([EvSetLockNotifyCallback true] ++ evs
              ++ [EvSetLock lock ok; EvSetLockNotifyCallback false]).
      rewrite <- !app_assoc. split; [reflexivity|]. split; [|split].
      * rewrite !callback_installed_app. reflexivity.
      * rewrite !filter_app, Hsl. cbn. apply le_n.
      * intros l ok' Hi. cbn [app] in Hi. destruct Hi as [Hi|Hi];
          [discriminate|].
        apply in_app_or in Hi as [Hi|Hi].
        -- apply Hin in Hi. discriminate.
        -- destruct Hi as [Hi|[Hi|[]]]; [|discriminate].
           injection Hi as Hl _. symmetry. exact Hl.
  - unfold mail_storage_set_index_error. cbn [ibox index trace].
    pose proof (translate_error_quiet (index_get_last_error w) b)
      as (_ & Hql & Hqc).
    pose proof (translate_error_keeps (index_get_last_error w) b)
      as (Hk1 & Hk2 & Hk3 & Hk4).
    assert (Hqin : forall e, In e (snd (translate_error
                      (index_get_last_error w) b)) ->
                    is_set_lock e = false).
    { intros e He. destruct (is_set_lock e) eqn:Hse; [|reflexivity].
      assert (Hf : In e (filter is_set_lock (snd (translate_error
                     (index_get_last_error w) b)))).
      { apply filter_In. split; assumption. }
      rewrite Hql in Hf. destruct Hf. }
    destruct (translate_error (index_get_last_error w) b) as [b3 evs3].
    cbn [fst snd ibox trace] in *. unfold attempt_ok. cbn [ibox trace].
    repeat split; try congruence.
    + intros Hr. rewrite Hk3, Hro, Hr.
      destruct (index_mailbox_readonly (index s)); reflexivity.
    + exists ([EvSetLockNotifyCallback true] ++ evs
              ++ [EvSetLock lock ok; EvSetLockNotifyCallback false]
              ++ evs3 ++ [EvResetError]).
      rewrite <- !app_assoc. split; [reflexivity|]. split; [|split].
      * rewrite !callback_installed_app, Hqc. reflexivity.
      * rewrite !filter_app, Hsl, Hql. cbn. apply le_n.
      * intros l ok' Hi. cbn [app] in Hi. destruct Hi as [Hi|Hi];
          [discriminate|].
        apply in_app_or in Hi as [Hi|Hi].
        -- apply Hin in Hi. discriminate.
        -- destruct Hi as [Hi|[Hi|Hi]]; [|discriminate|].
           ++ injection Hi as Hl _. symmetry. exact Hl.
           ++ apply in_app_or in Hi as [Hi|Hi].
              ** apply Hqin in Hi. discriminate.
              ** destruct Hi as [Hi|[]]. discriminate.
Qed.

(** What [index_storage_lock] keeps of the session. *)
Lemma lock_attempt_invariants : forall lock now (s : session W),
  let s' := snd (index_storage_lock lock now s) in
  lock_type (ibox s') = lock_type (ibox s)
  /\ box_name (ibox s') = box_name (ibox s)
  /\ trans_ctx (ibox s')
     = (if lock =? MAIL_LOCK_UNLOCK then None else trans_ctx (ibox s))
  /\ (readonly (ibox s) = true -> readonly (ibox s') = true)
  /\ exists evs,
       trace s' = trace s ++ evs
       /\ callback_installed evs false = false
       /\ (List.length (filter is_set_lock evs) <= 1)%nat
       /\ forall l ok, In (EvSetLock l ok) evs -> l = lock.
Proof.
  intros lock now s. unfold index_storage_lock.
  destruct (lock =? MAIL_LOCK_UNLOCK).
  - assert (Hf : let s1 := snd (finish_transaction s) in
             lock_type (ibox s1) = lock_type (ibox s)
             /\ box_name (ibox s1) = box_name (ibox s)
             /\ trans_ctx (ibox s1) = None
             /\ readonly (ibox s1) = readonly (ibox s)
             /\ exists evs, trace s1 = trace s ++ evs
                  /\ (forall i, callback_installed evs i = i)
                  /\ filter is_set_lock evs = []).
    { unfold finish_transaction. destruct (trans_ctx (ibox s)) as [ctx|] eqn:Hc.
      - destruct (mail_cache_transaction_commit ctx (index s)) as [ok1 w1].
        destruct (mail_cache_transaction_end ctx w1) as [ok2 w2].
        cbn. repeat split. eexists. repeat split.
      - cbn. repeat split; try assumption. exists []. rewrite app_nil_r.
        repeat split. }
    destruct (finish_transaction s) as [ret s1]. cbn [snd] in Hf.
    destruct Hf as (F1 & F2 & F3 & F4 & evs1 & F5 & F6 & F7).
    destruct (negb (lock_type (ibox s1) =? MAILBOX_LOCK_UNLOCK)).
    + cbn [snd]. repeat split; try assumption.
      * congruence.
      * exists evs1. split; [exact F5|]. split; [apply F6|].
        rewrite F7. split; [apply Nat.le_0_l|].
        intros l ok Hi.
        assert (Hx : In (EvSetLock l ok) (filter is_set_lock evs1))
          by (apply filter_In; split; [exact Hi|reflexivity]).
        rewrite F7 in Hx. destruct Hx.
    + destruct (acquire_attempt ret lock now s1)
        as (A1 & A2 & A3 & A4 & evs2 & A5 & A6 & A7 & A8).
      cbn zeta. repeat split; try congruence.
      * intros Hr. apply A4. congruence.
      * exists (evs1 ++ evs2). rewrite A5, F5, app_assoc.
        split; [reflexivity|]. split; [|split].
        -- rewrite callback_installed_app, F6. exact A6.
        -- rewrite filter_app, F7. exact A7.
        -- intros l ok Hi. apply in_app_or in Hi as [Hi|Hi].
           ++ assert (Hx : In (EvSetLock l ok) (filter is_set_lock evs1))
                by (apply filter_In; split; [exact Hi|reflexivity]).
              rewrite F7 in Hx. destruct Hx.
           ++ exact (A8 _ _ Hi).
  - destruct (lock_type (ibox s) =? MAIL_LOCK_EXCLUSIVE).
    + cbn [snd]. do 3 (split; [reflexivity|]). split; [auto|].
      exists []. rewrite app_nil_r.
      repeat split; [apply Nat.le_0_l|intros l ok []].
    + destruct (acquire_attempt true lock now s)
        as (A1 & A2 & A3 & A4 & A5).
      cbn zeta. repeat split; assumption.
Qed.

(** The calls [evs] hold no [index->set_lock] and leave the lock-notify
    callback as it is. *)
Definition quiet (evs : list event) : Prop :=
  filter is_set_lock evs = []
  /\ forall b, callback_installed evs b = b.

Lemma quiet_nil : quiet [].
Proof. split; reflexivity. Qed.

Lemma quiet_app : forall a b, quiet a -> quiet b -> quiet (a ++ b).
Proof.
  intros a b [A1 A2] [B1 B2]. split.
  - rewrite filter_app, A1, B1. reflexivity.
  - intros i. rewrite callback_installed_app, A2, B2. reflexivity.
Qed.

Lemma quiet_deliver_stalls : forall stalls b,
  quiet (snd (deliver_stalls stalls b)).
Proof.
  intros stalls b. destruct (deliver_stalls_calls stalls b) as (_ & Q1 & Q2).
  split; assumption.
Qed.

Lemma quiet_translate_error : forall e b, quiet (snd (translate_error e b)).
Proof.
  intros e b. destruct (translate_error_quiet e b) as (_ & Q1 & Q2).
  split; assumption.
Qed.

(** An error was left on the storage. *)
Definition reports_error (e : event) : bool :=
  match e with
  | EvSetInternalError | EvSetError _ => true
  | _ => false
  end.

Lemma translate_error_reports : forall e b,
  existsb reports_error (snd (translate_error e b)) = true
  \/ inconsistent (fst (translate_error e b)) = true.
Proof. intros [] b; cbn; auto. Qed.

(** The session after the locking part of [index_storage_lock], in full:
    the callback is installed, the stalls are delivered, the lock is
    requested, the callback is uninstalled, and after a failure the index
    error is translated and reset. *)
Lemma acquire_eq : forall ret lock now (s : session W),
  let locked := index_set_lock lock (index s) in
  let waited := deliver_stalls (snd (fst locked))
                  (ibox (index_storage_init_lock_notify now s)) in
  let attempt := trace s ++ EvSetLockNotifyCallback true :: snd waited
                 ++ [EvSetLock lock (fst (fst locked));
                     EvSetLockNotifyCallback false] in
  let e := index_get_last_error (snd locked) in
  acquire ret lock now s
  = if ret && fst (fst locked)
    then (true, {| ibox := fst waited; index := snd locked; trace := attempt |})
    else (false,
          {| ibox := fst (translate_error e (fst waited));
             index := index_reset_error (snd locked);
             trace := attempt ++ snd (translate_error e (fst waited))
                      ++ [EvResetError] |}).
Proof.
  intros ret lock now s. cbv zeta. unfold acquire.
  cbn [index_storage_init_lock_notify index ibox trace].
  destruct (index_set_lock lock (index s)) as [[ok stalls] w].
  cbn [fst snd].
  match goal with
  | |- context [deliver_stalls stalls ?b] =>
      destruct (deliver_stalls stalls b) as [b1 evs1]
  end.
  cbn [fst snd]. destruct (ret && ok).
  - rewrite <- ?app_assoc. cbn [app]. rewrite <- ?app_assoc. reflexivity.
  - unfold mail_storage_set_index_error. cbn [ibox index trace].
    destruct (translate_error (index_get_last_error w) b1) as [b2 evs2].
    cbn [fst snd]. rewrite <- ?app_assoc. cbn [app]. rewrite <- ?app_assoc.
    reflexivity.
Qed.

Lemma finish_transaction_trace : forall s : session W,
  lock_type (ibox (snd (finish_transaction s))) = lock_type (ibox s)
  /\ exists evs,
       trace (snd (finish_transaction s)) = trace s ++ evs /\ quiet evs.
Proof.
  intros s. unfold finish_transaction.
  destruct (trans_ctx (ibox s)) as [ctx|].
  - destruct (mail_cache_transaction_commit ctx (index s)) as [ok1 w1].
    destruct (mail_cache_transaction_end ctx w1) as [ok2 w2].
    cbn. split; [reflexivity|]. eexists. split; [reflexivity|].
    split; reflexivity.
  - cbn. split; [reflexivity|]. exists []. rewrite app_nil_r.
    split; [reflexivity | apply quiet_nil].
Qed.

(** The request returns before the locking part of
    [index_storage_lock]. *)
Definition returns_early (lock : lock_value) (s : session W) : bool :=
  if lock =? MAIL_LOCK_UNLOCK
  then negb (lock_type (ibox s) =? MAILBOX_LOCK_UNLOCK)
  else lock_type (ibox s) =? MAIL_LOCK_EXCLUSIVE.

(** The calls of [index_storage_lock]: none on the lock or the callback
    when it returns early; otherwise the callback is installed, the lock
    is requested once, and the callback is uninstalled right after. *)
Lemma lock_attempt_trace : forall lock now (s : session W),
  exists evs,
    trace (snd (index_storage_lock lock now s)) = trace s ++ evs
    /\ if returns_early lock s then quiet evs
       else exists before waits ok after,
              evs = before ++ EvSetLockNotifyCallback true :: waits
                    ++ EvSetLock lock ok :: EvSetLockNotifyCallback false
                    :: after
              /\ quiet before /\ quiet waits /\ quiet after.
Proof.
  intros lock now s. unfold index_storage_lock, returns_early.
  assert (Hacq : forall ret (s1 : session W),
            exists waits ok after,
              trace (snd (acquire ret lock now s1))
              = trace s1 ++ EvSetLockNotifyCallback true :: waits
                ++ EvSetLock lock ok :: EvSetLockNotifyCallback false :: after
              /\ quiet waits /\ quiet after).
  { intros ret s1. rewrite acquire_eq.
    exists (snd (deliver_stalls (snd (fst (index_set_lock lock (index s1))))
                   (ibox (index_storage_init_lock_notify now s1)))),
      (fst (fst (index_set_lock lock (index s1)))).
    destruct (ret && fst (fst (index_set_lock lock (index s1)))).
    - exists []. cbn [snd trace]. split; [reflexivity|].
      split; [apply quiet_deliver_stalls | apply quiet_nil].
    - eexists. cbn [snd trace]. split.
      + rewrite <- !app_assoc. cbn [app]. rewrite <- ?app_assoc. reflexivity.
      + split; [apply quiet_deliver_stalls|].
        apply quiet_app; [apply quiet_translate_error|].
        split; reflexivity. }
  destruct (lock =? MAIL_LOCK_UNLOCK).
  - destruct (finish_transaction_trace s) as (Hlt & evs1 & E1 & Q1).
    destruct (finish_transaction s) as [ret s1]. cbn [snd] in *.
    rewrite Hlt.
    destruct (negb (lock_type (ibox s) =? MAILBOX_LOCK_UNLOCK)).
    + exists evs1. cbn [snd]. split; assumption.
    + destruct (Hacq ret s1) as (waits & ok & after & E2 & Q2 & Q3).
      exists (evs1 ++ EvSetLockNotifyCallback true :: waits
              ++ EvSetLock lock ok :: EvSetLockNotifyCallback false :: after).
      split; [rewrite E2, E1, <- app_assoc; reflexivity|].
      exists evs1, waits, ok, after.
      split; [reflexivity|]. split; [exact Q1|]. split; assumption.
  - destruct (lock_type (ibox s) =? MAIL_LOCK_EXCLUSIVE).
    + exists []. cbn [snd]. rewrite app_nil_r.
      split; [reflexivity | apply quiet_nil].
    + destruct (Hacq true s) as (waits & ok & after & E2 & Q2 & Q3).
      exists (EvSetLockNotifyCallback true :: waits
              ++ EvSetLock lock ok :: EvSetLockNotifyCallback false :: after).
      split; [exact E2|].
      exists [], waits, ok, after.
      split; [reflexivity|]. split; [apply quiet_nil|]. split; assumption.
Qed.

(** X13: [index_storage_lock] never changes the session's lock type or
    mailbox name, never clears its read-only mark, and clears the open
    cache transaction exactly when the request is an unlock.  It calls
    [index->set_lock] at most once, only with the requested lock type.
    When it returns early (an unlock while the session's lock type is not
    unlocked, or another request while it is exclusive) it makes no call on
    the lock or the lock-notify callback, so a callback that was installed
    stays installed.  Otherwise it installs the callback, requests the
    lock once while the callback is installed, uninstalls it right after,
    and leaves it uninstalled. *)
Theorem lock_attempt_keeps_session : forall lock now (s : session W),
  let s' := snd (index_storage_lock lock now s) in
  lock_type (ibox s') = lock_type (ibox s)
  /\ box_name (ibox s') = box_name (ibox s)
  /\ trans_ctx (ibox s')
     = (if lock =? MAIL_LOCK_UNLOCK then None else trans_ctx (ibox s))
  /\ (readonly (ibox s) = true -> readonly (ibox s') = true)
  /\ exists evs,
       trace s' = trace s ++ evs
       /\ (List.length (filter is_set_lock evs) <= 1)%nat
       /\ (forall l ok, In (EvSetLock l ok) evs -> l = lock)
       /\ (forall installed,
             callback_installed evs installed
             = if returns_early lock s then installed else false)
       /\ if returns_early lock s then filter is_set_lock evs = []
          else exists before waits ok after,
                 evs = before ++ EvSetLockNotifyCallback true :: waits
                       ++ EvSetLock lock ok :: EvSetLockNotifyCallback false
                       :: after
                 /\ quiet before /\ quiet waits /\ quiet after.
Proof.
  intros lock now s. cbv zeta.
  destruct (lock_attempt_invariants lock now s)
    as (P1 & P2 & P3 & P4 & evs & E & _ & P6 & P7).
  destruct (lock_attempt_trace lock now s) as (evs' & E' & Hshape).
  rewrite E in E'. apply app_inv_head in E'. subst evs'.
  repeat (split; [assumption|]).
  exists evs. split; [exact E|]. split; [exact P6|]. split; [exact P7|].
  destruct (returns_early lock s).
  - destruct Hshape as [Q1 Q2]. split; assumption.
  - split; [|exact Hshape].
    destruct Hshape as (before & waits & ok & after & -> & Qb & Qw & Qa).
    intros installed.
    rewrite callback_installed_app. cbn [callback_installed fold_left].
    change (fold_left _ (waits ++ EvSetLock lock ok
                         :: EvSetLockNotifyCallback false :: after) true)
      with (callback_installed (waits ++ EvSetLock lock ok
                                :: EvSetLockNotifyCallback false :: after) true).
    rewrite callback_installed_app. cbn [callback_installed fold_left].
    apply (proj2 Qa).
Qed.

(** X14: a request other than an unlock, on a session that does not hold
    the exclusive lock, returns what [index->set_lock] returned for it.
    Its calls are: the callback installed, the calls of the stalls
    reported while waiting, the lock request, the callback uninstalled.
    After a failure these are followed by the translation of the index's
    last error for the storage (the calls of the [switch] of
    [mail_storage_set_index_error] for the error the index reports after
    the failed request) and then by the reset of the index error as the
    last call; the failure is reported, as an error on the storage or as
    the inconsistency mark of the session, and the index is left with its
    error reset. *)
Theorem lock_result_is_set_lock_result : forall lock now (s : session W),
  (lock =? MAIL_LOCK_UNLOCK) = false ->
  (lock_type (ibox s) =? MAIL_LOCK_EXCLUSIVE) = false ->
  let r := index_storage_lock lock now s in
  let locked := index_set_lock lock (index s) in
  let waited := deliver_stalls (snd (fst locked))
                  (ibox (index_storage_init_lock_notify now s)) in
  let attempt := trace s ++ EvSetLockNotifyCallback true :: snd waited
                 ++ [EvSetLock lock (fst (fst locked));
                     EvSetLockNotifyCallback false] in
  let translated := translate_error (index_get_last_error (snd locked))
                      (fst waited) in
  fst r = fst (fst locked)
  /\ (fst r = true ->
      index (snd r) = snd locked
      /\ trace (snd r) = attempt
      /\ ibox (snd r) = fst waited)
  /\ (fst r = false ->
      index (snd r) = index_reset_error (snd locked)
      /\ trace (snd r) = attempt ++ snd translated ++ [EvResetError]
      /\ ibox (snd r) = fst translated
      /\ (existsb reports_error (snd translated) = true
          \/ inconsistent (ibox (snd r)) = true)).
Proof.
  intros lock now s Hl Hx. cbv zeta. unfold index_storage_lock.
  rewrite Hl, Hx, acquire_eq. cbn [andb].
  destruct (fst (fst (index_set_lock lock (index s)))); cbn [fst snd ibox index trace].
  - split; [reflexivity|]. split; [|discriminate].
    intros _. repeat split.
  - split; [reflexivity|]. split; [discriminate|].
    intros _. repeat split. apply translate_error_reports.
Qed.

Lemma deliver_stalls_quiet : forall stalls b start,
  last_notify_type b = None ->
  next_lock_notify b = start ->
  Forall (fun st => stall_type st <> MAIL_LOCK_NOTIFY_MAILBOX_OVERRIDE
                    /\ stall_time st < start) stalls ->
  filter is_notification (snd (deliver_stalls stalls b)) = [].
Proof.
  intros stalls b start Hlast Hnext Hq.
  rewrite deliver_stalls_messages.
  induction Hq as [|st rest [Hty Htime] _ IH]; [reflexivity|].
  cbn [shown_stalls]. unfold notify_suppressed. rewrite Hlast, Hnext.
  apply Z.ltb_lt in Htime. rewrite Htime.
  destruct (stall_type st); try exact IH. contradiction Hty. reflexivity.
Qed.

(** X15: a lock attempt that starts at time [now] shows no notification
    for stalls reported before [now + LOCK_NOTIFY_INTERVAL], unless one of
    them announces the override of a stale lock file. *)
Theorem lock_attempt_quiet_period : forall lock now (s : session W),
  (lock =? MAIL_LOCK_UNLOCK) = false ->
  (lock_type (ibox s) =? MAIL_LOCK_EXCLUSIVE) = false ->
  Forall (fun st => stall_type st <> MAIL_LOCK_NOTIFY_MAILBOX_OVERRIDE
                    /\ stall_time st < now + LOCK_NOTIFY_INTERVAL)
    (snd (fst (index_set_lock lock (index s)))) ->
  filter is_notification (trace (snd (index_storage_lock lock now s)))
  = filter is_notification (trace s).
Proof.
  intros lock now s Hl Hx Hq. unfold index_storage_lock. rewrite Hl, Hx.
  unfold acquire. cbn [index_storage_init_lock_notify index ibox trace].
  destruct (index_set_lock lock (index s)) as [[ok stalls] w].
  cbn [fst snd] in Hq.
  match goal with
  | |- context [deliver_stalls stalls ?b] =>
      pose proof (deliver_stalls_quiet stalls b _ eq_refl eq_refl Hq) as Hd;
      destruct (deliver_stalls stalls b) as [b1 evs1]
  end.
  cbn [snd] in Hd. cbn [andb]. destruct ok.
  - cbn [snd trace]. rewrite !filter_app, Hd. cbn.
    rewrite !app_nil_r. reflexivity.
  - unfold mail_storage_set_index_error. cbn [ibox index trace].
    pose proof (translate_error_quiet (index_get_last_error w) b1)
      as (Hqn & _).
    destruct (translate_error (index_get_last_error w) b1) as [b2 evs2].
    cbn [snd trace] in *. rewrite !filter_app, Hd, Hqn. cbn.
    rewrite !app_nil_r. reflexivity.
Qed.

(** X16: when the first stall of a lock attempt announces the override of
    a stale lock file, the announcement is passed on at once, whatever the
    time and the seconds left. *)
Theorem first_override_is_announced : forall lock now (s : session W) st rest,
  (lock =? MAIL_LOCK_UNLOCK) = false ->
  (lock_type (ibox s) =? MAIL_LOCK_EXCLUSIVE) = false ->
  snd (fst (index_set_lock lock (index s))) = st :: rest ->
  stall_type st = MAIL_LOCK_NOTIFY_MAILBOX_OVERRIDE ->
  exists before after,
    trace (snd (index_storage_lock lock now s))
    = trace s ++ EvSetLockNotifyCallback true :: before
      ++ EvNotifyOk ("Stale mailbox lock file detected, will override in "
                     ++ dec (stall_secs_left st) ++ " seconds") :: after
    /\ filter is_notification before = [].
Proof.
  intros lock now s st rest Hl Hx Hst Hty.
  unfold index_storage_lock. rewrite Hl, Hx.
  unfold acquire. cbn [index_storage_init_lock_notify index ibox trace].
  destruct (index_set_lock lock (index s)) as [[ok stalls] w].
  cbn [fst snd] in Hst. subst stalls.
  cbn [deliver_stalls]. unfold lock_notify at 1, notify_suppressed at 1.
  cbn [last_notify_type]. rewrite Hty.
  match goal with
  | |- context [deliver_stalls rest ?b] =>
      destruct (deliver_stalls rest b) as [b1 evs1]
  end.
  cbn [notification andb].
  exists (alarm_events (stall_secs_left st)).
  destruct ok.
  - cbn [snd trace]. eexists. split; [|apply filter_alarm_events].
    rewrite <- !app_assoc. cbn [app]. rewrite <- ?app_assoc. reflexivity.
  - unfold mail_storage_set_index_error. cbn [ibox index trace].
    destruct (translate_error (index_get_last_error w) b1) as [b2 evs2].
    cbn [snd trace]. eexists. split; [|apply filter_alarm_events].
    rewrite <- !app_assoc. cbn [app]. rewrite <- ?app_assoc. reflexivity.
Qed.

End LockAttempts.

(** ** A concrete index *)

(** An index whose calls return fixed results. *)
Record toy_index : Type :=
  { toy_commit_ok : bool; toy_end_ok : bool; toy_lock_ok : bool;
    toy_error : mail_index_error }.

#[local] Instance toy_index_ops : IndexOps toy_index :=
  {| index_set_lock := fun _ w => (toy_lock_ok w, [], w);
     index_get_last_error := toy_error;
     index_reset_error := fun w =>
       {| toy_commit_ok := toy_commit_ok w; toy_end_ok := toy_end_ok w;
          toy_lock_ok := toy_lock_ok w; toy_error := MAIL_INDEX_ERROR_NONE |};
     index_mailbox_readonly := fun _ => false;
     mail_cache_transaction_commit := fun _ w => (toy_commit_ok w, w);
     mail_cache_transaction_end := fun _ w => (toy_end_ok w, w) |}.

#[local] Instance c_lock_enums : LockEnums :=
  {| MAIL_LOCK_UNLOCK := 0; MAIL_LOCK_SHARED := 1; MAIL_LOCK_EXCLUSIVE := 2;
     MAILBOX_LOCK_UNLOCK := 0 |}.

Definition toy_session (lock : lock_value) (ctx : option trans_ctx_ptr)
  (w : toy_index) : session toy_index :=
  {| ibox := {| box_name := "INBOX"; readonly := false; inconsistent := false;
                lock_type := lock; trans_ctx := ctx;
                next_lock_notify := 0; last_notify_type := None |};
     index := w; trace := [] |}.

Definition failing_commit : toy_index :=
  {| toy_commit_ok := false; toy_end_ok := true; toy_lock_ok := true;
     toy_error := MAIL_INDEX_ERROR_INTERNAL |}.

Lemma exclusive_lock_is_kept_witness :
  index_storage_lock MAIL_LOCK_SHARED 5
    (toy_session MAIL_LOCK_EXCLUSIVE None failing_commit)
  = (true, toy_session MAIL_LOCK_EXCLUSIVE None failing_commit).
Proof.
  apply (exclusive_lock_is_kept MAIL_LOCK_SHARED 5
           (toy_session MAIL_LOCK_EXCLUSIVE None failing_commit)).
  - reflexivity.
  - discriminate.
Defined.

(** C6 (the code at the failing input): a session whose lock type is Shared
    has an open cache transaction whose commit fails.  The unlock calls
    commit and end, and returns success although the commit failed. *)
Lemma unlock_drops_commit_failure :
  index_storage_lock MAIL_LOCK_UNLOCK 5
    (toy_session MAIL_LOCK_SHARED (Some 7) failing_commit)
  = (true,
     {| ibox := ibox (toy_session MAIL_LOCK_SHARED None failing_commit);
        index := failing_commit;
        trace := [EvCommit 7 false; EvEnd 7 true] |}).
Proof. reflexivity. Qed.

Lemma unlock_attempts_commit_and_end_witness :
  exists rest,
    trace (snd (index_storage_lock MAIL_LOCK_UNLOCK 5
                  (toy_session MAIL_LOCK_SHARED (Some 7) failing_commit)))
    = [] ++ [EvCommit 7 false; EvEnd 7 true] ++ rest
    /\ trans_ctx (ibox (snd (index_storage_lock MAIL_LOCK_UNLOCK 5
                               (toy_session MAIL_LOCK_SHARED (Some 7)
                                  failing_commit)))) = None.
Proof.
  exact (unlock_attempts_commit_and_end 5
           (toy_session MAIL_LOCK_SHARED (Some 7) failing_commit) 7 eq_refl).
Defined.

Lemma unlock_result_is_conjunction_witness :
  fst (index_storage_lock MAIL_LOCK_UNLOCK 5
         (toy_session MAILBOX_LOCK_UNLOCK (Some 7) failing_commit))
  = false && true && true.
Proof.
  exact (unlock_result_is_conjunction 5
           (toy_session MAILBOX_LOCK_UNLOCK (Some 7) failing_commit) 7
           eq_refl eq_refl).
Defined.

(** The same unlock from a session whose lock type is unlocked reports the
    failed commit. *)
Example unlock_reports_commit_failure :
  fst (index_storage_lock MAIL_LOCK_UNLOCK 5
         (toy_session MAILBOX_LOCK_UNLOCK (Some 7) failing_commit)) = false.
Proof. reflexivity. Qed.

(** An index that reports the stalls [waits] while its lock is requested
    and then answers [wait_ok]. *)
Record waiting_index : Type :=
  { waits : list stall; wait_ok : bool }.

#[local] Instance waiting_index_ops : IndexOps waiting_index :=
  {| index_set_lock := fun _ w =>
       (wait_ok w, waits w, {| waits := []; wait_ok := wait_ok w |});
     index_get_last_error := fun _ => MAIL_INDEX_ERROR_MAILBOX_LOCK_TIMEOUT;
     index_reset_error := fun w => w;
     index_mailbox_readonly := fun _ => false;
     mail_cache_transaction_commit := fun _ w => (true, w);
     mail_cache_transaction_end := fun _ w => (true, w) |}.

Definition waiting_session (w : waiting_index) : session waiting_index :=
  {| ibox := {| box_name := "INBOX"; readonly := false; inconsistent := false;
                lock_type := MAILBOX_LOCK_UNLOCK; trans_ctx := None;
                next_lock_notify := 0; last_notify_type := None |};
     index := w; trace := [] |}.

(** The wait of [demo_wait], ending in a timeout. *)
Definition timed_out : waiting_index :=
  {| waits := demo_wait; wait_ok := false |}.

(** A lock obtained after three polls within the first 30 seconds. *)
Definition short_wait : waiting_index :=
  {| waits := firstn 3 demo_wait; wait_ok := true |}.

(** A stale lock file found at once, with 7 seconds left. *)
Definition stale_lock : waiting_index :=
  {| waits := [{| stall_type := MAIL_LOCK_NOTIFY_MAILBOX_OVERRIDE;
                  stall_secs_left := 7; stall_time := 1001 |}];
     wait_ok := true |}.

Lemma lock_result_is_set_lock_result_witness :
  let s := waiting_session timed_out in
  let r := index_storage_lock MAIL_LOCK_SHARED 1000 s in
  let locked := index_set_lock MAIL_LOCK_SHARED (index s) in
  let waited := deliver_stalls (snd (fst locked))
                  (ibox (index_storage_init_lock_notify 1000 s)) in
  let attempt := trace s ++ EvSetLockNotifyCallback true :: snd waited
                 ++ [EvSetLock MAIL_LOCK_SHARED (fst (fst locked));
                     EvSetLockNotifyCallback false] in
  let translated := translate_error (index_get_last_error (snd locked))
                      (fst waited) in
  fst r = fst (fst locked)
  /\ (fst r = true ->
      index (snd r) = snd locked
      /\ trace (snd r) = attempt
      /\ ibox (snd r) = fst waited)
  /\ (fst r = false ->
      index (snd r) = index_reset_error (snd locked)
      /\ trace (snd r) = attempt ++ snd translated ++ [EvResetError]
      /\ ibox (snd r) = fst translated
      /\ (existsb reports_error (snd translated) = true
          \/ inconsistent (ibox (snd r)) = true)).
Proof.
  exact (lock_result_is_set_lock_result MAIL_LOCK_SHARED 1000
           (waiting_session timed_out) eq_refl eq_refl).
Defined.

(** The calls of the failed request of the witness: two notifications are
    shown during the wait, and the timeout is left on the storage. *)
Example timed_out_lock_calls :
  index_storage_lock MAIL_LOCK_SHARED 1000 (waiting_session timed_out)
  = (false,
     {| ibox := set_notified MAIL_LOCK_NOTIFY_MAILBOX_ABORT 1060
                  (ibox (waiting_session timed_out));
        index := {| waits := []; wait_ok := false |};
        trace :=
          [ EvSetLockNotifyCallback true;
            EvAlarm 10; EvAlarm 5; EvAlarm 10;
            EvNotifyNo "Mailbox is locked, will abort in 70 seconds";
            EvAlarm 5; EvAlarm 10;
            EvNotifyNo "Mailbox is locked, will abort in 40 seconds";
            EvAlarm 5; EvAlarm 10;
            EvSetLock MAIL_LOCK_SHARED false;
            EvSetLockNotifyCallback false;
            EvSetError "Timeout while waiting for lock to mailbox INBOX";
            EvResetError ] |}).
Proof. vm_compute. reflexivity. Qed.

Lemma short_wait_quiet :
  Forall (fun st => stall_type st <> MAIL_LOCK_NOTIFY_MAILBOX_OVERRIDE
                    /\ stall_time st < 1000 + LOCK_NOTIFY_INTERVAL)
    (firstn 3 demo_wait).
Proof.
  repeat (constructor; [split; [discriminate | reflexivity]|]). constructor.
Defined.

Lemma lock_attempt_quiet_period_witness :
  filter is_notification
    (trace (snd (index_storage_lock MAIL_LOCK_SHARED 1000
                   (waiting_session short_wait))))
  = [].
Proof.
  exact (lock_attempt_quiet_period MAIL_LOCK_SHARED 1000
           (waiting_session short_wait) eq_refl eq_refl short_wait_quiet).
Defined.

Lemma first_override_is_announced_witness :
  exists before after,
    trace (snd (index_storage_lock MAIL_LOCK_EXCLUSIVE 1000
                  (waiting_session stale_lock)))
    = [] ++ EvSetLockNotifyCallback true :: before
      ++ EvNotifyOk ("Stale mailbox lock file detected, will override in "
                     ++ dec 7 ++ " seconds") :: after
    /\ filter is_notification before = [].
Proof.
  exact (first_override_is_announced MAIL_LOCK_EXCLUSIVE 1000
           (waiting_session stale_lock) _ [] eq_refl eq_refl eq_refl eq_refl).
Defined.

End Lock.

(* ================================================================== *)
(** * The FETCH response engine (imap-fetch.c) *)
(* ================================================================== *)

Module Fetch.

Local Open Scope string_scope.
Local Open Scope list_scope.
Local Open Scope Z_scope.

(** ** C strings *)

Definition CRLF : string :=
  String (ascii_of_nat 13) (String (ascii_of_nat 10) EmptyString).

Definition DQUOTE : string := String (ascii_of_nat 34) EmptyString.

(** [s + n] on a C string of length at least [n]. *)
Fixpoint skip (n : nat) (s : string) : string :=
  match n, s with
  | O, _ => s
  | S n', String _ rest => skip n' rest
  | S _, EmptyString => EmptyString
  end.

(** [strncmp(s, lit, strlen(lit)) == 0]: [lit] is a prefix of [s]. *)
Definition starts_with (lit s : string) : bool := String.prefix lit s.

(** [strchr(separators, c) != NULL] *)
Definition is_separator (separators : string) (c : ascii) : bool :=
  existsb (Ascii.eqb c) (list_ascii_of_string separators).

(** Modelled from the spec: [t_strsplit] (lib/strfuncs.c) is not among the
    sources.  The spec has the field list "split on spaces/parens": the
    string is cut at every separator character, so two separators in a row
    or one at either end give an empty element. *)
Fixpoint t_strsplit (data : string) (separators : string) : list string :=
  match data with
  | EmptyString => [EmptyString]
  | String c rest =>
      if is_separator separators c
      then EmptyString :: t_strsplit rest separators
      else match t_strsplit rest separators with
           | [] => [String c EmptyString]
           | w :: ws => String c w :: ws
           end
  end.

(** The leading [while] loop of [imap_fetch_get_body_fields]: skip the
    spaces at the start of [fields]. *)
Fixpoint skip_spaces (fields : string) : string :=
  match fields with
  | String c rest => if Ascii.eqb c " " then skip_spaces rest else fields
  | EmptyString => fields
  end.

(** Skip one opening parenthesis at the start of [fields]. *)
Definition skip_paren (fields : string) : string :=
  match fields with
  | String c rest => if Ascii.eqb c "(" then rest else fields
  | EmptyString => fields
  end.

(** The [for] loop of [imap_fetch_get_body_fields]: stop at a [")"]
    element, drop empty elements. *)
Fixpoint collect_fields (field_list : list string) : list string :=
  match field_list with
  | [] => []
  | field :: rest =>
      if String.eqb field ")" then []
      else if String.eqb field "" then collect_fields rest
      else field :: collect_fields rest
  end.

(** [imap_fetch_get_body_fields] *)
Definition imap_fetch_get_body_fields (fields : string) : list string :=
  collect_fields (t_strsplit (skip_paren (skip_spaces fields)) " )").

(** ** Data *)

(** The fields of [struct mail] read directly. *)
Record mail : Type := { seq : N; uid : N; has_no_nuls : bool }.

(** [struct mail_full_flags] *)
Record mail_full_flags : Type := { flags : Z; custom_flags : list string }.

(** [struct message_size] *)
Record message_size : Type :=
  { physical_size : N; virtual_size : N; lines : N }.

(** A [struct istream *]. *)
Definition istream : Type := Z.

(** [struct imap_fetch_body_data] (the list is its [next] chain). *)
Record imap_fetch_body_data : Type := { section : string; peek : bool }.

(** [(uoff_t)-1] for a 64-bit [uoff_t]. *)
Definition UOFF_T_MAX : N := (2 ^ 64 - 1)%N.

(** Modelled from the spec: [message_size_add] (lib-mail/message-size.c) is
    not among the sources.  The spec has the full message's literal length
    as "header-size + body-size"; each field of the first size grows by the
    field of the second, in [uoff_t] arithmetic. *)
Definition message_size_add (dest src : message_size) : message_size :=
  {| physical_size := ((physical_size dest + physical_size src) mod 2 ^ 64)%N;
     virtual_size := ((virtual_size dest + virtual_size src) mod 2 ^ 64)%N;
     lines := ((lines dest + lines src) mod 2 ^ 64)%N |}.

(** The enumeration constants of [mail-storage.h] and [imap-fetch.h] that
    the engine uses; the headers are not among the sources, so their values
    are parameters. *)
Class FetchEnums : Type :=
  { MAIL_FETCH_FLAGS : Z;
    MAIL_FETCH_RECEIVED_DATE : Z;
    MAIL_FETCH_SIZE : Z;
    MAIL_FETCH_IMAP_BODY : Z;
    MAIL_FETCH_IMAP_BODYSTRUCTURE : Z;
    MAIL_FETCH_IMAP_ENVELOPE : Z;
    IMAP_FETCH_UID : Z;
    IMAP_FETCH_RFC822 : Z;
    IMAP_FETCH_RFC822_HEADER : Z;
    IMAP_FETCH_RFC822_TEXT : Z;
    MAIL_SEEN : Z;
    MODIFY_ADD : Z;
    MAILBOX_LOCK_UNLOCK : Z;
    MAILBOX_LOCK_READ : Z;
    MAILBOX_LOCK_FLAGS : Z }.

(** The calls made on the mailbox, the mails and the output stream, each
    with what it returned, in call order. *)
Inductive call_event : Type :=
| CLock (lock_flags : Z) (ok : bool)
| CFetchInit (fetch_data : Z) (wanted_headers : option (list string))
    (messageset : string) (uidset : bool) (ok : bool)
| CFetchDeinit (ok : bool) (all_found : Z)
| CGetFlags (m : mail) (r : option mail_full_flags)
| CUpdateFlags (m : mail) (f : mail_full_flags) (modify : Z) (ok : bool)
| CGetReceivedDate (m : mail) (t : Z)
| CGetSize (m : mail) (size : N)
| CGetSpecial (m : mail) (field : Z) (r : option string)
| CGetStream (m : mail) (want_body : bool)
    (r : option (istream * message_size * message_size))
| CSend (data : string) (ok : bool)
| CSeek (stream : istream) (offset : N)
| CMessageSend (stream : istream) (size : message_size) (fix_nuls : bool)
    (ok : bool)
| CBodySection (body : imap_fetch_body_data) (m : mail) (ok : bool).

(** The collaborators of the engine, over a state [W] of everything
    outside it.  A result [bool] is the C truth value of the call (for the
    stream functions: the result is not negative). *)
Class MailboxOps (W : Type) : Type :=
  { (* struct mailbox *)
    box_is_readonly : W -> bool;
    box_lock : Z -> W -> bool * W;
    (* fetch_init: the mails fetch_next returns, in order, until NULL *)
    box_fetch_init :
      Z -> option (list string) -> string -> bool -> W -> option (list mail) * W;
    box_fetch_deinit : W -> bool * Z * W;
    (* struct mail *)
    mail_get_flags : mail -> W -> option mail_full_flags * W;
    mail_update_flags : mail -> mail_full_flags -> Z -> W -> bool * W;
    mail_get_received_date : mail -> W -> Z * W;
    mail_get_size : mail -> W -> N * W;
    mail_get_special : mail -> Z -> W -> option string * W;
    mail_get_stream :
      mail -> bool -> W -> option (istream * message_size * message_size) * W;
    (* streams *)
    o_stream_send : string -> W -> bool * W;
    i_stream_seek : istream -> N -> W -> W;
    message_send : istream -> message_size -> bool -> W -> bool * W;
    (* imap-fetch-body-section.c; reads and writes ctx->first *)
    imap_fetch_body_section :
      imap_fetch_body_data -> mail -> bool -> W -> bool * bool * W;
    (* formatting *)
    imap_write_flags : mail_full_flags -> string;
    imap_to_datetime : Z -> string }.

Section Engine.

Context {W : Type} `{MailboxOps W} `{FetchEnums}.

(** The state a FETCH runs in: the collaborators, the calls made so far,
    and the two fields of [struct imap_fetch_context] written while a
    message is processed ([str] and [first]). *)
Record fetch_state : Type :=
  { world : W; calls : list call_event; str : string; first : bool }.

(** The request fields of [struct imap_fetch_context]. *)
Record imap_fetch_context : Type :=
  { fetch_data : Z;
    imap_data : Z;
    bodies : list imap_fetch_body_data;
    update_seen : bool;
    seen_flag : mail_full_flags }.

(** *** A state monad over [fetch_state] *)

Definition M (A : Type) : Type := fetch_state -> A * fetch_state.

Definition ret {A : Type} (a : A) : M A := fun s => (a, s).

Definition bind {A B : Type} (m : M A) (f : A -> M B) : M B :=
  fun s => f (fst (m s)) (snd (m s)).

Notation "x <- m ;; k" := (bind m (fun x => k))
  (at level 100, m at next level, right associativity).
Notation "m ;;; k" := (bind m (fun _ => k))
  (at level 100, right associativity).

(** A call on a collaborator, recorded with its result. *)
Definition call {A : Type} (op : W -> A * W) (ev : A -> call_event) : M A :=
  fun s =>
    (fst (op (world s)),
     {| world := snd (op (world s));
        calls := calls s ++ [ev (fst (op (world s)))];
        str := str s; first := first s |}).

Definition get_str : M string := fun s => (str s, s).

Definition set_str (t : string) : M unit :=
  fun s => (tt, {| world := world s; calls := calls s; str := t;
                   first := first s |}).

(** [str_printfa(ctx->str, ...)] with the formatted text [t]. *)
Definition str_printfa (t : string) : M unit :=
  fun s => (tt, {| world := world s; calls := calls s; str := str s ++ t;
                   first := first s |}).

Definition get_first : M bool := fun s => (first s, s).

Definition set_first (b : bool) : M unit :=
  fun s => (tt, {| world := world s; calls := calls s; str := str s;
                   first := b |}).

(** Steps of the [do { ... } while (0)] block: a failed step [break]s. *)
Definition and_then (a b : M bool) : M bool :=
  ok <- a ;; if ok then b else ret false.

Definition when (c : bool) (a : M bool) : M bool := if c then a else ret true.

(** [mask & bit] as a C condition. *)
Definition has_bit (mask bit : Z) : bool := negb (Z.land mask bit =? 0).

(** *** The token getters *)

(** [fetch_uid] *)
Definition fetch_uid (m : mail) : M bool :=
  str_printfa ("UID " ++ dec (uid m) ++ " ") ;;; ret true.

(** [fetch_flags]; [flags = None] is the C argument [NULL]. *)
Definition fetch_flags (m : mail) (flags : option mail_full_flags) : M bool :=
  f <- match flags with
       | Some f => ret (Some f)
       | None => call (mail_get_flags m) (CGetFlags m)
       end ;;
  match f with
  | None => ret false
  | Some f => str_printfa ("FLAGS (" ++ imap_write_flags f ++ ") ") ;;; ret true
  end.

(** [fetch_internaldate] *)
Definition fetch_internaldate (m : mail) : M bool :=
  time <- call (mail_get_received_date m) (CGetReceivedDate m) ;;
  if time =? -1 then ret false
  else str_printfa ("INTERNALDATE " ++ DQUOTE ++ imap_to_datetime time
                    ++ DQUOTE ++ " ") ;;; ret true.

(** [fetch_rfc822_size] *)
Definition fetch_rfc822_size (m : mail) : M bool :=
  size <- call (mail_get_size m) (CGetSize m) ;;
  if (size =? UOFF_T_MAX)%N then ret false
  else str_printfa ("RFC822.SIZE " ++ dec size ++ " ") ;;; ret true.

(** [fetch_body], [fetch_bodystructure] and [fetch_envelope]: the same
    code for three fields and names. *)
Definition fetch_special (name : string) (field : Z) (m : mail) : M bool :=
  r <- call (mail_get_special m field) (CGetSpecial m field) ;;
  match r with
  | None => ret false
  | Some text => str_printfa (name ++ " (" ++ text ++ ") ") ;;; ret true
  end.

Definition fetch_body (m : mail) : M bool :=
  fetch_special "BODY" MAIL_FETCH_IMAP_BODY m.

Definition fetch_bodystructure (m : mail) : M bool :=
  fetch_special "BODYSTRUCTURE" MAIL_FETCH_IMAP_BODYSTRUCTURE m.

Definition fetch_envelope (m : mail) : M bool :=
  fetch_special "ENVELOPE" MAIL_FETCH_IMAP_ENVELOPE m.

(** *** Literals *)

(** [if (ctx->first) { str++; ctx->first = FALSE; }] followed by
    [o_stream_send_str(ctx->output, str)]. *)
Definition send_literal_prefix (text : string) : M bool :=
  f <- get_first ;;
  (if f then set_first false else ret tt) ;;;
  call (o_stream_send (if f then skip 1 text else text))
       (CSend (if f then skip 1 text else text)).

(** [fetch_send_rfc822] *)
Definition fetch_send_rfc822 (m : mail) : M bool :=
  r <- call (mail_get_stream m true) (CGetStream m true) ;;
  match r with
  | None => ret false
  | Some (stream, hdr_size, body_size) =>
      let body_size := message_size_add body_size hdr_size in
      and_then
        (send_literal_prefix
           (" RFC822 {" ++ dec (virtual_size body_size) ++ "}" ++ CRLF))
        (call (message_send stream body_size (negb (has_no_nuls m)))
              (CMessageSend stream body_size (negb (has_no_nuls m))))
  end.

(** [fetch_send_rfc822_header] *)
Definition fetch_send_rfc822_header (m : mail) : M bool :=
  r <- call (mail_get_stream m false) (CGetStream m false) ;;
  match r with
  | None => ret false
  | Some (stream, hdr_size, _) =>
      and_then
        (send_literal_prefix
           (" RFC822.HEADER {" ++ dec (virtual_size hdr_size) ++ "}" ++ CRLF))
        (call (message_send stream hdr_size (negb (has_no_nuls m)))
              (CMessageSend stream hdr_size (negb (has_no_nuls m))))
  end.

(** [fetch_send_rfc822_text] *)
Definition fetch_send_rfc822_text (m : mail) : M bool :=
  r <- call (mail_get_stream m true) (CGetStream m true) ;;
  match r with
  | None => ret false
  | Some (stream, hdr_size, body_size) =>
      and_then
        (send_literal_prefix
           (" RFC822.TEXT {" ++ dec (virtual_size body_size) ++ "}" ++ CRLF))
        (call (fun w => (tt, i_stream_seek stream (physical_size hdr_size) w))
              (fun _ => CSeek stream (physical_size hdr_size)) ;;;
         call (message_send stream body_size (negb (has_no_nuls m)))
              (CMessageSend stream body_size (negb (has_no_nuls m))))
  end.

(** *** One message: [fetch_mail] *)

(** The part of [fetch_mail] before [t_push]: [None] is [return FALSE],
    otherwise the values of [flags] and [seen_updated]. *)
Definition seen_phase (ctx : imap_fetch_context) (m : mail)
  : M (option (option mail_full_flags * bool)) :=
  if negb (update_seen ctx) then ret (Some (None, false))
  else
    r <- call (mail_get_flags m) (CGetFlags m) ;;
    match r with
    | None => ret None
    | Some f =>
        if Z.land (flags f) MAIL_SEEN =? 0 then
          ok <- call (mail_update_flags m (seen_flag ctx) MODIFY_ADD)
                     (CUpdateFlags m (seen_flag ctx) MODIFY_ADD) ;;
          if ok then ret (Some (None, true)) else ret None
        else ret (Some (Some f, false))
    end.

(** "write the data into temp string": the tokens after FLAGS ... *)
Definition fetch_tokens_after_flags (ctx : imap_fetch_context) (m : mail)
  : M bool :=
  and_then (when (has_bit (fetch_data ctx) MAIL_FETCH_RECEIVED_DATE)
              (fetch_internaldate m))
  (and_then (when (has_bit (fetch_data ctx) MAIL_FETCH_SIZE)
               (fetch_rfc822_size m))
  (and_then (when (has_bit (fetch_data ctx) MAIL_FETCH_IMAP_BODY)
               (fetch_body m))
  (and_then (when (has_bit (fetch_data ctx) MAIL_FETCH_IMAP_BODYSTRUCTURE)
               (fetch_bodystructure m))
            (when (has_bit (fetch_data ctx) MAIL_FETCH_IMAP_ENVELOPE)
               (fetch_envelope m))))).

(** ... and all of them, from UID on. *)
Definition fetch_tokens (ctx : imap_fetch_context) (m : mail)
  (flags : option mail_full_flags) (seen_updated : bool) : M bool :=
  and_then (when (has_bit (imap_data ctx) IMAP_FETCH_UID) (fetch_uid m))
  (and_then (when (has_bit (fetch_data ctx) MAIL_FETCH_FLAGS || seen_updated)
               (fetch_flags m flags))
            (fetch_tokens_after_flags ctx m)).

(** [str_truncate(ctx->str, len)] *)
Definition str_truncate (len : nat) (s : string) : string := substring 0 len s.

(** "send the data written into temp string" *)
Definition send_line (orig_len : nat) : M bool :=
  s <- get_str ;;
  let len := String.length s in
  set_first (Nat.eqb len orig_len) ;;;
  let out := if Nat.eqb len orig_len then s else str_truncate (len - 1) s in
  set_str out ;;;
  call (o_stream_send out) (CSend out).

(** The [for] loop over [ctx->bodies]: its [break] leaves this loop only. *)
Fixpoint fetch_bodies (bs : list imap_fetch_body_data) (m : mail) : M unit :=
  match bs with
  | [] => ret tt
  | body :: rest =>
      f <- get_first ;;
      r <- call (imap_fetch_body_section body m f)
                (fun r => CBodySection body m (fst r)) ;;
      set_first (snd r) ;;;
      if fst r then fetch_bodies rest m else ret tt
  end.

(** "large data" and the body sections, up to [failed = FALSE]. *)
Definition fetch_large (ctx : imap_fetch_context) (m : mail) : M bool :=
  and_then (when (has_bit (imap_data ctx) IMAP_FETCH_RFC822)
              (fetch_send_rfc822 m))
  (and_then (when (has_bit (imap_data ctx) IMAP_FETCH_RFC822_HEADER)
               (fetch_send_rfc822_header m))
  (and_then (when (has_bit (imap_data ctx) IMAP_FETCH_RFC822_TEXT)
               (fetch_send_rfc822_text m))
            (fetch_bodies (bodies ctx) m ;;; ret true))).

Definition line_header (m : mail) : string := "* " ++ dec (seq m) ++ " FETCH (".

(** [fetch_mail] *)
Definition fetch_mail (ctx : imap_fetch_context) (m : mail) : M bool :=
  r <- seen_phase ctx m ;;
  match r with
  | None => ret false
  | Some (flags, seen_updated) =>
      set_str (line_header m) ;;;
      data_written <-
        and_then (fetch_tokens ctx m flags seen_updated)
                 (send_line (String.length (line_header m))) ;;
      if data_written then
        ok <- fetch_large ctx m ;;
        closed <- call (o_stream_send (")" ++ CRLF)) (CSend (")" ++ CRLF)) ;;
        ret (ok && closed)
      else ret false
  end.

(** *** The command: [imap_fetch] *)

(** The decision on [ctx.update_seen]. *)
Definition decide_update_seen (readonly : bool) (imap_data : Z)
  (bodies : list imap_fetch_body_data) : bool :=
  if negb readonly
  then existsb (fun body => negb (peek body)) bodies
       || has_bit imap_data (Z.lor IMAP_FETCH_RFC822 IMAP_FETCH_RFC822_TEXT)
  else false.

(** The loop that fills [buffer]: the value of [body_fetch_from_cache] and
    the field names appended. *)
Fixpoint wanted_headers_scan (bodies : list imap_fetch_body_data)
  (buffer : list string) : bool * list string :=
  match bodies with
  | [] => (true, buffer)
  | body :: rest =>
      if negb (starts_with "HEADER.FIELDS " (section body))
      then (false, buffer)
      else wanted_headers_scan rest
             (buffer ++ imap_fetch_get_body_fields (skip 14 (section body)))
  end.

(** [wanted_headers]: [None] is [NULL]. *)
Definition wanted_headers (bodies : list imap_fetch_body_data)
  : option (list string) :=
  let '(body_fetch_from_cache, buffer) := wanted_headers_scan bodies [] in
  if body_fetch_from_cache then Some buffer else None.

(** The [while] loop over the mails of the iterator. *)
Fixpoint fetch_loop (ctx : imap_fetch_context) (mails : list mail) : M bool :=
  match mails with
  | [] => ret true
  | m :: rest => and_then (fetch_mail ctx m) (fetch_loop ctx rest)
  end.

(** [imap_fetch] from [fetch_init] to [fetch_deinit]: [ctx.failed] and
    [all_found]. *)
Definition fetch_messages (ctx : imap_fetch_context)
  (messageset : string) (uidset : bool) : M (bool * Z) :=
  it <- call (box_fetch_init (fetch_data ctx) (wanted_headers (bodies ctx))
                messageset uidset)
             (fun it => CFetchInit (fetch_data ctx) (wanted_headers (bodies ctx))
                          messageset uidset
                          (match it with Some _ => true | None => false end)) ;;
  match it with
  | None => ret (true, 0)
  | Some mails =>
      ok <- fetch_loop ctx mails ;;
      d <- call box_fetch_deinit (fun d => CFetchDeinit (fst d) (snd d)) ;;
      ret (negb (ok && fst d), snd d)
  end.

(** [memset(&ctx, 0, sizeof(ctx))]: no text yet, [first] is not set. *)
Definition clear_ctx : M unit :=
  fun s => (tt, {| world := world s; calls := calls s; str := "";
                   first := false |}).

(** [imap_fetch] *)
Definition imap_fetch (fetch_data imap_data : Z)
  (bodies : list imap_fetch_body_data) (messageset : string) (uidset : bool)
  : M Z :=
  fun s =>
    let ctx := {| fetch_data := fetch_data; imap_data := imap_data;
                  bodies := bodies;
                  update_seen := decide_update_seen (box_is_readonly (world s))
                                   imap_data bodies;
                  seen_flag := {| flags := MAIL_SEEN; custom_flags := [] |} |} in
    (clear_ctx ;;;
     locked <- (if update_seen ctx
                then call (box_lock (Z.lor MAILBOX_LOCK_FLAGS MAILBOX_LOCK_READ))
                          (CLock (Z.lor MAILBOX_LOCK_FLAGS MAILBOX_LOCK_READ))
                else ret true) ;;
     if locked then
       r <- fetch_messages ctx messageset uidset ;;
       call (box_lock MAILBOX_LOCK_UNLOCK) (CLock MAILBOX_LOCK_UNLOCK) ;;;
       ret (if fst r then -1 else snd r)
     else ret (-1)) s.

End Engine.

Arguments fetch_state W : clear implicits.
Arguments M W A : clear implicits.

(** ** Reading the record of calls *)

(** The call reported a failure that the engine tests for.  The result of
    [box->lock] is tested in [imap_fetch] itself, and the result of a body
    section only ends the loop over the sections. *)
Definition failed_call (e : call_event) : bool :=
  match e with
  | CFetchInit _ _ _ _ ok => negb ok
  | CFetchDeinit ok _ => negb ok
  | CGetFlags _ None => true
  | CUpdateFlags _ _ _ ok => negb ok
  | CGetReceivedDate _ t => t =? -1
  | CGetSize _ size => (size =? UOFF_T_MAX)%N
  | CGetSpecial _ _ None => true
  | CGetStream _ _ None => true
  | CSend _ ok => negb ok
  | CMessageSend _ _ _ ok => negb ok
  | _ => false
  end.

(** The [all_found] value of the last [fetch_deinit] among the calls. *)
Definition all_found_of (evs : list call_event) : Z :=
  fold_left (fun acc e => match e with
                          | CFetchDeinit _ all_found => all_found
                          | _ => acc
                          end) evs 0.

(** The call reads or updates the flags of a mail. *)
Definition is_flag_call (e : call_event) : bool :=
  match e with
  | CGetFlags _ _ | CUpdateFlags _ _ _ _ => true
  | _ => false
  end.

(** The call is one of the attribute getters behind the tokens after
    FLAGS. *)
Definition is_getter_call (e : call_event) : bool :=
  match e with
  | CGetReceivedDate _ _ | CGetSize _ _ | CGetSpecial _ _ _ => true
  | _ => false
  end.

(** The call sends the response line or a literal, or renders a body
    section. *)
Definition is_output_call (e : call_event) : bool :=
  match e with
  | CSend _ _ | CGetStream _ _ _ | CSeek _ _ | CMessageSend _ _ _ _
  | CBodySection _ _ _ => true
  | _ => false
  end.

(** The call is on the mailbox rather than on a mail or the output. *)
Definition is_box_call (e : call_event) : bool :=
  match e with
  | CLock _ _ | CFetchInit _ _ _ _ _ | CFetchDeinit _ _ => true
  | _ => false
  end.

(** The call is a flag update. *)
Definition is_update_call (e : call_event) : bool :=
  match e with
  | CUpdateFlags _ _ _ _ => true
  | _ => false
  end.

(** The [wanted_headers] arguments of the [fetch_init] calls. *)
Fixpoint fetch_init_hints (evs : list call_event)
  : list (option (list string)) :=
  match evs with
  | [] => []
  | CFetchInit _ wanted _ _ _ :: rest => wanted :: fetch_init_hints rest
  | _ :: rest => fetch_init_hints rest
  end.

(** The data of the first [o_stream_send] among the calls. *)
Fixpoint first_send (evs : list call_event) : option string :=
  match evs with
  | [] => None
  | CSend data _ :: _ => Some data
  | _ :: rest => first_send rest
  end.

(** The data handed to the output stream by the calls, in order. *)
Fixpoint sent (evs : list call_event) : list string :=
  match evs with
  | [] => []
  | CSend data _ :: rest => data :: sent rest
  | _ :: rest => sent rest
  end.

(** ** Strings *)

Lemma str_app_nil_r : forall a : string, (a ++ "")%string = a.
Proof. induction a as [|c a IH]; cbn; congruence. Qed.

Lemma str_app_assoc : forall a b c : string,
  ((a ++ b) ++ c)%string = (a ++ (b ++ c))%string.
Proof. induction a as [|x a IH]; intros b c; cbn; [reflexivity | rewrite IH; reflexivity]. Qed.

Lemma str_length_app : forall a b : string,
  String.length (a ++ b) = (String.length a + String.length b)%nat.
Proof. induction a as [|x a IH]; intros b; cbn; [reflexivity | rewrite IH; reflexivity]. Qed.

(** Dropping the last character of a string that ends in a space. *)
Lemma str_truncate_last : forall a : string,
  str_truncate (String.length (a ++ " ") - 1) (a ++ " ") = a.
Proof.
  intros a. rewrite str_length_app. cbn [String.length].
  replace (String.length a + 1 - 1)%nat with (String.length a) by lia.
  unfold str_truncate. induction a as [|x a IH]; cbn; [reflexivity|].
  rewrite IH. reflexivity.
Qed.

(** ** The header-field list of a section *)

(** A field name: not empty, and no space or closing parenthesis in it. *)
Definition is_field_name (name : string) : bool :=
  negb (String.eqb name "")
  && forallb (fun c => negb (is_separator " )" c)) (list_ascii_of_string name).

(** The section string of [BODY[HEADER.FIELDS (name1 name2 ...)]]. *)
Definition header_fields_section (names : list string) : string :=
  "HEADER.FIELDS (" ++ String.concat " " names ++ ")".

Definition is_header_fields (body : imap_fetch_body_data) : bool :=
  starts_with "HEADER.FIELDS " (section body).

Definition fields_of (body : imap_fetch_body_data) : list string :=
  imap_fetch_get_body_fields (skip 14 (section body)).

Lemma t_strsplit_cons : forall data seps,
  exists w ws, t_strsplit data seps = w :: ws.
Proof.
  induction data as [|c rest IH]; intros seps; cbn [t_strsplit]; [eauto|].
  destruct (is_separator seps c); [eauto|].
  destruct (IH seps) as (w & ws & ->). eauto.
Qed.

Lemma t_strsplit_word : forall name rest seps w ws,
  forallb (fun c => negb (is_separator seps c)) (list_ascii_of_string name) = true ->
  t_strsplit rest seps = w :: ws ->
  t_strsplit (name ++ rest) seps = (name ++ w)%string :: ws.
Proof.
  induction name as [|c name IH]; intros rest seps w ws Hname Hrest.
  - exact Hrest.
  - cbn [list_ascii_of_string forallb] in Hname.
    apply andb_true_iff in Hname as [Hc Hname]. apply negb_true_iff in Hc.
    cbn [append t_strsplit]. rewrite Hc.
    rewrite (IH rest seps w ws Hname Hrest). reflexivity.
Qed.

Lemma t_strsplit_word_sep : forall name c rest seps,
  forallb (fun c => negb (is_separator seps c)) (list_ascii_of_string name) = true ->
  is_separator seps c = true ->
  t_strsplit (name ++ String c rest) seps = name :: t_strsplit rest seps.
Proof.
  intros name c rest seps Hname Hc.
  rewrite (t_strsplit_word name (String c rest) seps "" (t_strsplit rest seps) Hname).
  - rewrite str_app_nil_r. reflexivity.
  - cbn [t_strsplit]. rewrite Hc. reflexivity.
Qed.

Lemma is_field_name_chars : forall name,
  is_field_name name = true ->
  forallb (fun c => negb (is_separator " )" c)) (list_ascii_of_string name) = true.
Proof. intros name H. apply andb_true_iff in H. apply H. Qed.

Lemma t_strsplit_field_list : forall name names,
  forallb is_field_name (name :: names) = true ->
  t_strsplit (String.concat " " (name :: names) ++ ")") " )"
  = (name :: names) ++ [""].
Proof.
  intros name names; revert name.
  induction names as [|n2 names IH]; intros name Hall;
    cbn [forallb] in Hall; apply andb_true_iff in Hall as [Hname Hrest].
  - cbn [String.concat]. rewrite t_strsplit_word_sep;
      [reflexivity | apply is_field_name_chars; exact Hname | reflexivity].
  - change (String.concat " " (name :: n2 :: names))
      with (name ++ " " ++ String.concat " " (n2 :: names))%string.
    rewrite !str_app_assoc. cbn [append].
    rewrite t_strsplit_word_sep;
      [| apply is_field_name_chars; exact Hname | reflexivity].
    rewrite (IH n2 Hrest). reflexivity.
Qed.

Lemma is_field_name_kept : forall name,
  is_field_name name = true ->
  String.eqb name ")" = false /\ String.eqb name "" = false.
Proof.
  intros name H. apply andb_true_iff in H as [Hne Hchars].
  apply negb_true_iff in Hne. split; [|exact Hne].
  destruct (String.eqb name ")") eqn:E; [|reflexivity].
  apply String.eqb_eq in E. subst name. discriminate Hchars.
Qed.

Lemma collect_fields_names : forall names,
  forallb is_field_name names = true ->
  collect_fields (names ++ [""]) = names.
Proof.
  induction names as [|n names IH]; intros Hall; [reflexivity|].
  cbn [forallb] in Hall. apply andb_true_iff in Hall as [Hn Hrest].
  destruct (is_field_name_kept n Hn) as [H1 H2].
  cbn [app collect_fields]. rewrite H1, H2, (IH Hrest). reflexivity.
Qed.

Lemma collect_fields_nonempty : forall l,
  Forall (fun t => t <> "") (collect_fields l).
Proof.
  induction l as [|f rest IH]; cbn [collect_fields]; [constructor|].
  destruct (String.eqb f ")"); [constructor|].
  destruct (String.eqb f "") eqn:E; [exact IH|].
  constructor; [|exact IH]. apply String.eqb_neq. exact E.
Qed.

(** The fields of a section of the exact form are the names in it. *)
Lemma exact_form_fields : forall names,
  forallb is_field_name names = true ->
  starts_with "HEADER.FIELDS " (header_fields_section names) = true
  /\ imap_fetch_get_body_fields (skip 14 (header_fields_section names)) = names.
Proof.
  intros names Hall. split; [reflexivity|].
  unfold imap_fetch_get_body_fields, header_fields_section.
  cbn [append skip skip_spaces skip_paren Ascii.eqb Bool.eqb andb].
  destruct names as [|name names]; [reflexivity|].
  rewrite t_strsplit_field_list by exact Hall.
  apply collect_fields_names. exact Hall.
Qed.





Lemma wanted_headers_scan_all : forall bs buffer,
  forallb is_header_fields bs = true ->
  wanted_headers_scan bs buffer = (true, buffer ++ flat_map fields_of bs).
Proof.
  induction bs as [|body rest IH]; intros buffer Hall.
  - cbn. rewrite app_nil_r. reflexivity.
  - cbn [forallb] in Hall. apply andb_true_iff in Hall as [Hb Hrest].
    cbn [wanted_headers_scan flat_map]. unfold is_header_fields in Hb.
    rewrite Hb. cbn [negb]. rewrite (IH _ Hrest), <- app_assoc. reflexivity.
Qed.

Lemma wanted_headers_scan_other : forall bs buffer,
  forallb is_header_fields bs = false ->
  fst (wanted_headers_scan bs buffer) = false.
Proof.
  induction bs as [|body rest IH]; intros buffer Hsome; [discriminate|].
  cbn [forallb] in Hsome. cbn [wanted_headers_scan].
  unfold is_header_fields in Hsome at 1.
  destruct (starts_with "HEADER.FIELDS " (section body)); cbn [negb andb] in *.
  - apply IH. exact Hsome.
  - reflexivity.
Qed.

Lemma fields_of_nonempty : forall bs,
  Forall (fun t => t <> "") (flat_map fields_of bs).
Proof.
  induction bs as [|body rest IH]; cbn [flat_map]; [constructor|].
  apply Forall_app. split; [apply collect_fields_nonempty | exact IH].
Qed.

Lemma fetch_init_hints_app : forall a b,
  fetch_init_hints (a ++ b) = fetch_init_hints a ++ fetch_init_hints b.
Proof.
  induction a as [|e a IH]; intros b; [reflexivity|].
  destruct e; cbn [app fetch_init_hints]; rewrite IH; reflexivity.
Qed.

Lemma fetch_init_hints_mail_calls : forall evs,
  Forall (fun e => is_box_call e = false) evs -> fetch_init_hints evs = [].
Proof.
  induction 1 as [|e evs He _ IH]; [reflexivity|].
  destruct e; cbn [fetch_init_hints]; try exact IH. discriminate He.
Qed.

Section EngineProofs.

Context {W : Type} `{MailboxOps W} `{FetchEnums}.

Notation "x <- m ;; k" := (bind m (fun x => k))
  (at level 100, m at next level, right associativity).
Notation "m ;;; k" := (bind m (fun _ => k))
  (at level 100, right associativity).

Lemma bind_eq : forall A B (m : M W A) (f : A -> M W B) s,
  bind m f s = f (fst (m s)) (snd (m s)).
Proof. reflexivity. Qed.

(** *** Calls made by a computation *)

(** [m] only adds calls, each satisfying [P]. *)
Definition emits {A : Type} (P : call_event -> Prop) (m : M W A) : Prop :=
  forall s, exists evs,
    calls (snd (m s)) = calls s ++ evs /\ Forall P evs.

(** [m] only adds calls satisfying [P], and its result is [good] exactly
    when none of them failed. *)
Definition tracks {A : Type} (P : call_event -> Prop) (good : A -> bool)
  (m : M W A) : Prop :=
  forall s, exists evs,
    calls (snd (m s)) = calls s ++ evs /\ Forall P evs
    /\ good (fst (m s)) = negb (existsb failed_call evs).

(** [m] only adds calls satisfying [P], and its result is not [good]. *)
Definition fails {A : Type} (P : call_event -> Prop) (good : A -> bool)
  (m : M W A) : Prop :=
  forall s, exists evs,
    calls (snd (m s)) = calls s ++ evs /\ Forall P evs
    /\ good (fst (m s)) = false.

Lemma tracks_emits : forall A P good (m : M W A), tracks P good m -> emits P m.
Proof.
  intros A P good m Hm s. destruct (Hm s) as (evs & H1 & H2 & _). eauto.
Qed.

Lemma fails_emits : forall A P good (m : M W A), fails P good m -> emits P m.
Proof.
  intros A P good m Hm s. destruct (Hm s) as (evs & H1 & H2 & _). eauto.
Qed.

Lemma emits_weaken : forall A (P Q : call_event -> Prop) (m : M W A),
  (forall e, P e -> Q e) -> emits P m -> emits Q m.
Proof.
  intros A P Q m HPQ Hm s. destruct (Hm s) as (evs & H1 & H2).
  exists evs. split; [exact H1 | eapply Forall_impl; eauto].
Qed.

Lemma tracks_weaken : forall A (P Q : call_event -> Prop) good (m : M W A),
  (forall e, P e -> Q e) -> tracks P good m -> tracks Q good m.
Proof.
  intros A P Q good m HPQ Hm s. destruct (Hm s) as (evs & H1 & H2 & H3).
  exists evs. repeat split; [exact H1 | eapply Forall_impl; eauto | exact H3].
Qed.

Lemma emits_ret : forall A P (a : A), emits P (ret a).
Proof. intros A P a s. exists []. split; [symmetry; apply app_nil_r | constructor]. Qed.

Lemma tracks_ret : forall A P good (a : A), good a = true -> tracks P good (ret a).
Proof.
  intros A P good a Ha s. exists []. cbn [ret fst snd existsb negb].
  repeat split; [symmetry; apply app_nil_r | constructor | exact Ha].
Qed.

Lemma fails_ret : forall A P good (a : A), good a = false -> fails P good (ret a).
Proof.
  intros A P good a Ha s. exists []. cbn [ret fst snd].
  repeat split; [symmetry; apply app_nil_r | constructor | exact Ha].
Qed.

Lemma emits_call : forall A P (op : W -> A * W) ev,
  (forall a, P (ev a)) -> emits P (call op ev).
Proof.
  intros A P op ev HP s. exists [ev (fst (op (world s)))].
  split; [reflexivity | constructor; auto].
Qed.

Lemma tracks_call : forall A P good (op : W -> A * W) ev,
  (forall a, P (ev a)) ->
  (forall a, good a = negb (failed_call (ev a))) ->
  tracks P good (call op ev).
Proof.
  intros A P good op ev HP Hgood s. exists [ev (fst (op (world s)))].
  cbn [call fst snd calls existsb]. rewrite orb_false_r.
  repeat split; [constructor; auto | apply Hgood].
Qed.

Lemma emits_bind : forall A B P (m : M W A) (f : A -> M W B),
  emits P m -> (forall a, emits P (f a)) -> emits P (bind m f).
Proof.
  intros A B P m f Hm Hf s. unfold bind.
  destruct (Hm s) as (evs1 & E1 & F1).
  destruct (Hf (fst (m s)) (snd (m s))) as (evs2 & E2 & F2).
  exists (evs1 ++ evs2). rewrite E2, E1, app_assoc.
  split; [reflexivity | apply Forall_app; auto].
Qed.

Lemma tracks_bind : forall A B P g1 g2 (m : M W A) (f : A -> M W B),
  tracks P g1 m ->
  (forall a, g1 a = true -> tracks P g2 (f a)) ->
  (forall a, g1 a = false -> fails P g2 (f a)) ->
  tracks P g2 (bind m f).
Proof.
  intros A B P g1 g2 m f Hm Hok Hbad s. unfold bind.
  destruct (Hm s) as (evs1 & E1 & F1 & G1).
  destruct (g1 (fst (m s))) eqn:Hg.
  - destruct (Hok _ Hg (snd (m s))) as (evs2 & E2 & F2 & G2).
    exists (evs1 ++ evs2). rewrite E2, E1, app_assoc, existsb_app.
    repeat split; [apply Forall_app; auto|].
    rewrite G2. symmetry in G1. apply negb_true_iff in G1. rewrite G1.
    reflexivity.
  - destruct (Hbad _ Hg (snd (m s))) as (evs2 & E2 & F2 & G2).
    exists (evs1 ++ evs2). rewrite E2, E1, app_assoc, existsb_app.
    repeat split; [apply Forall_app; auto|].
    rewrite G2. symmetry in G1. apply negb_false_iff in G1. rewrite G1.
    reflexivity.
Qed.

Lemma fails_bind : forall A B P g (m : M W A) (f : A -> M W B),
  emits P m -> (forall a, fails P g (f a)) -> fails P g (bind m f).
Proof.
  intros A B P g m f Hm Hf s. unfold bind.
  destruct (Hm s) as (evs1 & E1 & F1).
  destruct (Hf (fst (m s)) (snd (m s))) as (evs2 & E2 & F2 & G2).
  exists (evs1 ++ evs2). rewrite E2, E1, app_assoc.
  repeat split; [apply Forall_app; auto | exact G2].
Qed.

(** A step that makes no call and cannot fail. *)
Definition silent {A : Type} (m : M W A) : Prop :=
  forall s, calls (snd (m s)) = calls s.

Lemma tracks_silent_bind : forall A B P g (m : M W A) (f : A -> M W B),
  silent m -> (forall a, tracks P g (f a)) -> tracks P g (bind m f).
Proof.
  intros A B P g m f Hm Hf s. unfold bind.
  destruct (Hf (fst (m s)) (snd (m s))) as (evs & E & F & G).
  exists evs. rewrite E, Hm. repeat split; assumption.
Qed.

Lemma fails_silent_bind : forall A B P g (m : M W A) (f : A -> M W B),
  silent m -> (forall a, fails P g (f a)) -> fails P g (bind m f).
Proof.
  intros A B P g m f Hm Hf s. unfold bind.
  destruct (Hf (fst (m s)) (snd (m s))) as (evs & E & F & G).
  exists evs. rewrite E, Hm. repeat split; assumption.
Qed.

Lemma silent_str_printfa : forall t, silent (str_printfa t).
Proof. intros t s. reflexivity. Qed.

Lemma silent_set_str : forall t, silent (set_str t).
Proof. intros t s. reflexivity. Qed.

Lemma silent_set_first : forall b, silent (set_first b).
Proof. intros b s. reflexivity. Qed.

Lemma silent_get_first : silent get_first.
Proof. intros s. reflexivity. Qed.

Lemma silent_get_str : silent get_str.
Proof. intros s. reflexivity. Qed.

Definition is_true (b : bool) : bool := b.

Lemma tracks_and_then : forall P (a b : M W bool),
  tracks P is_true a -> tracks P is_true b -> tracks P is_true (and_then a b).
Proof.
  intros P a b Ha Hb. unfold and_then. eapply tracks_bind; [exact Ha | |].
  - intros ok Hok. unfold is_true in Hok. subst ok. exact Hb.
  - intros ok Hok. unfold is_true in Hok. subst ok. apply fails_ret. reflexivity.
Qed.

Lemma tracks_when : forall P c (a : M W bool),
  tracks P is_true a -> tracks P is_true (when c a).
Proof.
  intros P c a Ha. destruct c; [exact Ha | apply tracks_ret; reflexivity].
Qed.

(** *** The calls of each function of the engine *)

Definition getter (e : call_event) : Prop := is_getter_call e = true.
Definition output (e : call_event) : Prop := is_output_call e = true.
Definition not_flag (e : call_event) : Prop := is_flag_call e = false.
Definition mail_call (e : call_event) : Prop := is_box_call e = false.
Definition any (e : call_event) : Prop := True.

Lemma getter_not_flag : forall e, getter e -> not_flag e.
Proof. intros e. unfold getter, not_flag. destruct e; cbn; congruence. Qed.

Lemma output_not_flag : forall e, output e -> not_flag e.
Proof. intros e. unfold output, not_flag. destruct e; cbn; congruence. Qed.

Lemma getter_mail_call : forall e, getter e -> mail_call e.
Proof. intros e. unfold getter, mail_call. destruct e; cbn; congruence. Qed.

Lemma output_mail_call : forall e, output e -> mail_call e.
Proof. intros e. unfold output, mail_call. destruct e; cbn; congruence. Qed.

Definition is_some {A : Type} (o : option A) : bool :=
  match o with Some _ => true | None => false end.

Lemma tracks_fetch_uid : forall P m, tracks P is_true (fetch_uid m).
Proof.
  intros P m. unfold fetch_uid.
  apply tracks_silent_bind; [apply silent_str_printfa|].
  intros _. apply tracks_ret. reflexivity.
Qed.

Lemma tracks_fetch_flags : forall m flags, tracks mail_call is_true (fetch_flags m flags).
Proof.
  intros m flags. unfold fetch_flags.
  apply tracks_bind with (g1 := is_some).
  - destruct flags as [f|]; [apply tracks_ret; reflexivity|].
    apply tracks_call; [intros; reflexivity | intros [f|]; reflexivity].
  - intros [f|] Hf; [|discriminate].
    apply tracks_silent_bind; [apply silent_str_printfa|].
    intros _. apply tracks_ret. reflexivity.
  - intros [f|] Hf; [discriminate|]. apply fails_ret. reflexivity.
Qed.

Lemma tracks_fetch_internaldate : forall m,
  tracks getter is_true (fetch_internaldate m).
Proof.
  intros m. unfold fetch_internaldate.
  apply tracks_bind with (g1 := fun t => negb (t =? -1)).
  - apply tracks_call; [intros; reflexivity | intros; reflexivity].
  - intros t Ht. apply negb_true_iff in Ht. rewrite Ht.
    apply tracks_silent_bind; [apply silent_str_printfa|].
    intros _. apply tracks_ret. reflexivity.
  - intros t Ht. apply negb_false_iff in Ht. rewrite Ht.
    apply fails_ret. reflexivity.
Qed.

Lemma tracks_fetch_rfc822_size : forall m,
  tracks getter is_true (fetch_rfc822_size m).
Proof.
  intros m. unfold fetch_rfc822_size.
  apply tracks_bind with (g1 := fun n => negb (n =? UOFF_T_MAX)%N).
  - apply tracks_call; [intros; reflexivity | intros; reflexivity].
  - intros t Ht. apply negb_true_iff in Ht. rewrite Ht.
    apply tracks_silent_bind; [apply silent_str_printfa|].
    intros _. apply tracks_ret. reflexivity.
  - intros t Ht. apply negb_false_iff in Ht. rewrite Ht.
    apply fails_ret. reflexivity.
Qed.

Lemma tracks_fetch_special : forall name field m,
  tracks getter is_true (fetch_special name field m).
Proof.
  intros name field m. unfold fetch_special.
  apply tracks_bind with (g1 := is_some).
  - apply tracks_call; [intros; reflexivity | intros [t|]; reflexivity].
  - intros [t|] Ht; [|discriminate].
    apply tracks_silent_bind; [apply silent_str_printfa|].
    intros _. apply tracks_ret. reflexivity.
  - intros [t|] Ht; [discriminate|]. apply fails_ret. reflexivity.
Qed.

Lemma tracks_tokens_after_flags : forall ctx m,
  tracks getter is_true (fetch_tokens_after_flags ctx m).
Proof.
  intros ctx m. unfold fetch_tokens_after_flags, fetch_body,
    fetch_bodystructure, fetch_envelope.
  repeat first
    [ apply tracks_and_then | apply tracks_when
    | apply tracks_fetch_internaldate | apply tracks_fetch_rfc822_size
    | apply tracks_fetch_special ].
Qed.

Lemma tracks_fetch_tokens : forall ctx m flags seen_updated,
  tracks mail_call is_true (fetch_tokens ctx m flags seen_updated).
Proof.
  intros ctx m flags su. unfold fetch_tokens.
  apply tracks_and_then; [apply tracks_when, tracks_fetch_uid|].
  apply tracks_and_then; [apply tracks_when, tracks_fetch_flags|].
  eapply tracks_weaken; [apply getter_mail_call | apply tracks_tokens_after_flags].
Qed.

Lemma tracks_send_line : forall orig_len,
  tracks output is_true (send_line orig_len).
Proof.
  intros n. unfold send_line.
  apply tracks_silent_bind; [apply silent_get_str|]. intros t.
  apply tracks_silent_bind; [apply silent_set_first|]. intros _.
  apply tracks_silent_bind; [apply silent_set_str|]. intros _.
  apply tracks_call; [intros; reflexivity | intros []; reflexivity].
Qed.

Lemma tracks_send_literal_prefix : forall text,
  tracks output is_true (send_literal_prefix text).
Proof.
  intros text. unfold send_literal_prefix.
  apply tracks_silent_bind; [apply silent_get_first|]. intros f.
  apply tracks_silent_bind.
  { destruct f; [apply silent_set_first | intros s; reflexivity]. }
  intros _. apply tracks_call; [intros; reflexivity | intros []; reflexivity].
Qed.

Lemma tracks_message_send : forall stream size fix_nuls,
  tracks output is_true
    (call (message_send stream size fix_nuls)
          (CMessageSend stream size fix_nuls)).
Proof.
  intros. apply tracks_call; [intros; reflexivity | intros []; reflexivity].
Qed.

Lemma tracks_get_stream : forall m want_body,
  tracks output is_some
    (call (mail_get_stream m want_body) (CGetStream m want_body)).
Proof.
  intros. apply tracks_call; [intros; reflexivity | intros [r|]; reflexivity].
Qed.

Lemma tracks_fetch_send_rfc822 : forall m,
  tracks output is_true (fetch_send_rfc822 m).
Proof.
  intros m. unfold fetch_send_rfc822.
  apply tracks_bind with (g1 := is_some); [apply tracks_get_stream | |].
  - intros [[[stream hdr] body]|] Hr; [|discriminate].
    apply tracks_and_then;
      [apply tracks_send_literal_prefix | apply tracks_message_send].
  - intros [r|] Hr; [discriminate|]. apply fails_ret. reflexivity.
Qed.

Lemma tracks_fetch_send_rfc822_header : forall m,
  tracks output is_true (fetch_send_rfc822_header m).
Proof.
  intros m. unfold fetch_send_rfc822_header.
  apply tracks_bind with (g1 := is_some); [apply tracks_get_stream | |].
  - intros [[[stream hdr] body]|] Hr; [|discriminate].
    apply tracks_and_then;
      [apply tracks_send_literal_prefix | apply tracks_message_send].
  - intros [r|] Hr; [discriminate|]. apply fails_ret. reflexivity.
Qed.

Lemma tracks_fetch_send_rfc822_text : forall m,
  tracks output is_true (fetch_send_rfc822_text m).
Proof.
  intros m. unfold fetch_send_rfc822_text.
  apply tracks_bind with (g1 := is_some); [apply tracks_get_stream | |].
  - intros [[[stream hdr] body]|] Hr; [|discriminate].
    apply tracks_and_then; [apply tracks_send_literal_prefix|].
    apply tracks_bind with (g1 := fun _ => true).
    + apply tracks_call; [intros; reflexivity | intros; reflexivity].
    + intros _ _. apply tracks_message_send.
    + intros a Ha. discriminate.
  - intros [r|] Hr; [discriminate|]. apply fails_ret. reflexivity.
Qed.

Lemma tracks_fetch_bodies : forall bs m,
  tracks output (fun _ => true) (fetch_bodies bs m).
Proof.
  induction bs as [|body rest IH]; intros m; cbn [fetch_bodies].
  - apply tracks_ret. reflexivity.
  - apply tracks_silent_bind; [apply silent_get_first|]. intros f.
    apply tracks_bind with (g1 := fun _ => true).
    + apply tracks_call; [intros; reflexivity | intros; reflexivity].
    + intros r _. apply tracks_silent_bind; [apply silent_set_first|].
      intros _. destruct (fst r); [apply IH | apply tracks_ret; reflexivity].
    + intros a Ha. discriminate.
Qed.

Lemma tracks_fetch_large : forall ctx m,
  tracks output is_true (fetch_large ctx m).
Proof.
  intros ctx m. unfold fetch_large.
  apply tracks_and_then; [apply tracks_when, tracks_fetch_send_rfc822|].
  apply tracks_and_then; [apply tracks_when, tracks_fetch_send_rfc822_header|].
  apply tracks_and_then; [apply tracks_when, tracks_fetch_send_rfc822_text|].
  apply tracks_bind with (g1 := fun _ => true).
  - apply tracks_fetch_bodies.
  - intros _ _. apply tracks_ret. reflexivity.
  - intros a Ha. discriminate.
Qed.

(** The part of [fetch_mail] after the line was sent. *)
Lemma tracks_finish_line : forall ctx m,
  tracks output is_true
    (ok <- fetch_large ctx m ;;
     closed <- call (o_stream_send (")" ++ CRLF)) (CSend (")" ++ CRLF)) ;;
     ret (ok && closed)).
Proof.
  intros ctx m.
  apply tracks_bind with (g1 := is_true); [apply tracks_fetch_large | |].
  - intros ok Hok. unfold is_true in Hok. subst ok.
    apply tracks_bind with (g1 := is_true).
    + apply tracks_call; [intros; reflexivity | intros []; reflexivity].
    + intros c Hc. apply tracks_ret. exact Hc.
    + intros c Hc. apply fails_ret. exact Hc.
  - intros ok Hok. unfold is_true in Hok. subst ok.
    apply fails_bind.
    + apply emits_call. intros; reflexivity.
    + intros c. apply fails_ret. reflexivity.
Qed.

Lemma tracks_seen_phase : forall ctx m,
  tracks mail_call is_some (seen_phase ctx m).
Proof.
  intros ctx m. unfold seen_phase.
  destruct (negb (update_seen ctx)); [apply tracks_ret; reflexivity|].
  apply tracks_bind with (g1 := is_some).
  - apply tracks_call; [intros; reflexivity | intros [f|]; reflexivity].
  - intros [f|] Hf; [|discriminate].
    destruct (Z.land (flags f) MAIL_SEEN =? 0); [|apply tracks_ret; reflexivity].
    apply tracks_bind with (g1 := is_true).
    + apply tracks_call; [intros; reflexivity | intros []; reflexivity].
    + intros ok Hok. unfold is_true in Hok. subst ok. apply tracks_ret. reflexivity.
    + intros ok Hok. unfold is_true in Hok. subst ok. apply fails_ret. reflexivity.
  - intros [f|] Hf; [discriminate|]. apply fails_ret. reflexivity.
Qed.

Lemma tracks_fetch_mail : forall ctx m, tracks mail_call is_true (fetch_mail ctx m).
Proof.
  intros ctx m. unfold fetch_mail.
  apply tracks_bind with (g1 := is_some); [apply tracks_seen_phase | |].
  - intros [[flags su]|] Hr; [|discriminate].
    apply tracks_silent_bind; [apply silent_set_str|]. intros _.
    apply tracks_bind with (g1 := is_true).
    + apply tracks_and_then; [apply tracks_fetch_tokens|].
      eapply tracks_weaken; [apply output_mail_call | apply tracks_send_line].
    + intros dw Hdw. unfold is_true in Hdw. subst dw.
      eapply tracks_weaken; [apply output_mail_call | apply tracks_finish_line].
    + intros dw Hdw. unfold is_true in Hdw. subst dw. apply fails_ret. reflexivity.
  - intros [r|] Hr; [discriminate|]. apply fails_ret. reflexivity.
Qed.

Lemma tracks_fetch_loop : forall ctx mails,
  tracks mail_call is_true (fetch_loop ctx mails).
Proof.
  intros ctx mails. induction mails as [|m rest IH]; cbn [fetch_loop].
  - apply tracks_ret. reflexivity.
  - apply tracks_and_then; [apply tracks_fetch_mail | exact IH].
Qed.

Lemma tracks_fetch_messages : forall ctx messageset uidset,
  tracks any (fun r => negb (fst r)) (fetch_messages ctx messageset uidset).
Proof.
  intros ctx ms uidset. unfold fetch_messages.
  apply tracks_bind with (g1 := is_some).
  - apply tracks_call; [intros; exact I | intros [it|]; reflexivity].
  - intros [mails|] Hit; [|discriminate].
    apply tracks_bind with (g1 := is_true);
      [eapply tracks_weaken; [|apply tracks_fetch_loop]; intros; exact I | |].
    + intros ok Hok. unfold is_true in Hok. subst ok.
      apply tracks_bind with (g1 := fun d : bool * Z => fst d).
      * apply tracks_call; [intros; exact I | intros [[] af]; reflexivity].
      * intros d Hd. apply tracks_ret. cbn [fst andb]. rewrite Hd. reflexivity.
      * intros d Hd. apply fails_ret. cbn [fst andb]. rewrite Hd. reflexivity.
    + intros ok Hok. unfold is_true in Hok. subst ok.
      apply fails_bind; [apply emits_call; intros; exact I|].
      intros d. apply fails_ret. reflexivity.
  - intros [it|] Hit; [discriminate|]. apply fails_ret. reflexivity.
Qed.

Lemma all_found_of_last : forall evs ok af,
  all_found_of (evs ++ [CFetchDeinit ok af]) = af.
Proof.
  intros evs ok af. unfold all_found_of. rewrite fold_left_app. reflexivity.
Qed.

(** When [fetch_messages] does not fail, its last call is [fetch_deinit]
    and the [all_found] it returns is the one of that call. *)
Lemma fetch_messages_all_found : forall ctx messageset uidset s,
  fst (fst (fetch_messages ctx messageset uidset s)) = false ->
  exists evs ok,
    calls (snd (fetch_messages ctx messageset uidset s))
    = calls s ++ evs
             ++ [CFetchDeinit ok (snd (fst (fetch_messages ctx messageset uidset s)))].
Proof.
  intros ctx ms uidset s. unfold fetch_messages, bind.
  set (c := call _ _).
  destruct (fst (c s)) as [mails|] eqn:Hit; [|discriminate].
  intros _.
  destruct (tracks_emits _ _ _ _ (tracks_fetch_loop ctx mails) (snd (c s)))
    as (evs & E & _).
  eexists (_ :: evs), _. cbn [ret snd fst call calls].
  rewrite E. subst c. cbn [call snd calls]. rewrite <- !app_assoc.
  reflexivity.
Qed.

(** The calls of [fetch_messages]: a failed [fetch_init] alone, or a
    successful one, the calls on the mails and the output, and
    [fetch_deinit]. *)
Lemma fetch_messages_calls : forall ctx messageset uidset (s : fetch_state W),
  calls (snd (fetch_messages ctx messageset uidset s))
  = calls s ++ [CFetchInit (fetch_data ctx) (wanted_headers (bodies ctx))
                  messageset uidset false]
  \/ exists per_mail ok all_found,
       calls (snd (fetch_messages ctx messageset uidset s))
       = calls s ++ CFetchInit (fetch_data ctx) (wanted_headers (bodies ctx))
                      messageset uidset true
           :: per_mail ++ [CFetchDeinit ok all_found]
       /\ Forall mail_call per_mail.
Proof.
  intros ctx ms uidset s. unfold fetch_messages, bind.
  set (c := call _ _).
  destruct (fst (c s)) as [mails|] eqn:Hit.
  - right.
    destruct (tracks_emits _ _ _ _ (tracks_fetch_loop ctx mails) (snd (c s)))
      as (evs & E & F).
    exists evs. eexists. eexists. split; [|exact F].
    cbn [ret snd fst call calls]. rewrite E. subst c.
    cbn [call snd calls fst] in *. rewrite Hit. rewrite <- !app_assoc.
    reflexivity.
  - left. cbn [ret snd]. subst c. cbn [call snd calls fst] in *.
    rewrite Hit. reflexivity.
Qed.

(** [imap_fetch] once the lock is held (or not needed): its calls are
    those of [fetch_messages] and the final unlock, and its result follows
    from the failed calls among them.  The calls of [fetch_messages] are a
    failed [fetch_init], or a successful one, the calls on the mails and
    the output, and [fetch_deinit], whose [all_found] is returned when no
    call failed. *)
Lemma fetch_and_unlock_result : forall ctx messageset uidset (s : fetch_state W),
  let run :=
    (r <- fetch_messages ctx messageset uidset ;;
     call (box_lock MAILBOX_LOCK_UNLOCK) (CLock MAILBOX_LOCK_UNLOCK) ;;;
     ret (if fst r then -1 else snd r)) s in
  exists body unlocked,
    calls (snd run) = calls s ++ body ++ [CLock MAILBOX_LOCK_UNLOCK unlocked]
    /\ fst run = (if existsb failed_call body then -1 else all_found_of body)
    /\ (body = [CFetchInit (fetch_data ctx) (wanted_headers (bodies ctx))
                  messageset uidset false]
        \/ exists per_mail ok all_found,
             body = CFetchInit (fetch_data ctx) (wanted_headers (bodies ctx))
                      messageset uidset true
                    :: per_mail ++ [CFetchDeinit ok all_found]
             /\ Forall mail_call per_mail
             /\ (existsb failed_call body = false -> fst run = all_found)).
Proof.
  intros ctx ms uidset s run. subst run. unfold bind.
  destruct (tracks_fetch_messages ctx ms uidset s) as (body & E & _ & G).
  pose proof (fetch_messages_all_found ctx ms uidset s) as Haf.
  pose proof (fetch_messages_calls ctx ms uidset s) as Hshape.
  set (fm := fetch_messages ctx ms uidset s) in *.
  exists body, (fst (box_lock MAILBOX_LOCK_UNLOCK (world (snd fm)))).
  cbn [call ret fst snd calls]. rewrite E, <- app_assoc.
  split; [reflexivity|].
  assert (R : (if fst (fst fm) then -1 else snd (fst fm))
              = (if existsb failed_call body then -1 else all_found_of body)).
  { destruct (fst (fst fm)) eqn:Hfailed; cbn [negb] in G.
    - symmetry in G. apply negb_false_iff in G. rewrite G. reflexivity.
    - symmetry in G. apply negb_true_iff in G. rewrite G.
      destruct (Haf eq_refl) as (evs & ok & E2). rewrite E in E2.
      apply app_inv_head in E2. rewrite E2, all_found_of_last. reflexivity. }
  split; [exact R|].
  destruct Hshape as [Hc | (per_mail & ok & af & Hc & F)].
  - left. rewrite E in Hc. apply app_inv_head in Hc. exact Hc.
  - right. exists per_mail, ok, af. rewrite E in Hc.
    apply app_inv_head in Hc. split; [exact Hc|]. split; [exact F|].
    intros Hnone. rewrite R, Hnone, Hc.
    change (CFetchInit (fetch_data ctx) (wanted_headers (bodies ctx)) ms
              uidset true :: per_mail ++ [CFetchDeinit ok af])
      with ((CFetchInit (fetch_data ctx) (wanted_headers (bodies ctx)) ms
               uidset true :: per_mail) ++ [CFetchDeinit ok af]).
    apply all_found_of_last.
Qed.

(** C1 (amended): [imap_fetch] returns -1 when the up-front lock fails
    (nothing else is called), and otherwise -1 exactly when one of its
    calls between the lock and the final unlock reports a failure that the
    engine tests ([fetch_init], a flag read or update, an attribute getter,
    a stream, a write to the output, [fetch_deinit]); when none does, it
    returns the [all_found] value that [fetch_deinit] reported, not the
    number of messages.  The calls between the lock and the unlock are one
    [fetch_init] and, when that succeeded, the calls on the mails and the
    output followed by one [fetch_deinit]. *)
Theorem imap_fetch_result :
  forall fetch_data imap_data bodies messageset uidset (s : fetch_state W),
  let r := imap_fetch fetch_data imap_data bodies messageset uidset s in
  (exists lock_flags,
      calls (snd r) = calls s ++ [CLock lock_flags false] /\ fst r = -1)
  \/ (exists pre body unlocked,
        calls (snd r)
        = calls s ++ pre ++ body ++ [CLock MAILBOX_LOCK_UNLOCK unlocked]
        /\ (pre = [] \/ exists lock_flags, pre = [CLock lock_flags true])
        /\ fst r = (if existsb failed_call body then -1 else all_found_of body)
        /\ (body = [CFetchInit fetch_data (wanted_headers bodies)
                      messageset uidset false]
            \/ exists per_mail ok all_found,
                 body = CFetchInit fetch_data (wanted_headers bodies)
                          messageset uidset true
                        :: per_mail ++ [CFetchDeinit ok all_found]
                 /\ Forall mail_call per_mail
                 /\ (existsb failed_call body = false -> fst r = all_found))).
Proof.
  intros fd id bodies ms uidset s r. subst r. unfold imap_fetch.
  set (ctx := {| fetch_data := fd |}).
  rewrite bind_eq. cbn [clear_ctx fst snd].
  set (s0 := {| world := world s |}).
  change (calls s) with (calls s0).
  match goal with |- context [bind ?L ?K s0] =>
    change (bind L K s0) with (K (fst (L s0)) (snd (L s0))) end.
  cbv beta. destruct (update_seen ctx).
  - set (lk := call _ _ s0).
    destruct (fst lk) eqn:Hlock.
    + right.
      destruct (fetch_and_unlock_result ctx ms uidset (snd lk))
        as (body & unlocked & E & R & Hshape).
      exists [CLock (Z.lor MAILBOX_LOCK_FLAGS MAILBOX_LOCK_READ) true], body, unlocked.
      split; [|split; [right; eauto | split; [exact R | exact Hshape]]].
      rewrite E. subst lk. cbn [call snd calls fst] in *. rewrite Hlock.
      rewrite <- !app_assoc. reflexivity.
    + left. exists (Z.lor MAILBOX_LOCK_FLAGS MAILBOX_LOCK_READ).
      subst lk. cbn [call snd calls fst ret] in *. rewrite Hlock.
      split; reflexivity.
  - right. cbn [ret fst snd].
    destruct (fetch_and_unlock_result ctx ms uidset s0)
      as (body & unlocked & E & R & Hshape).
    exists [], body, unlocked.
    split; [exact E | split; [left; reflexivity | split; [exact R | exact Hshape]]].
Qed.

(** The calls of [fetch_messages] start with the one [fetch_init], which
    is given [wanted_headers]; no other call is a [fetch_init]. *)
Lemma fetch_messages_hint : forall ctx messageset uidset (s : fetch_state W),
  fetch_init_hints (calls (snd (fetch_messages ctx messageset uidset s)))
  = fetch_init_hints (calls s) ++ [wanted_headers (bodies ctx)].
Proof.
  intros ctx ms uidset s. unfold fetch_messages, bind.
  set (c := call _ _).
  assert (Hc : fetch_init_hints (calls (snd (c s)))
               = fetch_init_hints (calls s) ++ [wanted_headers (bodies ctx)]).
  { subst c. cbn [call snd calls]. rewrite fetch_init_hints_app. reflexivity. }
  destruct (fst (c s)) as [mails|]; [|exact Hc].
  destruct (tracks_emits _ _ _ _ (tracks_fetch_loop ctx mails) (snd (c s)))
    as (evs & E & F).
  cbn [ret snd call calls]. rewrite E, !fetch_init_hints_app, Hc.
  rewrite (fetch_init_hints_mail_calls evs F). cbn [fetch_init_hints].
  rewrite !app_nil_r. reflexivity.
Qed.

Lemma imap_fetch_hint :
  forall fetch_data imap_data bs messageset uidset (s : fetch_state W),
  let r := imap_fetch fetch_data imap_data bs messageset uidset s in
  fetch_init_hints (calls (snd r))
  = fetch_init_hints (calls s) ++ [wanted_headers bs]
  \/ exists lock_flags, calls (snd r) = calls s ++ [CLock lock_flags false].
Proof.
  intros fd id bs ms uidset s r. subst r. unfold imap_fetch.
  set (ctx := {| fetch_data := fd |}).
  rewrite bind_eq. cbn [clear_ctx fst snd].
  set (s0 := {| world := world s |}).
  change (calls s) with (calls s0).
  match goal with |- context [bind ?L ?K s0] =>
    change (bind L K s0) with (K (fst (L s0)) (snd (L s0))) end.
  cbv beta.
  assert (Hrun : forall s1 : fetch_state W,
    fetch_init_hints (calls s1) = fetch_init_hints (calls s) ->
    fetch_init_hints
      (calls (snd ((r <- fetch_messages ctx ms uidset ;;
                    call (box_lock MAILBOX_LOCK_UNLOCK) (CLock MAILBOX_LOCK_UNLOCK) ;;;
                    ret (if fst r then -1 else snd r)) s1)))
    = fetch_init_hints (calls s) ++ [wanted_headers bs]).
  { intros s1 H1. unfold bind. cbn [ret snd call calls].
    rewrite fetch_init_hints_app, fetch_messages_hint, H1. cbn [fetch_init_hints].
    rewrite app_nil_r. reflexivity. }
  destruct (update_seen ctx).
  - set (lk := call _ _ s0).
    destruct (fst lk) eqn:Hlock.
    + left. apply Hrun. subst lk. cbn [call snd calls].
      rewrite fetch_init_hints_app. cbn [fetch_init_hints]. apply app_nil_r.
    + right. exists (Z.lor MAILBOX_LOCK_FLAGS MAILBOX_LOCK_READ).
      subst lk. cbn [call snd calls fst ret] in *. rewrite Hlock. reflexivity.
  - left. cbn [ret fst snd]. apply Hrun. reflexivity.
Qed.

(** C8 (amended): when every requested body section begins with
    "HEADER.FIELDS ", the hint is the list of each section's field tokens,
    in list order and without empty tokens; for a section of the form
    "HEADER.FIELDS (name ... name)" the tokens are exactly the names.  When
    some section does not begin with "HEADER.FIELDS ", there is no hint.
    [imap_fetch] passes this hint to its one [fetch_init] call, unless the
    up-front lock fails and nothing is fetched. *)
Theorem header_fields_hint : forall bs,
  (forallb is_header_fields bs = true ->
   wanted_headers bs = Some (flat_map fields_of bs)
   /\ Forall (fun t => t <> "") (flat_map fields_of bs))
  /\ (forallb is_header_fields bs = false -> wanted_headers bs = None)
  /\ (forall names,
        forallb is_field_name names = true ->
        is_header_fields {| section := header_fields_section names; peek := true |}
        = true
        /\ fields_of {| section := header_fields_section names; peek := true |}
           = names)
  /\ (forall fetch_data imap_data messageset uidset (s : fetch_state W),
        let r := imap_fetch fetch_data imap_data bs messageset uidset s in
        fetch_init_hints (calls (snd r))
        = fetch_init_hints (calls s) ++ [wanted_headers bs]
        \/ exists lock_flags, calls (snd r) = calls s ++ [CLock lock_flags false]).
Proof.
  intros bs. split; [|split; [|split]].
  - intros Hall. split; [|apply fields_of_nonempty].
    unfold wanted_headers. rewrite (wanted_headers_scan_all bs [] Hall).
    reflexivity.
  - intros Hsome. unfold wanted_headers.
    pose proof (wanted_headers_scan_other bs [] Hsome) as Hf.
    destruct (wanted_headers_scan bs []) as [flag buffer]. cbn [fst] in Hf.
    rewrite Hf. reflexivity.
  - intros names Hnames. apply exact_form_fields. exact Hnames.
  - intros. apply imap_fetch_hint.
Qed.

(** *** The FLAGS token after a \Seen update *)

(** The text ends with the separator space. *)
Definition ends_spaced (t : string) : Prop :=
  exists t', t = (t' ++ " ")%string.

Lemma ends_spaced_app : forall a b, ends_spaced b -> ends_spaced (a ++ b).
Proof.
  intros a b [t' ->]. exists (a ++ t')%string. symmetry. apply str_app_assoc.
Qed.

Lemma ends_spaced_space : ends_spaced " ".
Proof. exists ""%string. reflexivity. Qed.

(** A successful run of [m] appends tokens, each ending with a space. *)
Definition appends (m : M W bool) : Prop :=
  forall s, fst (m s) = true ->
  exists t, str (snd (m s)) = (str s ++ t)%string /\ (t = ""%string \/ ends_spaced t).

Lemma appends_and_then : forall a b : M W bool,
  appends a -> appends b -> appends (and_then a b).
Proof.
  intros a b Ha Hb s. unfold and_then. rewrite bind_eq.
  destruct (fst (a s)) eqn:Hok; [|discriminate].
  intros Hb1. destruct (Ha s Hok) as (t1 & E1 & S1).
  destruct (Hb (snd (a s)) Hb1) as (t2 & E2 & S2).
  exists (t1 ++ t2)%string. rewrite E2, E1, str_app_assoc. split; [reflexivity|].
  destruct S2 as [-> | S2].
  - rewrite str_app_nil_r. exact S1.
  - right. apply ends_spaced_app. exact S2.
Qed.

Lemma appends_when : forall c (a : M W bool), appends a -> appends (when c a).
Proof.
  intros c a Ha. destruct c; [exact Ha|].
  intros s _. exists ""%string. cbn [when ret snd].
  rewrite str_app_nil_r. auto.
Qed.

Lemma appends_fetch_internaldate : forall m, appends (fetch_internaldate m).
Proof.
  intros m s. unfold fetch_internaldate. rewrite bind_eq.
  destruct (fst (call (mail_get_received_date m) (CGetReceivedDate m) s) =? -1);
    [discriminate|].
  intros _. eexists. split; [reflexivity|]. right.
  repeat apply ends_spaced_app. apply ends_spaced_space.
Qed.

Lemma appends_fetch_rfc822_size : forall m, appends (fetch_rfc822_size m).
Proof.
  intros m s. unfold fetch_rfc822_size. rewrite bind_eq.
  destruct (fst (call (mail_get_size m) (CGetSize m) s) =? UOFF_T_MAX)%N;
    [discriminate|].
  intros _. eexists. split; [reflexivity|]. right.
  repeat apply ends_spaced_app. apply ends_spaced_space.
Qed.

Lemma appends_fetch_special : forall name field m,
  appends (fetch_special name field m).
Proof.
  intros name field m s. unfold fetch_special. rewrite bind_eq.
  destruct (fst (call (mail_get_special m field) (CGetSpecial m field) s));
    [|discriminate].
  intros _. eexists. split; [reflexivity|]. right.
  repeat apply ends_spaced_app. exists ")"%string. reflexivity.
Qed.

Lemma appends_tokens_after_flags : forall ctx m,
  appends (fetch_tokens_after_flags ctx m).
Proof.
  intros ctx m. unfold fetch_tokens_after_flags, fetch_body,
    fetch_bodystructure, fetch_envelope.
  repeat first
    [ apply appends_and_then | apply appends_when
    | apply appends_fetch_internaldate | apply appends_fetch_rfc822_size
    | apply appends_fetch_special ].
Qed.

(** The state in which [fetch_mail] starts its line after it has added
    \Seen. *)
Definition after_seen_update (ctx : imap_fetch_context) (m : mail)
  (f : mail_full_flags) (w2 : W) (s : fetch_state W) : fetch_state W :=
  {| world := w2;
     calls := calls s ++ [CGetFlags m (Some f);
                          CUpdateFlags m (seen_flag ctx) MODIFY_ADD true];
     str := str s; first := first s |}.

Lemma seen_phase_updates : forall ctx m (s : fetch_state W) f w1 w2,
  update_seen ctx = true ->
  mail_get_flags m (world s) = (Some f, w1) ->
  Z.land (flags f) MAIL_SEEN = 0 ->
  mail_update_flags m (seen_flag ctx) MODIFY_ADD w1 = (true, w2) ->
  seen_phase ctx m s = (Some (None, true), after_seen_update ctx m f w2 s).
Proof.
  intros ctx m s f w1 w2 Hu Hg Hs Hup. unfold seen_phase. rewrite Hu.
  cbn [negb]. rewrite bind_eq. cbn [call fst snd]. rewrite Hg. cbn [fst snd].
  rewrite Hs. cbn [Z.eqb]. rewrite bind_eq. cbn [call fst snd world].
  rewrite Hup. cbn [fst snd ret calls str first]. unfold after_seen_update.
  rewrite <- app_assoc. reflexivity.
Qed.

(** The text before the FLAGS token. *)
Definition uid_prefix (ctx : imap_fetch_context) (m : mail) (text : string)
  : string :=
  if has_bit (imap_data ctx) IMAP_FETCH_UID
  then (text ++ ("UID " ++ dec (uid m) ++ " "))%string
  else text.

(** [fetch_tokens] with [flags = NULL] after an update: the flags are read
    again, and the FLAGS token is made from what was read. *)
Lemma fetch_tokens_refetch_none : forall ctx m (s : fetch_state W),
  fst (mail_get_flags m (world s)) = None ->
  fetch_tokens ctx m None true s
  = (false, {| world := snd (mail_get_flags m (world s));
               calls := calls s ++ [CGetFlags m None];
               str := uid_prefix ctx m (str s); first := first s |}).
Proof.
  intros ctx m s Hnone. unfold fetch_tokens, uid_prefix, and_then.
  rewrite orb_true_r. cbn [when]. rewrite bind_eq.
  destruct (has_bit (imap_data ctx) IMAP_FETCH_UID);
    cbn [when fetch_uid bind str_printfa ret fst snd]; rewrite bind_eq;
    unfold fetch_flags; rewrite bind_eq; cbn [call fst snd world calls str first];
    rewrite Hnone; reflexivity.
Qed.

Lemma fetch_tokens_refetch_some : forall ctx m (s : fetch_state W) f2,
  fst (mail_get_flags m (world s)) = Some f2 ->
  fetch_tokens ctx m None true s
  = fetch_tokens_after_flags ctx m
      {| world := snd (mail_get_flags m (world s));
         calls := calls s ++ [CGetFlags m (Some f2)];
         str := (uid_prefix ctx m (str s)
                 ++ ("FLAGS (" ++ imap_write_flags f2 ++ ") "))%string;
         first := first s |}.
Proof.
  intros ctx m s f2 Hsome. unfold fetch_tokens, uid_prefix, and_then.
  rewrite orb_true_r. cbn [when]. rewrite bind_eq.
  destruct (has_bit (imap_data ctx) IMAP_FETCH_UID);
    cbn [when fetch_uid bind str_printfa ret fst snd]; rewrite bind_eq;
    unfold fetch_flags; rewrite bind_eq; cbn [call fst snd world calls str first];
    rewrite Hsome; reflexivity.
Qed.

Lemma first_send_getters : forall evs rest,
  Forall getter evs -> first_send (evs ++ rest) = first_send rest.
Proof.
  intros evs rest Hg. induction Hg as [|e evs He _ IH]; [reflexivity|].
  destruct e; cbn [app first_send]; try exact IH; discriminate He.
Qed.

Lemma first_send_only_getters : forall evs,
  Forall getter evs -> first_send evs = None.
Proof.
  intros evs Hg. rewrite <- (app_nil_r evs). rewrite first_send_getters by exact Hg.
  reflexivity.
Qed.

(** The line that is sent holds the FLAGS token made from [f2]. *)
Lemma sent_line_has_flags : forall (hdr x t : string) f2,
  (t = ""%string \/ ends_spaced t) ->
  let text := ((x ++ ("FLAGS (" ++ imap_write_flags f2 ++ ") ")) ++ t)%string in
  exists a b,
    str_truncate (String.length text - 1) text
    = (a ++ "FLAGS (" ++ imap_write_flags f2 ++ ")" ++ b)%string.
Proof.
  intros hdr x t f2 Ht text. subst text. exists x.
  destruct Ht as [-> | [t' ->]].
  - exists ""%string. rewrite str_app_nil_r.
    replace (x ++ ("FLAGS (" ++ imap_write_flags f2 ++ ") "))%string
      with ((x ++ "FLAGS (" ++ imap_write_flags f2 ++ ")") ++ " ")%string.
    + rewrite str_truncate_last, str_app_nil_r. reflexivity.
    + rewrite !str_app_assoc. reflexivity.
  - exists (" " ++ t')%string.
    replace ((x ++ ("FLAGS (" ++ imap_write_flags f2 ++ ") ")) ++ t' ++ " ")%string
      with ((x ++ "FLAGS (" ++ imap_write_flags f2 ++ ")" ++ " " ++ t') ++ " ")%string.
    + rewrite str_truncate_last. reflexivity.
    + rewrite !str_app_assoc. cbn [append]. rewrite ?str_app_assoc. reflexivity.
Qed.

Lemma and_then_eq : forall (a b : M W bool) s,
  and_then a b s = if fst (a s) then b (snd (a s)) else (false, snd (a s)).
Proof.
  intros a b s. unfold and_then. rewrite bind_eq.
  destruct (fst (a s)); reflexivity.
Qed.

(** The text [send_line] hands to the output stream. *)
Definition line_out (orig_len : nat) (text : string) : string :=
  if Nat.eqb (String.length text) orig_len then text
  else str_truncate (String.length text - 1) text.

Lemma send_line_eq : forall orig_len (s : fetch_state W),
  send_line orig_len s
  = (fst (o_stream_send (line_out orig_len (str s)) (world s)),
     {| world := snd (o_stream_send (line_out orig_len (str s)) (world s));
        calls := calls s
                 ++ [CSend (line_out orig_len (str s))
                       (fst (o_stream_send (line_out orig_len (str s)) (world s)))];
        str := line_out orig_len (str s);
        first := Nat.eqb (String.length (str s)) orig_len |}).
Proof. reflexivity. Qed.

Lemma line_out_with_flags : forall ctx m f2 t,
  (t = ""%string \/ ends_spaced t) ->
  exists a b,
    line_out (String.length (line_header m))
      ((uid_prefix ctx m (line_header m)
        ++ ("FLAGS (" ++ imap_write_flags f2 ++ ") ")) ++ t)
    = (a ++ "FLAGS (" ++ imap_write_flags f2 ++ ")" ++ b)%string.
Proof.
  intros ctx m f2 t Ht. unfold line_out.
  assert (Hlen : (String.length (line_header m)
                  < String.length
                      ((uid_prefix ctx m (line_header m)
                        ++ ("FLAGS (" ++ imap_write_flags f2 ++ ") ")) ++ t))%nat).
  { rewrite !str_length_app. cbn [String.length].
    unfold uid_prefix. destruct (has_bit (imap_data ctx) IMAP_FETCH_UID);
      rewrite ?str_length_app; lia. }
  apply Nat.lt_neq, not_eq_sym, Nat.eqb_neq in Hlen. rewrite Hlen.
  apply (sent_line_has_flags (line_header m)). exact Ht.
Qed.

(** C3 (amended): when \Seen auto-update applies and the message does not
    have \Seen yet, [fetch_mail] reads the flags, makes exactly one
    flag-update call (adding \Seen) and then reads the flags from the mail
    once more for the FLAGS token: no other flag call follows, a failed
    second read fails the message with nothing sent, and otherwise the line
    that is sent holds the FLAGS token made from the flags read after the
    update. *)
Theorem seen_update_refetches_flags :
  forall ctx m (s : fetch_state W) f w1 w2,
  update_seen ctx = true ->
  mail_get_flags m (world s) = (Some f, w1) ->
  Z.land (flags f) MAIL_SEEN = 0 ->
  mail_update_flags m (seen_flag ctx) MODIFY_ADD w1 = (true, w2) ->
  exists rest,
    calls (snd (fetch_mail ctx m s))
    = calls s ++ [CGetFlags m (Some f);
                  CUpdateFlags m (seen_flag ctx) MODIFY_ADD true;
                  CGetFlags m (fst (mail_get_flags m w2))] ++ rest
    /\ Forall not_flag rest
    /\ match fst (mail_get_flags m w2) with
       | None => rest = [] /\ fst (fetch_mail ctx m s) = false
       | Some f2 =>
           forall line, first_send rest = Some line ->
           exists a b,
             line = (a ++ "FLAGS (" ++ imap_write_flags f2 ++ ")" ++ b)%string
       end.
Proof.
  intros ctx m s f w1 w2 Hu Hg Hs Hup. unfold fetch_mail.
  rewrite bind_eq, (seen_phase_updates ctx m s f w1 w2 Hu Hg Hs Hup).
  cbn [fst snd]. rewrite bind_eq. unfold after_seen_update.
  cbn [set_str fst snd world calls str first].
  set (s3 := {| world := w2 |}).
  rewrite bind_eq, and_then_eq.
  destruct (fst (mail_get_flags m w2)) as [f2|] eqn:Hre.
  - rewrite (fetch_tokens_refetch_some ctx m s3 f2 Hre).
    set (s5 := {| world := snd (mail_get_flags m (world s3)) |}).
    destruct (tracks_tokens_after_flags ctx m s5) as (evs_t & Et & Ft & _).
    pose proof (appends_tokens_after_flags ctx m s5) as Ha.
    destruct (fst (fetch_tokens_after_flags ctx m s5)) eqn:Hok.
    + destruct (Ha eq_refl) as (t & Estr & St).
      rewrite send_line_eq, Estr, Et. cbn [fst snd].
      set (out := line_out _ _).
      assert (Hout : exists a b,
                out = (a ++ "FLAGS (" ++ imap_write_flags f2 ++ ")" ++ b)%string)
        by (apply line_out_with_flags; exact St).
      set (sent_ok := fst (o_stream_send out _)).
      set (s6 := {| str := out |}).
      assert (Hfirst : forall ok tail line,
                first_send (evs_t ++ CSend out ok :: tail) = Some line ->
                exists a b,
                  line = (a ++ "FLAGS (" ++ imap_write_flags f2 ++ ")" ++ b)%string).
      { intros ok tail line Hl. rewrite first_send_getters in Hl by exact Ft.
        cbn [first_send] in Hl. injection Hl as <-. exact Hout. }
      destruct sent_ok eqn:Hsent.
      * destruct (tracks_finish_line ctx m s6) as (evs_f & Ef & Ff & _).
        rewrite Ef. exists (evs_t ++ CSend out true :: evs_f).
        split; [|split].
        -- subst s6 s5 s3. cbn [calls]. rewrite <- !app_assoc. reflexivity.
        -- apply Forall_app. split.
           ++ eapply Forall_impl; [apply getter_not_flag | exact Ft].
           ++ constructor; [reflexivity|].
              eapply Forall_impl; [apply output_not_flag | exact Ff].
        -- intros line. apply Hfirst.
      * exists (evs_t ++ [CSend out false]). split; [|split].
        -- subst s6 s5 s3. cbn [ret snd calls]. rewrite <- !app_assoc. reflexivity.
        -- apply Forall_app. split.
           ++ eapply Forall_impl; [apply getter_not_flag | exact Ft].
           ++ repeat constructor.
        -- intros line. apply Hfirst.
    + cbn [fst snd ret]. rewrite Et. exists evs_t. split; [|split].
      * subst s5 s3. cbn [calls]. rewrite <- !app_assoc. reflexivity.
      * eapply Forall_impl; [apply getter_not_flag | exact Ft].
      * intros line Hl. rewrite first_send_only_getters in Hl by exact Ft.
        discriminate.
  - rewrite (fetch_tokens_refetch_none ctx m s3 Hre). cbn [fst snd ret calls].
    exists []. split; [|split; [constructor | split; reflexivity]].
    subst s3. cbn [calls]. rewrite <- !app_assoc. reflexivity.
Qed.

(** *** A message that is already seen *)

Lemma tracks_fetch_flags_given : forall P m f,
  tracks P is_true (fetch_flags m (Some f)).
Proof.
  intros P m f. unfold fetch_flags.
  apply tracks_bind with (g1 := is_some); [apply tracks_ret; reflexivity | |].
  - intros [f'|] Hf; [|discriminate].
    apply tracks_silent_bind; [apply silent_str_printfa|].
    intros _. apply tracks_ret. reflexivity.
  - intros [f'|] Hf; [discriminate|]. apply fails_ret. reflexivity.
Qed.

(** With the flags in hand, [fetch_mail] from [t_push] on makes no flag
    call. *)
Lemma emits_line_given_flags : forall ctx m f seen_updated,
  emits not_flag
    (set_str (line_header m) ;;;
     data_written <-
       and_then (fetch_tokens ctx m (Some f) seen_updated)
                (send_line (String.length (line_header m))) ;;
     if data_written then
       ok <- fetch_large ctx m ;;
       closed <- call (o_stream_send (")" ++ CRLF)) (CSend (")" ++ CRLF)) ;;
       ret (ok && closed)
     else ret false).
Proof.
  intros ctx m f su.
  apply emits_bind; [intros s; exists []; split; [symmetry; apply app_nil_r | constructor]|].
  intros _. apply emits_bind.
  - apply tracks_emits with (good := is_true). apply tracks_and_then.
    + unfold fetch_tokens.
      apply tracks_and_then; [apply tracks_when, tracks_fetch_uid|].
      apply tracks_and_then; [apply tracks_when, tracks_fetch_flags_given|].
      eapply tracks_weaken; [apply getter_not_flag | apply tracks_tokens_after_flags].
    + eapply tracks_weaken; [apply output_not_flag | apply tracks_send_line].
  - intros [|]; [|apply emits_ret].
    apply tracks_emits with (good := is_true).
    eapply tracks_weaken; [apply output_not_flag | apply tracks_finish_line].
Qed.

(** X7: when \Seen auto-update applies and the message already has \Seen,
    [fetch_mail] reads the flags once and makes no flag-update call. *)
Theorem already_seen_reads_flags_once :
  forall ctx m (s : fetch_state W) f w1,
  update_seen ctx = true ->
  mail_get_flags m (world s) = (Some f, w1) ->
  Z.land (flags f) MAIL_SEEN <> 0 ->
  exists rest,
    calls (snd (fetch_mail ctx m s)) = calls s ++ CGetFlags m (Some f) :: rest
    /\ Forall not_flag rest.
Proof.
  intros ctx m s f w1 Hu Hg Hs. unfold fetch_mail. rewrite bind_eq.
  assert (Hphase : seen_phase ctx m s
                   = (Some (Some f, false),
                      {| world := w1; calls := calls s ++ [CGetFlags m (Some f)];
                         str := str s; first := first s |})).
  { unfold seen_phase. rewrite Hu. cbn [negb]. rewrite bind_eq.
    cbn [call fst snd]. rewrite Hg. cbn [fst snd].
    apply Z.eqb_neq in Hs. rewrite Hs. reflexivity. }
  rewrite Hphase. cbn [fst snd].
  match goal with |- context [snd (?run ?st)] =>
    destruct (emits_line_given_flags ctx m f false st) as (rest & E & F) end.
  exists rest. rewrite E. cbn [calls]. rewrite <- app_assoc.
  split; [reflexivity | exact F].
Qed.

(** *** Read-only mailboxes *)

Definition no_update (e : call_event) : Prop := is_update_call e = false.

Lemma getter_no_update : forall e, getter e -> no_update e.
Proof. intros e. unfold getter, no_update. destruct e; cbn; congruence. Qed.

Lemma output_no_update : forall e, output e -> no_update e.
Proof. intros e. unfold output, no_update. destruct e; cbn; congruence. Qed.

Lemma tracks_fetch_flags_no_update : forall m fl,
  tracks no_update is_true (fetch_flags m fl).
Proof.
  intros m fl. unfold fetch_flags.
  apply tracks_bind with (g1 := is_some).
  - destruct fl as [f|]; [apply tracks_ret; reflexivity|].
    apply tracks_call; [intros; reflexivity | intros [f|]; reflexivity].
  - intros [f|] Hf; [|discriminate].
    apply tracks_silent_bind; [apply silent_str_printfa|].
    intros _. apply tracks_ret. reflexivity.
  - intros [f|] Hf; [discriminate|]. apply fails_ret. reflexivity.
Qed.

(** [fetch_mail] from [t_push] on makes no flag update. *)
Lemma emits_line_no_update : forall ctx m fl seen_updated,
  emits no_update
    (set_str (line_header m) ;;;
     data_written <-
       and_then (fetch_tokens ctx m fl seen_updated)
                (send_line (String.length (line_header m))) ;;
     if data_written then
       ok <- fetch_large ctx m ;;
       closed <- call (o_stream_send (")" ++ CRLF)) (CSend (")" ++ CRLF)) ;;
       ret (ok && closed)
     else ret false).
Proof.
  intros ctx m fl su.
  apply emits_bind; [intros s; exists []; split; [symmetry; apply app_nil_r | constructor]|].
  intros _. apply emits_bind.
  - apply tracks_emits with (good := is_true). apply tracks_and_then.
    + unfold fetch_tokens.
      apply tracks_and_then; [apply tracks_when, tracks_fetch_uid|].
      apply tracks_and_then; [apply tracks_when, tracks_fetch_flags_no_update|].
      eapply tracks_weaken; [apply getter_no_update | apply tracks_tokens_after_flags].
    + eapply tracks_weaken; [apply output_no_update | apply tracks_send_line].
  - intros [|]; [|apply emits_ret].
    apply tracks_emits with (good := is_true).
    eapply tracks_weaken; [apply output_no_update | apply tracks_finish_line].
Qed.

Lemma emits_fetch_mail_no_update : forall ctx m,
  update_seen ctx = false -> emits no_update (fetch_mail ctx m).
Proof.
  intros ctx m Hu. unfold fetch_mail, seen_phase. rewrite Hu. cbn [negb].
  apply emits_bind; [apply emits_ret|].
  intros [[fl su]|]; [apply emits_line_no_update | apply emits_ret].
Qed.

Lemma emits_fetch_loop_no_update : forall ctx mails,
  update_seen ctx = false -> emits no_update (fetch_loop ctx mails).
Proof.
  intros ctx mails Hu. induction mails as [|m rest IH]; cbn [fetch_loop].
  - apply emits_ret.
  - unfold and_then. apply emits_bind; [apply emits_fetch_mail_no_update; exact Hu|].
    intros [|]; [exact IH | apply emits_ret].
Qed.

(** X6: given a read-only mailbox, [imap_fetch] makes no flag-update call,
    whatever is requested. *)
Theorem readonly_fetch_never_updates_flags :
  forall fetch_data imap_data bs messageset uidset (s : fetch_state W),
  box_is_readonly (world s) = true ->
  exists evs,
    calls (snd (imap_fetch fetch_data imap_data bs messageset uidset s))
    = calls s ++ evs
    /\ Forall (fun e => is_update_call e = false) evs.
Proof.
  intros fd id bs ms uidset s Hro. unfold imap_fetch.
  set (ctx := {| fetch_data := fd |}).
  assert (Hu : update_seen ctx = false).
  { subst ctx. cbn [update_seen]. unfold decide_update_seen. rewrite Hro.
    reflexivity. }
  rewrite Hu.
  assert (E : emits no_update
    (clear_ctx ;;;
     locked <- ret true ;;
     (if locked
      then r <- fetch_messages ctx ms uidset ;;
           call (box_lock MAILBOX_LOCK_UNLOCK) (CLock MAILBOX_LOCK_UNLOCK) ;;;
           ret (if fst r then -1 else snd r)
      else ret (-1)))).
  { apply emits_bind;
      [intros s1; exists []; split; [symmetry; apply app_nil_r | constructor]|].
    intros _. apply emits_bind; [apply emits_ret|].
    intros [|]; [|apply emits_ret].
    apply emits_bind.
    - unfold fetch_messages. apply emits_bind.
      + apply emits_call. intros; reflexivity.
      + intros [mails|]; [|apply emits_ret].
        apply emits_bind; [apply emits_fetch_loop_no_update; exact Hu|].
        intros ok. apply emits_bind; [apply emits_call; intros; reflexivity|].
        intros d. apply emits_ret.
    - intros r. apply emits_bind; [apply emits_call; intros; reflexivity|].
      intros _. apply emits_ret. }
  exact (E s).
Qed.

(** *** The response line of one message *)

Definition is_send (e : call_event) : bool :=
  match e with
  | CSend _ _ => true
  | _ => false
  end.

Definition no_send (e : call_event) : Prop := is_send e = false.

Lemma getter_no_send : forall e, getter e -> no_send e.
Proof. intros e. unfold getter, no_send. destruct e; cbn; congruence. Qed.

Lemma tracks_fetch_flags_no_send : forall m fl,
  tracks no_send is_true (fetch_flags m fl).
Proof.
  intros m fl. unfold fetch_flags.
  apply tracks_bind with (g1 := is_some).
  - destruct fl as [f|]; [apply tracks_ret; reflexivity|].
    apply tracks_call; [intros; reflexivity | intros [f|]; reflexivity].
  - intros [f|] Hf; [|discriminate].
    apply tracks_silent_bind; [apply silent_str_printfa|].
    intros _. apply tracks_ret. reflexivity.
  - intros [f|] Hf; [discriminate|]. apply fails_ret. reflexivity.
Qed.

Lemma tracks_fetch_tokens_no_send : forall ctx m fl seen_updated,
  tracks no_send is_true (fetch_tokens ctx m fl seen_updated).
Proof.
  intros ctx m fl su. unfold fetch_tokens.
  apply tracks_and_then; [apply tracks_when, tracks_fetch_uid|].
  apply tracks_and_then; [apply tracks_when, tracks_fetch_flags_no_send|].
  eapply tracks_weaken; [apply getter_no_send | apply tracks_tokens_after_flags].
Qed.

Lemma emits_seen_phase_no_send : forall ctx m,
  emits no_send (seen_phase ctx m).
Proof.
  intros ctx m. unfold seen_phase.
  destruct (negb (update_seen ctx)); [apply emits_ret|].
  apply emits_bind; [apply emits_call; intros; reflexivity|].
  intros [f|]; [|apply emits_ret].
  destruct (Z.land (flags f) MAIL_SEEN =? 0); [|apply emits_ret].
  apply emits_bind; [apply emits_call; intros; reflexivity|].
  intros []; apply emits_ret.
Qed.

Lemma appends_fetch_uid : forall m, appends (fetch_uid m).
Proof.
  intros m s _. unfold fetch_uid. rewrite bind_eq. cbn [ret snd str_printfa str].
  eexists. split; [reflexivity|]. right.
  repeat apply ends_spaced_app. apply ends_spaced_space.
Qed.

Lemma appends_fetch_flags : forall m fl, appends (fetch_flags m fl).
Proof.
  intros m fl s. unfold fetch_flags. rewrite bind_eq.
  destruct fl as [f|].
  - cbn [ret fst snd]. rewrite bind_eq. intros _.
    cbn [ret snd str_printfa str]. eexists. split; [reflexivity|]. right.
    repeat apply ends_spaced_app. exists ")"%string. reflexivity.
  - destruct (fst (call (mail_get_flags m) (CGetFlags m) s)) as [f|];
      [|discriminate].
    rewrite bind_eq. intros _.
    cbn [ret snd str_printfa str call]. eexists. split; [reflexivity|]. right.
    repeat apply ends_spaced_app. exists ")"%string. reflexivity.
Qed.

Lemma appends_fetch_tokens : forall ctx m fl seen_updated,
  appends (fetch_tokens ctx m fl seen_updated).
Proof.
  intros ctx m fl su. unfold fetch_tokens.
  apply appends_and_then; [apply appends_when, appends_fetch_uid|].
  apply appends_and_then; [apply appends_when, appends_fetch_flags|].
  apply appends_tokens_after_flags.
Qed.

(** The line handed to the output stream begins with the text the tokens
    were appended to. *)
Lemma line_out_begins : forall (hdr t : string),
  (t = ""%string \/ ends_spaced t) ->
  exists text, line_out (String.length hdr) (hdr ++ t) = (hdr ++ text)%string.
Proof.
  intros hdr t [-> | [t' ->]]; unfold line_out.
  - rewrite str_app_nil_r, Nat.eqb_refl. exists ""%string.
    symmetry. apply str_app_nil_r.
  - assert (Hlen : (String.length hdr
                    < String.length (hdr ++ t' ++ " "))%nat).
    { rewrite !str_length_app. cbn [String.length]. lia. }
    apply Nat.lt_neq, not_eq_sym, Nat.eqb_neq in Hlen. rewrite Hlen.
    exists t'. rewrite <- str_app_assoc. apply str_truncate_last.
Qed.

(** X17: the response line of a message is framed.  Whatever fails,
    [fetch_mail] either sends nothing, or fails to send the opening of the
    line and sends nothing more, or sends the opening ["* <seq> FETCH ("]
    with the tokens and, as its last call, the closing [")"] and line end.
    When it reports success, the closing was written. *)
Theorem fetch_mail_frames_line : forall ctx m (s : fetch_state W),
  let r := fetch_mail ctx m s in
  exists evs,
    calls (snd r) = calls s ++ evs
    /\ ((Forall no_send evs /\ fst r = false)
        \/ (exists pre text,
              evs = pre ++ [CSend (line_header m ++ text) false]
              /\ Forall no_send pre /\ fst r = false)
        \/ (exists pre text mid closed,
              evs = pre ++ CSend (line_header m ++ text) true
                        :: mid ++ [CSend (")" ++ CRLF) closed]
              /\ Forall no_send pre
              /\ (fst r = true -> closed = true))).
Proof.
  intros ctx m s. cbv zeta. unfold fetch_mail. rewrite bind_eq.
  destruct (emits_seen_phase_no_send ctx m s) as (e0 & E0 & F0).
  destruct (fst (seen_phase ctx m s)) as [[fl su]|].
  2:{ exists e0. split; [exact E0|]. left. split; [exact F0|reflexivity]. }
  rewrite bind_eq. cbn [set_str fst snd].
  match goal with
  | |- context [bind _ _ ?st] => set (s1 := st)
  end.
  rewrite bind_eq, and_then_eq.
  destruct (tracks_fetch_tokens_no_send ctx m fl su s1) as (e1 & E1 & F1 & _).
  pose proof (appends_fetch_tokens ctx m fl su s1) as Ha.
  destruct (fst (fetch_tokens ctx m fl su s1)).
  - destruct (Ha eq_refl) as (t & Et & St).
    rewrite send_line_eq, Et. cbn [fst snd].
    change (str s1) with (line_header m).
    destruct (line_out_begins (line_header m) t St) as (text & ->).
    destruct (fst (o_stream_send (line_header m ++ text)
                     (world (snd (fetch_tokens ctx m fl su s1))))).
    + rewrite bind_eq.
      match goal with
      | |- context [fetch_large ctx m ?st] =>
          destruct (tracks_emits _ _ _ _ (tracks_fetch_large ctx m) st)
            as (e3 & E3 & _);
          set (s3 := st) in *
      end.
      rewrite bind_eq. cbn [call ret fst snd calls].
      exists (e0 ++ e1 ++ CSend (line_header m ++ text) true
                 :: e3 ++ [CSend (")" ++ CRLF)
                             (fst (o_stream_send (")" ++ CRLF)
                                     (world (snd (fetch_large ctx m s3)))))]).
      split.
      * rewrite E3. subst s3. cbn [calls]. rewrite E1. subst s1. cbn [calls].
        rewrite E0, <- !app_assoc. reflexivity.
      * right. right. exists (e0 ++ e1), text, e3. eexists.
        split; [rewrite <- app_assoc; reflexivity|].
        split; [apply Forall_app; split; assumption|].
        intros Hok. apply andb_true_iff in Hok. apply Hok.
    + cbn [ret fst snd calls].
      exists (e0 ++ e1 ++ [CSend (line_header m ++ text) false]). split.
      * rewrite E1. subst s1. cbn [calls]. rewrite E0, <- !app_assoc.
        reflexivity.
      * right. left. exists (e0 ++ e1), text.
        split; [rewrite <- app_assoc; reflexivity|].
        split; [apply Forall_app; split; assumption | reflexivity].
  - cbn [ret fst snd]. exists (e0 ++ e1). split.
    + rewrite E1. subst s1. cbn [calls]. rewrite E0, <- app_assoc.
      reflexivity.
    + left. split; [apply Forall_app; split; assumption | reflexivity].
Qed.

(** *** The space between the tokens and the first literal *)





















(** The text in [ctx->str] when [fetch_mail] reaches "send the data
    written into temp string": the opening of the line and the tokens,
    each followed by a space.  [None] when the message fails before. *)
Definition tokens_written (ctx : imap_fetch_context) (m : mail)
  (s : fetch_state W) : option string :=
  match fst (seen_phase ctx m s) with
  | None => None
  | Some (fl, seen_updated) =>
      if fst (fetch_tokens ctx m fl seen_updated
                (snd (set_str (line_header m) (snd (seen_phase ctx m s)))))
      then Some (str (snd (fetch_tokens ctx m fl seen_updated
                             (snd (set_str (line_header m)
                                     (snd (seen_phase ctx m s)))))))
      else None
  end.


(** *** The loop over the messages *)

(** The loop over a list in two parts. *)
Lemma fetch_loop_app : forall ctx before after (s : fetch_state W),
  fetch_loop ctx (before ++ after) s
  = if fst (fetch_loop ctx before s)
    then fetch_loop ctx after (snd (fetch_loop ctx before s))
    else fetch_loop ctx before s.
Proof.
  intros ctx before after. induction before as [|m rest IH]; intros s.
  - reflexivity.
  - cbn [app fetch_loop]. rewrite !and_then_eq.
    destruct (fst (fetch_mail ctx m s)); [apply IH | reflexivity].
Qed.

(** X18: the message loop hands the messages to [fetch_mail] in order, each
    in the state the one before it left, and stops at the first one for
    which [fetch_mail] fails: the loop then fails in the state that
    [fetch_mail] left, and the messages after it are not touched.  When
    no message fails, the loop succeeds. *)
Theorem fetch_loop_stops_at_failure :
  forall ctx before m after (s : fetch_state W),
  fst (fetch_loop ctx before s) = true ->
  fetch_loop ctx (before ++ [m]) s
  = fetch_mail ctx m (snd (fetch_loop ctx before s))
  /\ (fst (fetch_mail ctx m (snd (fetch_loop ctx before s))) = false ->
      fetch_loop ctx (before ++ m :: after) s
      = fetch_mail ctx m (snd (fetch_loop ctx before s)))
  /\ (fst (fetch_mail ctx m (snd (fetch_loop ctx before s))) = true ->
      fetch_loop ctx (before ++ m :: after) s
      = fetch_loop ctx after
          (snd (fetch_mail ctx m (snd (fetch_loop ctx before s))))).
Proof.
  intros ctx before m after s Hbefore.
  rewrite !fetch_loop_app, Hbefore. cbn [fetch_loop].
  rewrite !and_then_eq.
  destruct (fetch_mail ctx m (snd (fetch_loop ctx before s))) as [ok s'].
  cbn [fst snd ret]. destruct ok; repeat split; try discriminate; reflexivity.
Qed.

(** X19: the iterator of a FETCH is always released.  Unless the up-front
    lock fails, [imap_fetch] calls [fetch_init] once; when that fails the
    unlock follows at once, and otherwise the calls on the mails and the
    output are followed by one [fetch_deinit] and then the unlock, also
    when a message failed. *)
Theorem fetch_iterator_is_released :
  forall fetch_data imap_data bs messageset uidset (s : fetch_state W),
  let r := imap_fetch fetch_data imap_data bs messageset uidset s in
  (exists lock_flags, calls (snd r) = calls s ++ [CLock lock_flags false])
  \/ exists pre wanted unlocked,
       (pre = [] \/ exists lock_flags, pre = [CLock lock_flags true])
       /\ (calls (snd r)
           = calls s ++ pre
             ++ [CFetchInit fetch_data wanted messageset uidset false;
                 CLock MAILBOX_LOCK_UNLOCK unlocked]
           \/ exists per_mail ok all_found,
                calls (snd r)
                = calls s ++ pre
                  ++ CFetchInit fetch_data wanted messageset uidset true
                  :: per_mail
                  ++ [CFetchDeinit ok all_found;
                      CLock MAILBOX_LOCK_UNLOCK unlocked]
                /\ Forall mail_call per_mail).
Proof.
  intros fd id bs ms uidset s. cbv zeta. unfold imap_fetch.
  set (ctx := {| fetch_data := fd |}).
  assert (Hrun : forall s1 : fetch_state W,
    let run :=
      (r <- fetch_messages ctx ms uidset ;;
       call (box_lock MAILBOX_LOCK_UNLOCK) (CLock MAILBOX_LOCK_UNLOCK) ;;;
       ret (if fst r then -1 else snd r)) s1 in
    exists unlocked,
      calls (snd run)
      = calls s1 ++ [CFetchInit fd (wanted_headers bs) ms uidset false;
                     CLock MAILBOX_LOCK_UNLOCK unlocked]
      \/ exists per_mail ok all_found,
           calls (snd run)
           = calls s1 ++ CFetchInit fd (wanted_headers bs) ms uidset true
               :: per_mail
               ++ [CFetchDeinit ok all_found;
                   CLock MAILBOX_LOCK_UNLOCK unlocked]
           /\ Forall mail_call per_mail).
  { intros s1. cbv zeta. unfold bind.
    pose proof (fetch_messages_calls ctx ms uidset s1) as Hc.
    set (fm := fetch_messages ctx ms uidset s1) in *.
    exists (fst (box_lock MAILBOX_LOCK_UNLOCK (world (snd fm)))).
    cbn [call ret fst snd calls].
    destruct Hc as [Hc | (per_mail & ok & af & Hc & F)].
    - left. rewrite Hc. rewrite <- !app_assoc. reflexivity.
    - right. exists per_mail, ok, af. split; [|exact F].
      rewrite Hc. rewrite <- !app_assoc. cbn [app].
      rewrite <- ?app_assoc. reflexivity. }
  rewrite bind_eq. cbn [clear_ctx fst snd].
  set (s0 := {| world := world s |}).
  change (calls s) with (calls s0).
  match goal with |- context [bind ?L ?K s0] =>
    change (bind L K s0) with (K (fst (L s0)) (snd (L s0))) end.
  cbv beta. destruct (update_seen ctx).
  - set (lk := call _ _ s0).
    destruct (fst lk) eqn:Hlock.
    + right. destruct (Hrun (snd lk)) as (unlocked & Hc).
      exists [CLock (Z.lor MAILBOX_LOCK_FLAGS MAILBOX_LOCK_READ) true],
        (wanted_headers bs), unlocked.
      split; [right; eauto|].
      destruct Hc as [Hc | (per_mail & ok & af & Hc & F)].
      * left. rewrite Hc. subst lk. cbn [call snd calls fst] in *.
        rewrite Hlock, <- !app_assoc. reflexivity.
      * right. exists per_mail, ok, af. split; [|exact F].
        rewrite Hc. subst lk. cbn [call snd calls fst] in *.
        rewrite Hlock, <- !app_assoc. reflexivity.
    + left. exists (Z.lor MAILBOX_LOCK_FLAGS MAILBOX_LOCK_READ).
      subst lk. cbn [call snd calls fst ret] in *. rewrite Hlock.
      reflexivity.
  - right. cbn [ret fst snd].
    destruct (Hrun s0) as (unlocked & Hc).
    exists [], (wanted_headers bs), unlocked.
    split; [left; reflexivity|]. exact Hc.
Qed.

End EngineProofs.

(** ** A concrete mailbox *)

(** A mailbox whose mails have stored flags and fixed sizes; nothing fails
    unless [tw_sections_ok] is cleared. *)
Record toy_world : Type :=
  { tw_readonly : bool;
    tw_mails : list mail;
    tw_flags : list (N * Z);
    tw_all_found : Z;
    tw_sections_ok : bool }.

Fixpoint toy_lookup (u : N) (l : list (N * Z)) : Z :=
  match l with
  | [] => 0
  | (u', f) :: rest => if (u =? u')%N then f else toy_lookup u rest
  end.

Fixpoint toy_add (u : N) (bits : Z) (l : list (N * Z)) : list (N * Z) :=
  match l with
  | [] => [(u, bits)]
  | (u', f) :: rest =>
      if (u =? u')%N then (u', Z.lor f bits) :: rest
      else (u', f) :: toy_add u bits rest
  end.

Definition toy_update (m : mail) (f : mail_full_flags) (w : toy_world)
  : toy_world :=
  {| tw_readonly := tw_readonly w; tw_mails := tw_mails w;
     tw_flags := toy_add (uid m) (flags f) (tw_flags w);
     tw_all_found := tw_all_found w; tw_sections_ok := tw_sections_ok w |}.

#[local] Instance toy_mailbox_ops : MailboxOps toy_world :=
  {| box_is_readonly := tw_readonly;
     box_lock := fun _ w => (true, w);
     box_fetch_init := fun _ _ _ _ w => (Some (tw_mails w), w);
     box_fetch_deinit := fun w => (true, tw_all_found w, w);
     mail_get_flags := fun m w =>
       (Some {| flags := toy_lookup (uid m) (tw_flags w); custom_flags := [] |}, w);
     mail_update_flags := fun m f _ w => (true, toy_update m f w);
     mail_get_received_date := fun _ w => (0, w);
     mail_get_size := fun m w => ((100 * seq m)%N, w);
     mail_get_special := fun _ _ w => (None, w);
     mail_get_stream := fun _ _ w => (None, w);
     o_stream_send := fun _ w => (true, w);
     i_stream_seek := fun _ _ w => w;
     message_send := fun _ _ _ w => (true, w);
     imap_fetch_body_section := fun _ _ _ w => (tw_sections_ok w, false, w);
     imap_write_flags := fun f =>
       if Z.land (flags f) 8 =? 0 then "" else "\Seen";
     imap_to_datetime := fun _ => "01-Jan-2003 00:00:00 +0000" |}.

(** Distinct bits for the request flags. *)
#[local] Instance toy_fetch_enums : FetchEnums :=
  {| MAIL_FETCH_FLAGS := 1;
     MAIL_FETCH_RECEIVED_DATE := 2;
     MAIL_FETCH_SIZE := 4;
     MAIL_FETCH_IMAP_BODY := 8;
     MAIL_FETCH_IMAP_BODYSTRUCTURE := 16;
     MAIL_FETCH_IMAP_ENVELOPE := 32;
     IMAP_FETCH_UID := 1;
     IMAP_FETCH_RFC822 := 2;
     IMAP_FETCH_RFC822_HEADER := 4;
     IMAP_FETCH_RFC822_TEXT := 8;
     MAIL_SEEN := 8;
     MODIFY_ADD := 0;
     MAILBOX_LOCK_UNLOCK := 0;
     MAILBOX_LOCK_READ := 1;
     MAILBOX_LOCK_FLAGS := 2 |}.

Definition toy_mail (n : N) : mail :=
  {| seq := n; uid := (10 + n)%N; has_no_nuls := true |}.

(** Three messages, none of them seen; the iterator reports that every
    requested message was found. *)
Definition toy_inbox : toy_world :=
  {| tw_readonly := false;
     tw_mails := [toy_mail 1; toy_mail 2; toy_mail 3];
     tw_flags := [];
     tw_all_found := 1;
     tw_sections_ok := true |}.

Definition toy_start (w : toy_world) : fetch_state toy_world :=
  {| world := w; calls := []; str := ""; first := false |}.

(** C1 (counterexample): UID, FLAGS and RFC822.SIZE of the message set 1:3
    of a mailbox of three messages: three lines are sent and the call
    returns 1, the iterator's [all_found], not the count 3. *)
Lemma fetch_returns_all_found_not_count :
  fst (imap_fetch (Z.lor MAIL_FETCH_FLAGS MAIL_FETCH_SIZE) IMAP_FETCH_UID []
         "1:3" false (toy_start toy_inbox)) = 1
  /\ sent (calls (snd (imap_fetch (Z.lor MAIL_FETCH_FLAGS MAIL_FETCH_SIZE)
                        IMAP_FETCH_UID [] "1:3" false (toy_start toy_inbox))))
     = [ "* 1 FETCH (UID 11 FLAGS () RFC822.SIZE 100"; (")" ++ CRLF)%string;
         "* 2 FETCH (UID 12 FLAGS () RFC822.SIZE 200"; (")" ++ CRLF)%string;
         "* 3 FETCH (UID 13 FLAGS () RFC822.SIZE 300"; (")" ++ CRLF)%string ]
  /\ List.length (tw_mails toy_inbox) = 3%nat.
Proof. vm_compute. repeat split. Qed.

(** A body section that fails ends the loop over the sections only: the
    line is closed and the call returns [all_found]. *)
Example failed_body_section_is_not_reported :
  let w := {| tw_readonly := false; tw_mails := [toy_mail 1]; tw_flags := [];
              tw_all_found := 1; tw_sections_ok := false |} in
  let r := imap_fetch 0 0 [ {| section := "1"; peek := true |} ] "1" false
             (toy_start w) in
  fst r = 1
  /\ calls (snd r)
     = [ CFetchInit 0 None "1" false true;
         CSend "* 1 FETCH (" true;
         CBodySection {| section := "1"; peek := true |} (toy_mail 1) false;
         CSend (")" ++ CRLF)%string true;
         CFetchDeinit true 1;
         CLock 0 true ].
Proof. vm_compute. repeat split. Qed.

(** The requests of the spec's two examples, and sections that begin with
    "HEADER.FIELDS " without the parenthesised list. *)
Definition peek_section (text : string) : imap_fetch_body_data :=
  {| section := text; peek := true |}.

Example header_fields_hint_example :
  wanted_headers [ peek_section "HEADER.FIELDS (From Subject)";
                   peek_section "HEADER.FIELDS (To)" ]
  = Some ["From"; "Subject"; "To"]
  /\ wanted_headers [ peek_section "HEADER.FIELDS (From Subject)";
                      peek_section "1" ]
     = None.
Proof. split; reflexivity. Qed.

(** C8 (counterexample): sections that are not of the form
    "HEADER.FIELDS (...)" and still do not disable the hint. *)
Lemma hint_given_without_parentheses :
  wanted_headers [ peek_section "HEADER.FIELDS From Subject" ]
  = Some ["From"; "Subject"]
  /\ wanted_headers [ peek_section "HEADER.FIELDS " ] = Some []
  /\ wanted_headers [ peek_section "HEADER.FIELDS (From) (To" ]
     = Some ["From"; "(To"].
Proof. repeat split. Qed.

(** A request that makes \Seen auto-update apply, for a message that is
    not seen yet. *)
Definition toy_ctx : imap_fetch_context :=
  {| fetch_data := MAIL_FETCH_FLAGS; imap_data := 0; bodies := [];
     update_seen := true;
     seen_flag := {| flags := MAIL_SEEN; custom_flags := [] |} |}.

Definition toy_seen_inbox : toy_world :=
  toy_update (toy_mail 1) (seen_flag toy_ctx) toy_inbox.

(** C3 (counterexample): the calls of [fetch_mail] for the unseen message:
    after the one update the flags are read from the mail a second time,
    and the FLAGS token shows what that read returned. *)
Lemma flags_are_read_again_after_update :
  calls (snd (fetch_mail toy_ctx (toy_mail 1) (toy_start toy_inbox)))
  = [ CGetFlags (toy_mail 1) (Some {| flags := 0; custom_flags := [] |});
      CUpdateFlags (toy_mail 1) {| flags := 8; custom_flags := [] |} 0 true;
      CGetFlags (toy_mail 1) (Some {| flags := 8; custom_flags := [] |});
      CSend "* 1 FETCH (FLAGS (\Seen)" true;
      CSend (")" ++ CRLF)%string true ].
Proof. vm_compute. reflexivity. Qed.

Lemma seen_update_refetches_flags_witness :
  exists rest,
    calls (snd (fetch_mail toy_ctx (toy_mail 1) (toy_start toy_inbox)))
    = calls (toy_start toy_inbox)
      ++ [CGetFlags (toy_mail 1) (Some {| flags := 0; custom_flags := [] |});
          CUpdateFlags (toy_mail 1) (seen_flag toy_ctx) MODIFY_ADD true;
          CGetFlags (toy_mail 1)
            (fst (mail_get_flags (toy_mail 1) toy_seen_inbox))] ++ rest
    /\ Forall not_flag rest
    /\ match fst (mail_get_flags (toy_mail 1) toy_seen_inbox) with
       | None =>
           rest = []
           /\ fst (fetch_mail toy_ctx (toy_mail 1) (toy_start toy_inbox)) = false
       | Some f2 =>
           forall line, first_send rest = Some line ->
           exists a b,
             line = (a ++ "FLAGS (" ++ imap_write_flags f2 ++ ")" ++ b)%string
       end.
Proof.
  exact (seen_update_refetches_flags toy_ctx (toy_mail 1) (toy_start toy_inbox)
           {| flags := 0; custom_flags := [] |} toy_inbox toy_seen_inbox
           eq_refl eq_refl eq_refl eq_refl).
Defined.

Definition toy_readonly_inbox : toy_world :=
  {| tw_readonly := true;
     tw_mails := [toy_mail 1; toy_mail 2; toy_mail 3];
     tw_flags := []; tw_all_found := 1; tw_sections_ok := true |}.

Lemma readonly_fetch_never_updates_flags_witness :
  exists evs,
    calls (snd (imap_fetch MAIL_FETCH_FLAGS IMAP_FETCH_RFC822_TEXT
                  [ {| section := "1"; peek := false |} ] "1:3" false
                  (toy_start toy_readonly_inbox)))
    = calls (toy_start toy_readonly_inbox) ++ evs
    /\ Forall (fun e => is_update_call e = false) evs.
Proof.
  exact (readonly_fetch_never_updates_flags MAIL_FETCH_FLAGS
           IMAP_FETCH_RFC822_TEXT [ {| section := "1"; peek := false |} ]
           "1:3" false (toy_start toy_readonly_inbox) eq_refl).
Defined.

Lemma toy_seen_inbox_flags :
  mail_get_flags (toy_mail 1) (world (toy_start toy_seen_inbox))
  = (Some {| flags := 8; custom_flags := [] |}, toy_seen_inbox).
Proof. vm_compute. reflexivity. Defined.

Lemma already_seen_reads_flags_once_witness :
  exists rest,
    calls (snd (fetch_mail toy_ctx (toy_mail 1) (toy_start toy_seen_inbox)))
    = calls (toy_start toy_seen_inbox)
      ++ CGetFlags (toy_mail 1) (Some {| flags := 8; custom_flags := [] |}) :: rest
    /\ Forall not_flag rest.
Proof.
  apply (already_seen_reads_flags_once toy_ctx (toy_mail 1)
           (toy_start toy_seen_inbox) {| flags := 8; custom_flags := [] |}
           toy_seen_inbox eq_refl toy_seen_inbox_flags).
  discriminate.
Defined.

(** ** A mailbox whose messages can be streamed *)

(** The header and body sizes of every message; no call fails. *)
Record mail_store : Type :=
  { ms_header : message_size; ms_body : message_size }.

#[local] Instance mail_store_ops : MailboxOps mail_store :=
  {| box_is_readonly := fun _ => true;
     box_lock := fun _ w => (true, w);
     box_fetch_init := fun _ _ _ _ w => (Some [toy_mail 1], w);
     box_fetch_deinit := fun w => (true, 1, w);
     mail_get_flags := fun _ w => (Some {| flags := 0; custom_flags := [] |}, w);
     mail_update_flags := fun _ _ _ w => (true, w);
     mail_get_received_date := fun _ w => (0, w);
     mail_get_size := fun _ w => (virtual_size (ms_body w), w);
     mail_get_special := fun _ _ w => (None, w);
     mail_get_stream := fun _ _ w => (Some (5, ms_header w, ms_body w), w);
     o_stream_send := fun _ w => (true, w);
     i_stream_seek := fun _ _ w => w;
     message_send := fun _ _ _ w => (true, w);
     imap_fetch_body_section := fun _ _ _ w => (true, false, w);
     imap_write_flags := fun _ => "";
     imap_to_datetime := fun _ => "01-Jan-2003 00:00:00 +0000" |}.

Definition small_header : message_size :=
  {| physical_size := 10; virtual_size := 12; lines := 2 |}.

Definition small_body : message_size :=
  {| physical_size := 17; virtual_size := 18; lines := 1 |}.

Definition small_store : fetch_state mail_store :=
  {| world := {| ms_header := small_header; ms_body := small_body |};
     calls := []; str := ""; first := false |}.

(** UID and RFC822 of a message. *)
Definition uid_rfc822_ctx : imap_fetch_context :=
  {| fetch_data := 0; imap_data := Z.lor IMAP_FETCH_UID IMAP_FETCH_RFC822;
     bodies := []; update_seen := false;
     seen_flag := {| flags := MAIL_SEEN; custom_flags := [] |} |}.




(** The text written by the tokens of the witness ends with the space
    that the line sent does not have. *)
Example uid_tokens_written :
  tokens_written uid_rfc822_ctx (toy_mail 1) small_store
  = Some "* 1 FETCH (UID 11 ".
Proof. vm_compute. reflexivity. Qed.

(** ** A mailbox with a message whose size cannot be read *)

Record sized_box : Type := { unreadable_seq : N }.

#[local] Instance sized_box_ops : MailboxOps sized_box :=
  {| box_is_readonly := fun _ => true;
     box_lock := fun _ w => (true, w);
     box_fetch_init := fun _ _ _ _ w =>
       (Some [toy_mail 1; toy_mail 2; toy_mail 3], w);
     box_fetch_deinit := fun w => (true, 1, w);
     mail_get_flags := fun _ w => (Some {| flags := 0; custom_flags := [] |}, w);
     mail_update_flags := fun _ _ _ w => (true, w);
     mail_get_received_date := fun _ w => (0, w);
     mail_get_size := fun m w =>
       (if (seq m =? unreadable_seq w)%N then UOFF_T_MAX else (100 * seq m)%N,
        w);
     mail_get_special := fun _ _ w => (None, w);
     mail_get_stream := fun _ _ w => (None, w);
     o_stream_send := fun _ w => (true, w);
     i_stream_seek := fun _ _ w => w;
     message_send := fun _ _ _ w => (true, w);
     imap_fetch_body_section := fun _ _ _ w => (true, false, w);
     imap_write_flags := fun _ => "";
     imap_to_datetime := fun _ => "01-Jan-2003 00:00:00 +0000" |}.

(** The size of the second message cannot be read. *)
Definition second_unreadable : fetch_state sized_box :=
  {| world := {| unreadable_seq := 2 |}; calls := []; str := "";
     first := false |}.

Definition size_ctx : imap_fetch_context :=
  {| fetch_data := MAIL_FETCH_SIZE; imap_data := 0; bodies := [];
     update_seen := false;
     seen_flag := {| flags := MAIL_SEEN; custom_flags := [] |} |}.

Lemma first_message_fetched :
  fst (fetch_loop size_ctx [toy_mail 1] second_unreadable) = true.
Proof. vm_compute. reflexivity. Defined.

Lemma fetch_loop_stops_at_failure_witness :
  fetch_loop size_ctx ([toy_mail 1] ++ [toy_mail 2]) second_unreadable
  = fetch_mail size_ctx (toy_mail 2)
      (snd (fetch_loop size_ctx [toy_mail 1] second_unreadable))
  /\ (fst (fetch_mail size_ctx (toy_mail 2)
             (snd (fetch_loop size_ctx [toy_mail 1] second_unreadable)))
      = false ->
      fetch_loop size_ctx ([toy_mail 1] ++ toy_mail 2 :: [toy_mail 3])
        second_unreadable
      = fetch_mail size_ctx (toy_mail 2)
          (snd (fetch_loop size_ctx [toy_mail 1] second_unreadable)))
  /\ (fst (fetch_mail size_ctx (toy_mail 2)
             (snd (fetch_loop size_ctx [toy_mail 1] second_unreadable)))
      = true ->
      fetch_loop size_ctx ([toy_mail 1] ++ toy_mail 2 :: [toy_mail 3])
        second_unreadable
      = fetch_loop size_ctx [toy_mail 3]
          (snd (fetch_mail size_ctx (toy_mail 2)
                  (snd (fetch_loop size_ctx [toy_mail 1] second_unreadable))))).
Proof.
  exact (fetch_loop_stops_at_failure size_ctx [toy_mail 1] (toy_mail 2)
           [toy_mail 3] second_unreadable first_message_fetched).
Defined.

(** The loop over the three messages: the first line is sent, the second
    message fails at its size, the third is not touched. *)
Example loop_stops_at_second_message :
  fst (fetch_loop size_ctx [toy_mail 1; toy_mail 2; toy_mail 3]
         second_unreadable) = false
  /\ calls (snd (fetch_loop size_ctx [toy_mail 1; toy_mail 2; toy_mail 3]
                   second_unreadable))
     = [ CGetSize (toy_mail 1) 100;
         CSend "* 1 FETCH (RFC822.SIZE 100" true;
         CSend (")" ++ CRLF)%string true;
         CGetSize (toy_mail 2) UOFF_T_MAX ].
Proof. vm_compute. split; reflexivity. Qed.

End Fetch.

(* ================================================================== *)
(** * Cache-field configuration (index-storage.c) *)
(* ================================================================== *)

Module CacheFields.

Local Open Scope string_scope.
Local Open Scope list_scope.
Local Open Scope Z_scope.

(** The bits of [enum mail_cache_field] listed in [field_masks]
    (mail-index.h is not among the sources, so their values are
    parameters). *)
Class CacheEnums : Type :=
  { MAIL_CACHE_SENT_DATE : Z;
    MAIL_CACHE_RECEIVED_DATE : Z;
    MAIL_CACHE_VIRTUAL_FULL_SIZE : Z;
    MAIL_CACHE_BODY : Z;
    MAIL_CACHE_BODYSTRUCTURE : Z;
    MAIL_CACHE_MESSAGEPART : Z }.

(** [tolower] of the C library, in the C locale. *)
Definition tolower (c : ascii) : ascii :=
  let n := nat_of_ascii c in
  if ((65 <=? n) && (n <=? 90))%nat then ascii_of_nat (n + 32) else c.

(** [strcasecmp(a, b) == 0] *)
Fixpoint strcasecmp (a b : string) : bool :=
  match a, b with
  | EmptyString, EmptyString => true
  | String x a', String y b' =>
      Ascii.eqb (tolower x) (tolower y) && strcasecmp a' b'
  | _, _ => false
  end.

(** The static state of [get_default_cache_fields] and
    [get_never_cache_fields]: [None] while [ret_set] is false. *)
Record cache_statics : Type :=
  { default_ret : option Z; never_ret : option Z }.

Section Fields.

Context `{CacheEnums}.

Definition field_masks : list Z :=
  [ MAIL_CACHE_SENT_DATE; MAIL_CACHE_RECEIVED_DATE;
    MAIL_CACHE_VIRTUAL_FULL_SIZE; MAIL_CACHE_BODY;
    MAIL_CACHE_BODYSTRUCTURE; MAIL_CACHE_MESSAGEPART ].

Definition field_names : list string :=
  [ "sent_date"; "received_date"; "virtual_size"; "body"; "bodystructure";
    "messagepart" ].

(** The inner [for] loop over [field_names]: the mask of the first name
    equal to [name] without regard to case, [None] when the loop reaches
    the end of the table. *)
Fixpoint find_field (names : list string) (masks : list Z) (name : string)
  : option Z :=
  match names, masks with
  | n :: names', m :: masks' =>
      if strcasecmp n name then Some m else find_field names' masks' name
  | _, _ => None
  end.

Definition invalid_field (name : string) : string :=
  ("Invalid cache field name '" ++ name ++ "', ignoring ")%string.

(** The outer [for] loop over the split string: the value of [ret] and
    the messages given to [i_error], in order.  The test at the head of
    the loop body compares the element pointer with zero, which no element
    of the array is, so it skips nothing. *)
Fixpoint scan_fields (arr : list string) (ret : Z) : Z * list string :=
  match arr with
  | [] => (ret, [])
  | a :: rest =>
      match find_field field_names field_masks a with
      | Some m => scan_fields rest (Z.lor ret m)
      | None =>
          (fst (scan_fields rest ret),
           invalid_field a :: snd (scan_fields rest ret))
      end
  end.

(** [get_cache_fields]; [fields = None] is [NULL]. *)
Definition get_cache_fields (fields : option string) : Z * list string :=
  match fields with
  | None => (0, [])
  | Some EmptyString => (0, [])
  | Some f => scan_fields (Fetch.t_strsplit f " ,") 0
  end.

(** [get_default_cache_fields] in the environment [getenv] *)
Definition get_default_cache_fields (getenv : string -> option string)
  (st : cache_statics) : Z * list string * cache_statics :=
  match default_ret st with
  | Some r => (r, [], st)
  | None =>
      let r := get_cache_fields (getenv "MAIL_CACHE_FIELDS") in
      (fst r, snd r, {| default_ret := Some (fst r); never_ret := never_ret st |})
  end.

(** [get_never_cache_fields] in the environment [getenv] *)
Definition get_never_cache_fields (getenv : string -> option string)
  (st : cache_statics) : Z * list string * cache_statics :=
  match never_ret st with
  | Some r => (r, [], st)
  | None =>
      let r := get_cache_fields (getenv "MAIL_NEVER_CACHE_FIELDS") in
      (fst r, snd r, {| default_ret := default_ret st; never_ret := Some (fst r) |})
  end.

(** Later calls of the two getters, each in the environment of its time. *)
Inductive getter_call : Type :=
| GetDefault (getenv : string -> option string)
| GetNever (getenv : string -> option string).

Fixpoint run_getters (calls : list getter_call) (st : cache_statics)
  : cache_statics :=
  match calls with
  | [] => st
  | GetDefault e :: rest => run_getters rest (snd (get_default_cache_fields e st))
  | GetNever e :: rest => run_getters rest (snd (get_never_cache_fields e st))
  end.

Definition all_masks : Z := fold_right Z.lor 0 field_masks.

(** ** Properties *)

Lemma find_field_empty : find_field field_names field_masks "" = None.
Proof. reflexivity. Qed.

Lemma scan_fields_lor : forall arr ret,
  fst (scan_fields arr ret) = Z.lor ret (fst (scan_fields arr 0)).
Proof.
  induction arr as [|a rest IH]; intros ret; cbn [scan_fields].
  - cbn [fst]. symmetry. apply Z.lor_0_r.
  - destruct (find_field field_names field_masks a) as [m|].
    + rewrite (IH (Z.lor ret m)), (IH (Z.lor 0 m)).
      rewrite Z.lor_0_l, Z.lor_assoc. reflexivity.
    + cbn [fst]. apply IH.
Qed.

Lemma scan_fields_app : forall a b ret,
  fst (scan_fields (a ++ b) ret)
  = Z.lor (fst (scan_fields a ret)) (fst (scan_fields b 0)).
Proof.
  induction a as [|x a IH]; intros b ret; cbn [app scan_fields].
  - cbn [fst]. apply scan_fields_lor.
  - destruct (find_field field_names field_masks x) as [m|].
    + apply IH.
    + cbn [fst]. apply IH.
Qed.

Lemma t_strsplit_sep : forall a c b seps,
  Fetch.is_separator seps c = true ->
  Fetch.t_strsplit (a ++ String c b)%string seps
  = Fetch.t_strsplit a seps ++ Fetch.t_strsplit b seps.
Proof.
  induction a as [|x a IH]; intros c b seps Hc.
  - cbn [append Fetch.t_strsplit app]. rewrite Hc. reflexivity.
  - cbn [append Fetch.t_strsplit].
    destruct (Fetch.is_separator seps x).
    + rewrite (IH c b seps Hc). reflexivity.
    + rewrite (IH c b seps Hc).
      destruct (Fetch.t_strsplit_cons a seps) as (w & ws & ->).
      reflexivity.
Qed.

(** The early [return 0] agrees with the scan of the empty string. *)
Lemma get_cache_fields_scan : forall f,
  fst (get_cache_fields (Some f)) = fst (scan_fields (Fetch.t_strsplit f " ,") 0).
Proof. intros [|c f]; reflexivity. Qed.

Lemma get_cache_fields_sep : forall a c b,
  Fetch.is_separator " ," c = true ->
  fst (get_cache_fields (Some (a ++ String c b)%string))
  = Z.lor (fst (get_cache_fields (Some a))) (fst (get_cache_fields (Some b))).
Proof.
  intros a c b Hc.
  rewrite !get_cache_fields_scan, (t_strsplit_sep a c b " ," Hc).
  apply scan_fields_app.
Qed.

Lemma lor_in_fold : forall (l : list Z) m,
  In m l -> Z.lor m (fold_right Z.lor 0 l) = fold_right Z.lor 0 l.
Proof.
  induction l as [|x l IH]; intros m Hin; [destruct Hin|].
  cbn [fold_right]. destruct Hin as [-> | Hin].
  - rewrite Z.lor_assoc, Z.lor_diag. reflexivity.
  - rewrite Z.lor_assoc, (Z.lor_comm m x), <- Z.lor_assoc, (IH m Hin).
    reflexivity.
Qed.

Lemma find_field_in : forall names masks name m,
  find_field names masks name = Some m -> In m masks.
Proof.
  induction names as [|n names IH]; intros masks name m Hf; [discriminate|].
  destruct masks as [|m0 masks]; [discriminate|]. cbn [find_field] in Hf.
  destruct (strcasecmp n name).
  - injection Hf as ->. left. reflexivity.
  - right. exact (IH _ _ _ Hf).
Qed.

Lemma scan_fields_known : forall arr ret,
  Z.lor ret all_masks = all_masks ->
  Z.lor (fst (scan_fields arr ret)) all_masks = all_masks.
Proof.
  induction arr as [|a rest IH]; intros ret Hret; cbn [scan_fields].
  - exact Hret.
  - destruct (find_field field_names field_masks a) as [m|] eqn:Hf.
    + apply IH. rewrite <- Z.lor_assoc.
      unfold all_masks at 1.
      rewrite (lor_in_fold field_masks m (find_field_in _ _ _ _ Hf)).
      exact Hret.
    + cbn [fst]. apply IH. exact Hret.
Qed.

(** A piece of the setting that names no cache field. *)
Definition unknown_field (name : string) : bool :=
  match find_field field_names field_masks name with
  | Some _ => false
  | None => true
  end.

Lemma scan_fields_warnings : forall arr ret,
  snd (scan_fields arr ret) = map invalid_field (filter unknown_field arr).
Proof.
  induction arr as [|a rest IH]; intros ret; [reflexivity|].
  cbn [scan_fields filter]. unfold unknown_field at 1.
  destruct (find_field field_names field_masks a).
  - apply IH.
  - cbn [snd map]. rewrite IH. reflexivity.
Qed.

(** A piece that holds no separator is the only element of its split. *)
Lemma t_strsplit_piece : forall name seps,
  forallb (fun c => negb (Fetch.is_separator seps c))
    (list_ascii_of_string name) = true ->
  Fetch.t_strsplit name seps = [name].
Proof.
  induction name as [|c name IH]; intros seps Hname; [reflexivity|].
  cbn [list_ascii_of_string forallb] in Hname.
  apply andb_true_iff in Hname as [Hc Hname]. apply negb_true_iff in Hc.
  cbn [Fetch.t_strsplit]. rewrite Hc, (IH seps Hname). reflexivity.
Qed.

(** [strcasecmp] compares the two strings with every letter in lower
    case. *)
Fixpoint lower (a : string) : string :=
  match a with
  | EmptyString => EmptyString
  | String c a' => String (tolower c) (lower a')
  end.

Lemma strcasecmp_lower : forall a b,
  strcasecmp a b = String.eqb (lower a) (lower b).
Proof.
  induction a as [|x a IH]; intros [|y b]; try reflexivity.
  cbn [strcasecmp lower String.eqb]. rewrite IH. reflexivity.
Qed.

Lemma find_field_lower : forall names masks a b,
  lower a = lower b ->
  find_field names masks a = find_field names masks b.
Proof.
  induction names as [|n names IH]; intros masks a b Hab; [reflexivity|].
  destruct masks as [|m masks]; [reflexivity|]. cbn [find_field].
  rewrite !strcasecmp_lower, Hab, (IH masks a b Hab). reflexivity.
Qed.

(** The mask of the field a piece names, whatever the case of its
    letters. *)
Definition mask_of_name (name : string) : option Z :=
  let n := lower name in
  if String.eqb n "sent_date" then Some MAIL_CACHE_SENT_DATE
  else if String.eqb n "received_date" then Some MAIL_CACHE_RECEIVED_DATE
  else if String.eqb n "virtual_size" then Some MAIL_CACHE_VIRTUAL_FULL_SIZE
  else if String.eqb n "body" then Some MAIL_CACHE_BODY
  else if String.eqb n "bodystructure" then Some MAIL_CACHE_BODYSTRUCTURE
  else if String.eqb n "messagepart" then Some MAIL_CACHE_MESSAGEPART
  else None.

Lemma find_field_mask_of_name : forall name,
  find_field field_names field_masks name = mask_of_name name.
Proof.
  intros name. unfold find_field, field_names, field_masks, mask_of_name.
  rewrite !strcasecmp_lower. cbv zeta. cbn [lower].
  rewrite !(String.eqb_sym (lower name)).
  reflexivity.
Qed.

(** X21: the mask [get_cache_fields] computes is the union of the masks of
    the fields it names.  A setting of one name (no space, no comma) that
    is, without regard to case, sent_date, received_date, virtual_size,
    body, bodystructure or messagepart gives that field's mask and no
    warning; any other gives 0 and the warning for it.  Joining two
    settings with a space or a comma gives the bitwise or of their masks
    (so order and repetition do not matter), and no bit outside the six
    known masks is ever set.  For a setting that is not empty, the
    warnings are those of the pieces that name no field, in order, the
    empty pieces between two separators included. *)
Theorem cache_fields_are_a_union : forall a b,
  fst (get_cache_fields (Some (a ++ " " ++ b)%string))
  = Z.lor (fst (get_cache_fields (Some a))) (fst (get_cache_fields (Some b)))
  /\ fst (get_cache_fields (Some (a ++ "," ++ b)%string))
     = Z.lor (fst (get_cache_fields (Some a))) (fst (get_cache_fields (Some b)))
  /\ Z.lor (fst (get_cache_fields (Some a))) all_masks = all_masks
  /\ (forall c,
        snd (get_cache_fields (Some (String c a)))
        = map invalid_field
            (filter unknown_field (Fetch.t_strsplit (String c a) " ,")))
  /\ (forall c,
        forallb (fun x => negb (Fetch.is_separator " ," x))
          (list_ascii_of_string (String c a)) = true ->
        get_cache_fields (Some (String c a))
        = match mask_of_name (String c a) with
          | Some m => (m, [])
          | None => (0, [invalid_field (String c a)])
          end)
  /\ map (fun name => get_cache_fields (Some name))
       [ "sent_date"; "Received_Date"; "VIRTUAL_SIZE"; "body";
         "BodyStructure"; "MESSAGEPART"; "size" ]
     = [ (MAIL_CACHE_SENT_DATE, []); (MAIL_CACHE_RECEIVED_DATE, []);
         (MAIL_CACHE_VIRTUAL_FULL_SIZE, []); (MAIL_CACHE_BODY, []);
         (MAIL_CACHE_BODYSTRUCTURE, []); (MAIL_CACHE_MESSAGEPART, []);
         (0, [invalid_field "size"]) ].
Proof.
  intros a b. split; [|split; [|split; [|split; [|split]]]].
  - apply (get_cache_fields_sep a " "%char b). reflexivity.
  - apply (get_cache_fields_sep a ","%char b). reflexivity.
  - rewrite get_cache_fields_scan. apply scan_fields_known. apply Z.lor_0_l.
  - intros c. unfold get_cache_fields. apply scan_fields_warnings.
  - intros c Hpiece. unfold get_cache_fields.
    rewrite (t_strsplit_piece _ _ Hpiece). cbn [scan_fields].
    rewrite find_field_mask_of_name.
    destruct (mask_of_name (String c a)) as [m|]; reflexivity.
  - reflexivity.
Qed.

Lemma run_getters_keeps : forall calls st r,
  (default_ret st = Some r -> default_ret (run_getters calls st) = Some r)
  /\ (never_ret st = Some r -> never_ret (run_getters calls st) = Some r).
Proof.
  induction calls as [|c rest IH]; intros st r; [split; auto|].
  cbn [run_getters]. destruct c as [e|e].
  - unfold get_default_cache_fields.
    destruct (default_ret st) as [r0|] eqn:Hd; cbn [snd].
    + destruct (IH st r) as [I1 I2]. split; intros Hr; [apply I1|apply I2];
        congruence.
    + split; [discriminate|]. intros Hr. apply IH. exact Hr.
  - unfold get_never_cache_fields.
    destruct (never_ret st) as [r0|] eqn:Hn; cbn [snd].
    + destruct (IH st r) as [I1 I2]. split; intros Hr; [apply I1|apply I2];
        congruence.
    + split; [|discriminate]. intros Hr. apply IH. exact Hr.
Qed.

(** X22: the two cache-field settings are read from the environment once
    per process.  The first call of a getter computes the mask from the
    environment of that moment; every later call, after any other calls of
    the two getters and whatever the environment has become, returns the
    same mask, gives no warning and leaves the static state as it is. *)
Theorem cache_fields_are_read_once : forall e1 calls e2 st,
  let first_default := get_default_cache_fields e1 st in
  let first_never := get_never_cache_fields e1 st in
  let later_default := run_getters calls (snd first_default) in
  let later_never := run_getters calls (snd first_never) in
  get_default_cache_fields e2 later_default
  = (fst (fst first_default), [], later_default)
  /\ get_never_cache_fields e2 later_never
     = (fst (fst first_never), [], later_never)
  /\ (default_ret st = None ->
      fst first_default = get_cache_fields (e1 "MAIL_CACHE_FIELDS"))
  /\ (never_ret st = None ->
      fst first_never = get_cache_fields (e1 "MAIL_NEVER_CACHE_FIELDS")).
Proof.
  intros e1 calls e2 st. cbv zeta. split; [|split; [|split]].
  - assert (Hs : default_ret (snd (get_default_cache_fields e1 st))
                 = Some (fst (fst (get_default_cache_fields e1 st)))).
    { unfold get_default_cache_fields.
      destruct (default_ret st) eqn:Hd; [exact Hd | reflexivity]. }
    apply (proj1 (run_getters_keeps calls _ _)) in Hs.
    unfold get_default_cache_fields at 1. rewrite Hs. reflexivity.
  - assert (Hs : never_ret (snd (get_never_cache_fields e1 st))
                 = Some (fst (fst (get_never_cache_fields e1 st)))).
    { unfold get_never_cache_fields.
      destruct (never_ret st) eqn:Hd; [exact Hd | reflexivity]. }
    apply (proj2 (run_getters_keeps calls _ _)) in Hs.
    unfold get_never_cache_fields at 1. rewrite Hs. reflexivity.
  - intros Hd. unfold get_default_cache_fields. rewrite Hd. cbn [fst].
    destruct (get_cache_fields (e1 "MAIL_CACHE_FIELDS")); reflexivity.
  - intros Hd. unfold get_never_cache_fields. rewrite Hd. cbn [fst].
    destruct (get_cache_fields (e1 "MAIL_NEVER_CACHE_FIELDS")); reflexivity.
Qed.

End Fields.

End CacheFields.

(* ================================================================== *)
(** * Opening and closing a mailbox session (index-storage.c) *)
(* ================================================================== *)

Module Mailbox.

Import Lock.

Local Open Scope string_scope.
Local Open Scope list_scope.
Local Open Scope Z_scope.

(** The flag bits and the zero value of [enum mail_lock_notify_type] read
    by [index_storage_mailbox_init] (mail-index.h and mail-storage.h are
    not among the sources, so they are parameters). *)
Class OpenEnums : Type :=
  { MAIL_INDEX_OPEN_FLAG_CREATE : Z;
    MAIL_INDEX_OPEN_FLAG_FAST : Z;
    MAIL_INDEX_OPEN_FLAG_UPDATE_RECENT : Z;
    MAIL_INDEX_OPEN_FLAG_MMAP_INVALIDATE : Z;
    MAILBOX_OPEN_FAST : Z;
    MAILBOX_OPEN_READONLY : Z;
    MAILBOX_OPEN_MMAP_INVALIDATE : Z;
    (* the enumerator whose value is 0: what [i_new] leaves in
       [last_notify_type] *)
    MAIL_LOCK_NOTIFY_ZERO : mail_lock_notify_type }.

(** The fields and function pointers of the index object used when a
    mailbox is opened, closed or counted, besides those of [IndexOps]. *)
Class OpenOps (W : Type) : Type :=
  { (* index->opened *)
    index_opened : W -> bool;
    (* index->open: the result, and the lock-notify callback invocations
       made while it waits *)
    index_open : Z -> W -> bool * list stall * W;
    mail_cache_set_defaults : Z -> Z -> W -> W;
    INDEX_IS_IN_MEMORY : W -> bool;
    (* mail_index_get_header(index)->messages_count and ->next_uid *)
    messages_count : W -> N;
    next_uid : W -> N;
    (* index->first_recent_uid *)
    first_recent_uid : W -> N;
    (* index->lookup_uid_range: the sequence of the record found, [None]
       for NULL *)
    lookup_uid_range : N -> N -> W -> option N;
    (* mail_custom_flags_fix_list: the result and the flags written back *)
    mail_custom_flags_fix_list : Z -> list string -> W -> Z * Z * W }.

(** The calls made on the collaborators, in call order. *)
Inductive op : Type :=
| OLock (e : event)                (* the calls recorded by [Lock] *)
| OOpen (index_flags : Z) (ok : bool)              (* index->open *)
| OError (msg : string)                            (* i_error *)
| OSetDefaults (default_fields never_fields : Z)   (* mail_cache_set_defaults *)
| OCheckRemoveAll                      (* index_mailbox_check_remove_all *)
| OFixList (flags : Z) (custom_flags : list string) (ret : Z).

(** The [index->set_lock] calls among the calls, with their results. *)
Fixpoint lock_calls (ops : list op) : list (lock_value * bool) :=
  match ops with
  | [] => []
  | OLock (EvSetLock l ok) :: rest => (l, ok) :: lock_calls rest
  | _ :: rest => lock_calls rest
  end.

(** The [index->open] calls among the calls, with their results. *)
Fixpoint open_calls (ops : list op) : list (Z * bool) :=
  match ops with
  | [] => []
  | OOpen f ok :: rest => (f, ok) :: open_calls rest
  | _ :: rest => open_calls rest
  end.

(** An error was left on the storage. *)
Definition is_storage_error (o : op) : bool :=
  match o with
  | OLock EvSetInternalError | OLock (EvSetError _) => true
  | _ => false
  end.

(** [unsigned int] arithmetic. *)
Definition UINT_MODULUS : N := (2 ^ 32)%N.

Section WithIndex.

Context {W : Type} `{IndexOps W} `{OpenOps W} `{LockEnums} `{OpenEnums}
  `{CacheFields.CacheEnums}.

(** The process environment read by [getenv]. *)
Variable getenv : string -> option string.

(** The order in which the two getter calls in the argument list of
    [mail_cache_set_defaults] are evaluated, which C leaves to the
    compiler: [true] when [get_never_cache_fields] is called first. *)
Variable right_to_left : bool.

(** A [struct index_mailbox]: the fields of [Lock.index_mailbox], the
    index it is bound to and the message count of the last sync. *)
Record mailbox : Type :=
  { box : index_mailbox;
    box_index : Registry.mail_index;
    synced_messages_count : N }.

(** Everything outside the mailbox object: the index object, the registry
    of shared indexes, the statics of the cache-field getters, whether the
    lock-notify callback is installed on the index, and the calls made so
    far. *)
Record system : Type :=
  { sys_index : W;
    sys_indexes : Registry.registry;
    sys_statics : CacheFields.cache_statics;
    sys_callback : bool;
    sys_calls : list op }.

Definition with_index (w : W) (st : system) : system :=
  {| sys_index := w; sys_indexes := sys_indexes st;
     sys_statics := sys_statics st; sys_callback := sys_callback st;
     sys_calls := sys_calls st |}.

Definition with_calls (ops : list op) (st : system) : system :=
  {| sys_index := sys_index st; sys_indexes := sys_indexes st;
     sys_statics := sys_statics st; sys_callback := sys_callback st;
     sys_calls := sys_calls st ++ ops |}.

(** [index->set_lock_notify_callback] *)
Definition set_lock_notify_callback (installed : bool) (st : system) : system :=
  {| sys_index := sys_index st; sys_indexes := sys_indexes st;
     sys_statics := sys_statics st; sys_callback := installed;
     sys_calls := sys_calls st ++ [OLock (EvSetLockNotifyCallback installed)] |}.

Definition with_box (b : index_mailbox) (mb : mailbox) : mailbox :=
  {| box := b; box_index := box_index mb;
     synced_messages_count := synced_messages_count mb |}.

(** The callback invocations of one wait: [lock_notify] runs on the
    mailbox when the callback is installed. *)
Definition deliver (stalls : list stall) (mb : mailbox) (st : system)
  : mailbox * list event :=
  if sys_callback st
  then (with_box (fst (deliver_stalls stalls (box mb))) mb,
        snd (deliver_stalls stalls (box mb)))
  else (mb, []).

(** [ibox->index->set_lock(ibox->index, lock)] *)
Definition set_lock (lock : lock_value) (mb : mailbox) (st : system)
  : bool * mailbox * system :=
  let '(ok, stalls, w) := index_set_lock lock (sys_index st) in
  (ok, fst (deliver stalls mb st),
   with_calls (map OLock (snd (deliver stalls mb st))
               ++ [OLock (EvSetLock lock ok)])
     (with_index w st)).

(** [mail_storage_set_index_error] on a mailbox of this section: the
    function of [Lock], with its calls added to the calls of the system. *)
Definition set_index_error (mb : mailbox) (st : system) : mailbox * system :=
  let s := snd (mail_storage_set_index_error
                  {| ibox := box mb; index := sys_index st; trace := [] |}) in
  (with_box (ibox s) mb,
   with_calls (map OLock (trace s)) (with_index (index s) st)).

(** [index_storage_mailbox_free] at event-loop time [ioloop_time]: [None]
    is a failed assertion of [index_storage_unref].  The index pointer of
    a mailbox is not NULL (the first statement dereferences it). *)
Definition index_storage_mailbox_free (ioloop_time : Z) (mb : mailbox)
  (st : system) : option (bool * system) :=
  let '(_, _, st1) := set_lock MAIL_LOCK_UNLOCK mb st in
  let st2 := with_calls [OCheckRemoveAll] st1 in
  match Registry.index_storage_unref (box_index mb) ioloop_time
          (sys_indexes st2) with
  | None => None
  | Some reg =>
      Some (true,
            {| sys_index := sys_index st2; sys_indexes := reg;
               sys_statics := sys_statics st2;
               sys_callback := sys_callback st2;
               sys_calls := sys_calls st2 |})
  end.

(** [(flags & bit) != 0] *)
Definition has_flag (flags bit : Z) : bool := negb (Z.land flags bit =? 0).

(** The value of [index_flags]. *)
Definition index_flags_of (flags : Z) : Z :=
  let f0 := MAIL_INDEX_OPEN_FLAG_CREATE in
  let f1 := if has_flag flags MAILBOX_OPEN_FAST
            then Z.lor f0 MAIL_INDEX_OPEN_FLAG_FAST else f0 in
  let f2 := if has_flag flags MAILBOX_OPEN_READONLY
            then Z.lor f1 MAIL_INDEX_OPEN_FLAG_UPDATE_RECENT else f1 in
  if has_flag flags MAILBOX_OPEN_MMAP_INVALIDATE
  then Z.lor f2 MAIL_INDEX_OPEN_FLAG_MMAP_INVALIDATE else f2.

(** The two arguments [get_default_cache_fields()] and
    [get_never_cache_fields()] of [mail_cache_set_defaults]: their values,
    the warnings in the order they are given, and the statics after both
    calls. *)
Definition cache_defaults (st : CacheFields.cache_statics)
  : Z * Z * list string * CacheFields.cache_statics :=
  if right_to_left then
    let n := CacheFields.get_never_cache_fields getenv st in
    let d := CacheFields.get_default_cache_fields getenv (snd n) in
    (fst (fst d), fst (fst n), snd (fst n) ++ snd (fst d), snd d)
  else
    let d := CacheFields.get_default_cache_fields getenv st in
    let n := CacheFields.get_never_cache_fields getenv (snd d) in
    (fst (fst d), fst (fst n), snd (fst d) ++ snd (fst n), snd n).

(** The [if (!index->opened)] block of [index_storage_mailbox_init]:
    [false] is its [break].  [has_index_dir] is
    [storage->index_dir != NULL]. *)
Definition open_index (has_index_dir : bool) (index_flags : Z) (mb : mailbox)
  (st : system) : bool * mailbox * system :=
  if index_opened (sys_index st) then (true, mb, st)
  else
    let '(ok, stalls, w) := index_open index_flags (sys_index st) in
    let mb1 := fst (deliver stalls mb st) in
    let st1 := with_calls (map OLock (snd (deliver stalls mb st))
                           ++ [OOpen index_flags ok])
                 (with_index w st) in
    if negb ok then (false, mb1, st1)
    else
      let '(default_fields, never_fields, warnings, statics) :=
        cache_defaults (sys_statics st1) in
      let st2 :=
        {| sys_index := mail_cache_set_defaults default_fields never_fields
                          (sys_index st1);
           sys_indexes := sys_indexes st1;
           sys_statics := statics;
           sys_callback := sys_callback st1;
           sys_calls := sys_calls st1
                        ++ map OError warnings
                        ++ [OSetDefaults default_fields never_fields] |} in
      if INDEX_IS_IN_MEMORY (sys_index st2) && has_index_dir
      then (true, mb1,
            with_calls [OLock (EvNotifyNo "Couldn't use index files")] st2)
      else (true, mb1, st2).

(** The code after the [do ... while (0)] block of
    [index_storage_mailbox_init]. *)
Definition abandon (ioloop_time : Z) (mb : mailbox) (st : system)
  : option (option mailbox * system) :=
  let '(mb1, st1) := set_index_error mb st in
  match index_storage_mailbox_free ioloop_time mb1 st1 with
  | None => None
  | Some (_, st2) => Some (None, st2)
  end.

(** The mailbox right after [i_new] and the assignments before the
    callback is installed; [now] is [time(NULL)]. *)
Definition new_mailbox (idx : Registry.mail_index) (name : string)
  (flags : Z) (now : Z) : mailbox :=
  {| box := {| box_name := name;
               readonly := has_flag flags MAILBOX_OPEN_READONLY;
               inconsistent := false;
               lock_type := 0;
               trans_ctx := None;
               next_lock_notify := now + LOCK_NOTIFY_INTERVAL;
               last_notify_type := Some MAIL_LOCK_NOTIFY_ZERO |};
     box_index := idx;
     synced_messages_count := 0 |}.

(** [index_storage_mailbox_init]: [Some None] is the result NULL, [None]
    a failed assertion. *)
Definition index_storage_mailbox_init (has_index_dir : bool)
  (idx : Registry.mail_index) (name : string) (flags : Z)
  (now ioloop_time : Z) (st : system) : option (option mailbox * system) :=
  let mb0 := new_mailbox idx name flags now in
  let st0 := set_lock_notify_callback true st in
  let '(ok1, mb1, st1) :=
    open_index has_index_dir (index_flags_of flags) mb0 st0 in
  if negb ok1 then abandon ioloop_time mb1 st1
  else
    let '(ok2, mb2, st2) := set_lock MAIL_LOCK_SHARED mb1 st1 in
    if negb ok2 then abandon ioloop_time mb2 st2
    else
      let mb3 := {| box := box mb2; box_index := box_index mb2;
                    synced_messages_count := messages_count (sys_index st2) |} in
      let '(ok3, mb4, st4) := set_lock MAIL_LOCK_UNLOCK mb3 st2 in
      if negb ok3 then abandon ioloop_time mb4 st4
      else Some (Some mb4, set_lock_notify_callback false st4).

(** [index_storage_is_readonly] *)
Definition index_storage_is_readonly (mb : mailbox) : bool := readonly (box mb).

(** [index_storage_is_inconsistency_error] *)
Definition index_storage_is_inconsistency_error (mb : mailbox) : bool :=
  inconsistent (box mb).

(** [index_mailbox_fix_custom_flags]: the result, the flags written back,
    and the mailbox and system after it. *)
Definition index_mailbox_fix_custom_flags (flags : Z)
  (custom_flags : list string) (mb : mailbox) (st : system)
  : bool * Z * mailbox * system :=
  let '(ret, flags', w) :=
    mail_custom_flags_fix_list flags custom_flags (sys_index st) in
  let st1 := with_calls [OFixList flags custom_flags ret] (with_index w st) in
  if ret =? 1 then (true, flags', mb, st1)
  else if ret =? 0 then
    (false, flags', mb,
     with_calls
       [OLock (EvSetError "Maximum number of different custom flags exceeded")]
       st1)
  else (false, flags', fst (set_index_error mb st1),
        snd (set_index_error mb st1)).

(** [index_storage_get_recent_count], in [unsigned int] arithmetic. *)
Definition index_storage_get_recent_count (w : W) : N :=
  if (first_recent_uid w <=? 1)%N then messages_count w
  else if (next_uid w <=? first_recent_uid w)%N then 0%N
  else
    match lookup_uid_range (first_recent_uid w)
            ((next_uid w + UINT_MODULUS - 1) mod UINT_MODULUS)%N w with
    | None => 0%N
    | Some seq =>
        ((messages_count w + 1 + UINT_MODULUS - seq) mod UINT_MODULUS)%N
    end.

End WithIndex.

Arguments system W : clear implicits.

(** ** Properties *)

Section MailboxProofs.

Context {W : Type} `{IndexOps W} `{OpenOps W} `{LockEnums} `{OpenEnums}
  `{CacheFields.CacheEnums}.

Variable getenv : string -> option string.
Variable right_to_left : bool.

(** [st'] differs from [st] by the calls [ops]; the registry and the
    callback are as before. *)
Definition grows (st st' : system W) (ops : list op) : Prop :=
  sys_indexes st' = sys_indexes st
  /\ sys_callback st' = sys_callback st
  /\ sys_calls st' = sys_calls st ++ ops.

(** The fields of the mailbox that no callback invocation writes. *)
Definition kept (mb mb' : mailbox) : Prop :=
  box_index mb' = box_index mb
  /\ synced_messages_count mb' = synced_messages_count mb
  /\ box_name (box mb') = box_name (box mb)
  /\ readonly (box mb') = readonly (box mb)
  /\ lock_type (box mb') = lock_type (box mb)
  /\ trans_ctx (box mb') = trans_ctx (box mb)
  /\ inconsistent (box mb') = inconsistent (box mb).

Lemma kept_refl : forall mb, kept mb mb.
Proof. intros mb. repeat split. Qed.

Lemma kept_trans : forall a b c, kept a b -> kept b c -> kept a c.
Proof. unfold kept. intros a b c Hab Hbc. intuition congruence. Qed.

Lemma grows_trans : forall a b c ops1 ops2,
  grows a b ops1 -> grows b c ops2 -> grows a c (ops1 ++ ops2).
Proof.
  unfold grows. intros a b c ops1 ops2 (A1 & A2 & A3) (B1 & B2 & B3).
  rewrite B1, B2, B3, A1, A2, A3, app_assoc. repeat split.
Qed.

Lemma lock_calls_app : forall a b,
  lock_calls (a ++ b) = lock_calls a ++ lock_calls b.
Proof.
  induction a as [|o a IH]; intros b; [reflexivity|].
  cbn [app lock_calls]. destruct o as [e| | | | |]; try apply IH.
  destruct e; try apply IH. cbn [app]. rewrite IH. reflexivity.
Qed.

Lemma open_calls_app : forall a b,
  open_calls (a ++ b) = open_calls a ++ open_calls b.
Proof.
  induction a as [|o a IH]; intros b; [reflexivity|].
  cbn [app open_calls]. destruct o; try apply IH.
  cbn [app]. rewrite IH. reflexivity.
Qed.

Lemma open_calls_events : forall evs, open_calls (map OLock evs) = [].
Proof. induction evs as [|e evs IH]; [reflexivity | exact IH]. Qed.

Lemma open_calls_errors : forall msgs, open_calls (map OError msgs) = [].
Proof. induction msgs as [|e evs IH]; [reflexivity | exact IH]. Qed.

Lemma lock_calls_errors : forall msgs, lock_calls (map OError msgs) = [].
Proof. induction msgs as [|e evs IH]; [reflexivity | exact IH]. Qed.

Lemma lock_calls_events : forall evs,
  filter is_set_lock evs = [] -> lock_calls (map OLock evs) = [].
Proof.
  induction evs as [|e evs IH]; intros Hf; [reflexivity|].
  cbn [filter] in Hf. destruct e; cbn [is_set_lock] in Hf;
    try discriminate; cbn [map lock_calls]; apply IH; exact Hf.
Qed.

Lemma deliver_spec : forall stalls mb (st : system W),
  kept mb (fst (deliver stalls mb st))
  /\ lock_calls (map OLock (snd (deliver stalls mb st))) = []
  /\ open_calls (map OLock (snd (deliver stalls mb st))) = [].
Proof.
  intros stalls mb st. unfold deliver.
  destruct (sys_callback st); cbn [fst snd].
  - pose proof (deliver_stalls_keeps_session stalls (box mb))
      as (K1 & K2 & K3 & K4).
    pose proof (deliver_stalls_calls stalls (box mb)) as (K5 & K6 & _).
    split; [|split].
    + unfold kept, with_box. cbn [box box_index synced_messages_count].
      cbn zeta in *. repeat split; assumption.
    + apply lock_calls_events. exact K6.
    + apply open_calls_events.
  - split; [apply kept_refl | split; reflexivity].
Qed.

Lemma set_lock_spec : forall lock mb (st : system W),
  let r := set_lock lock mb st in
  exists ops,
    grows st (snd r) ops
    /\ lock_calls ops = [(lock, fst (fst r))]
    /\ open_calls ops = []
    /\ kept mb (snd (fst r)).
Proof.
  intros lock mb st. cbv zeta. unfold set_lock.
  destruct (index_set_lock lock (sys_index st)) as [[ok stalls] w].
  destruct (deliver_spec stalls mb st) as (K & L & O).
  cbn [fst snd]. eexists. split; [|split; [|split]].
  - unfold grows, with_calls, with_index.
    cbn [sys_indexes sys_callback sys_calls sys_index]. repeat split.
  - rewrite lock_calls_app, L. reflexivity.
  - rewrite open_calls_app, O. reflexivity.
  - exact K.
Qed.

Lemma set_index_error_spec : forall mb (st : system W),
  let r := set_index_error mb st in
  exists ops,
    grows st (snd r) (ops ++ [OLock EvResetError])
    /\ lock_calls ops = []
    /\ open_calls ops = []
    /\ box_index (fst r) = box_index mb
    /\ (existsb is_storage_error ops = true
        \/ inconsistent (box (fst r)) = true).
Proof.
  intros mb st. cbv zeta. unfold set_index_error, mail_storage_set_index_error.
  cbn [ibox index trace].
  destruct (index_get_last_error (sys_index st)); cbn [translate_error];
    cbn [fst snd ibox index trace app map];
    eexists;
    (split; [unfold grows, with_calls, with_index;
             cbn [sys_indexes sys_callback sys_calls sys_index];
             split; [reflexivity | split; [reflexivity|]];
             match goal with
             | |- _ ++ ?l = _ ++ ?ops ++ [?x] =>
                 instantiate (1 := removelast l)
             end; reflexivity
           |]);
    cbn [removelast]; repeat split; auto.
Qed.

Lemma free_spec : forall t mb (st : system W),
  match index_storage_mailbox_free t mb st with
  | None =>
      Registry.index_storage_unref (box_index mb) t (sys_indexes st) = None
  | Some (r, st') =>
      r = true
      /\ Registry.index_storage_unref (box_index mb) t (sys_indexes st)
         = Some (sys_indexes st')
      /\ sys_callback st' = sys_callback st
      /\ exists ops ok,
           sys_calls st'
           = sys_calls st ++ ops
             ++ [OLock (EvSetLock MAIL_LOCK_UNLOCK ok); OCheckRemoveAll]
           /\ lock_calls ops = [] /\ open_calls ops = []
  end.
Proof.
  intros t mb st. unfold index_storage_mailbox_free, set_lock.
  destruct (index_set_lock MAIL_LOCK_UNLOCK (sys_index st)) as [[ok stalls] w].
  destruct (deliver_spec stalls mb st) as (_ & L & O).
  cbn [with_calls with_index sys_indexes sys_callback sys_calls sys_index
       sys_statics].
  destruct (Registry.index_storage_unref (box_index mb) t (sys_indexes st))
    as [reg|]; [|reflexivity].
  cbn [sys_indexes sys_callback sys_calls]. repeat split.
  exists (map OLock (snd (deliver stalls mb st))), ok.
  rewrite <- !app_assoc. repeat split; assumption.
Qed.

Lemma abandon_spec : forall t mb (st : system W),
  match abandon t mb st with
  | None =>
      Registry.index_storage_unref (box_index mb) t (sys_indexes st) = None
  | Some (res, st') =>
      res = None
      /\ Registry.index_storage_unref (box_index mb) t (sys_indexes st)
         = Some (sys_indexes st')
      /\ sys_callback st' = sys_callback st
      /\ exists ops ok,
           sys_calls st'
           = sys_calls st ++ ops
             ++ [OLock (EvSetLock MAIL_LOCK_UNLOCK ok); OCheckRemoveAll]
           /\ lock_calls ops = [] /\ open_calls ops = []
           /\ In (OLock EvResetError) ops
  end.
Proof.
  intros t mb st. unfold abandon.
  destruct (set_index_error_spec mb st)
    as (ops1 & (G1 & G2 & G3) & L1 & O1 & Hidx & _).
  destruct (set_index_error mb st) as [mb1 st1]. cbn [fst snd] in *.
  pose proof (free_spec t mb1 st1) as Hfree.
  destruct (index_storage_mailbox_free t mb1 st1) as [[r st2]|].
  - destruct Hfree as (_ & Hun & Hcb & ops2 & ok & Hcalls & L2 & O2).
    split; [reflexivity|]. rewrite <- Hidx, <- G1. split; [exact Hun|].
    split; [congruence|].
    exists ((ops1 ++ [OLock EvResetError]) ++ ops2), ok.
    rewrite Hcalls, G3, <- !app_assoc. split; [reflexivity|].
    rewrite !lock_calls_app, !open_calls_app, L1, L2, O1, O2.
    repeat split. apply in_or_app. right. left. reflexivity.
  - rewrite <- Hidx, <- G1. exact Hfree.
Qed.

Lemma set_lock_index : forall lock mb (st : system W),
  sys_index (snd (set_lock lock mb st))
  = snd (index_set_lock lock (sys_index st))
  /\ fst (fst (set_lock lock mb st))
     = fst (fst (index_set_lock lock (sys_index st))).
Proof.
  intros lock mb st. unfold set_lock.
  destruct (index_set_lock lock (sys_index st)) as [[ok stalls] w].
  split; reflexivity.
Qed.

(** The calls of the code after the [do ... while (0)] block: the
    translation of the error the index reports, the reset of that error,
    the calls of the stalls of the last unlock, that unlock and
    [index_mailbox_check_remove_all]. *)
Lemma abandon_calls : forall t mb (st : system W) res st',
  abandon t mb st = Some (res, st') ->
  let w := sys_index st in
  let unlocked := index_set_lock MAIL_LOCK_UNLOCK (index_reset_error w) in
  sys_index st' = snd unlocked
  /\ exists ops,
       sys_calls st'
       = sys_calls st
         ++ map OLock (snd (translate_error (index_get_last_error w) (box mb)))
         ++ OLock EvResetError :: ops
         ++ [OLock (EvSetLock MAIL_LOCK_UNLOCK (fst (fst unlocked)));
             OCheckRemoveAll]
       /\ lock_calls ops = [] /\ open_calls ops = [].
Proof.
  intros t mb st res st'. unfold abandon, set_index_error,
    mail_storage_set_index_error. cbn [ibox index trace].
  destruct (translate_error (index_get_last_error (sys_index st)) (box mb))
    as [b evs] eqn:Htr.
  cbn [fst snd ibox index trace app].
  unfold index_storage_mailbox_free, set_lock.
  cbn [with_calls with_index sys_index sys_indexes sys_callback sys_calls
       sys_statics].
  destruct (index_set_lock MAIL_LOCK_UNLOCK
              (index_reset_error (sys_index st))) as [[ok stalls] w1].
  match goal with
  | |- context [deliver stalls ?m ?x] =>
      destruct (deliver_spec stalls m x) as (_ & L & O);
      set (waits := snd (deliver stalls m x)) in *
  end.
  cbn [with_calls with_index sys_index sys_indexes sys_callback sys_calls
       sys_statics].
  destruct (Registry.index_storage_unref (box_index _) t (sys_indexes st))
    as [reg|]; [|discriminate].
  intros Heq. injection Heq as _ <-. cbv zeta.
  cbn [sys_index sys_calls fst snd]. split; [reflexivity|].
  exists (map OLock waits). split; [|split; assumption].
  rewrite map_app, <- !app_assoc. cbn [map app]. rewrite <- ?app_assoc.
  reflexivity.
Qed.

Lemma open_index_spec : forall has_index_dir index_flags mb (st : system W),
  let r := open_index getenv right_to_left has_index_dir index_flags mb st in
  exists ops,
    grows st (snd r) ops
    /\ lock_calls ops = []
    /\ open_calls ops
       = (if index_opened (sys_index st) then []
          else [(index_flags, fst (fst r))])
    /\ kept mb (snd (fst r))
    /\ (index_opened (sys_index st) = true -> fst (fst r) = true).
Proof.
  intros hid fl mb st. cbv zeta. unfold open_index.
  destruct (index_opened (sys_index st)).
  - exists []. cbn [fst snd]. unfold grows. rewrite app_nil_r.
    repeat split.
  - destruct (index_open fl (sys_index st)) as [[ok stalls] w].
    destruct (deliver_spec stalls mb st) as (K & L & O).
    destruct ok; cbn [negb].
    + destruct (cache_defaults getenv right_to_left _)
        as [[[default_fields never_fields] warnings] statics].
      match goal with
      | |- context [if ?c then _ else _] => destruct c
      end; cbn [fst snd]; eexists; (split; [|split; [|split; [|split]]]);
        try exact K; try reflexivity;
        try (unfold grows, with_calls, with_index;
             cbn [sys_indexes sys_callback sys_calls sys_index];
             rewrite <- ?app_assoc; repeat split);
        rewrite ?lock_calls_app, ?open_calls_app, ?L, ?O,
          ?lock_calls_errors, ?open_calls_errors; reflexivity.
    + cbn [fst snd]. eexists. split; [|split; [|split; [|split]]];
        try exact K; try discriminate.
      * unfold grows, with_calls, with_index.
        cbn [sys_indexes sys_callback sys_calls sys_index]. repeat split.
      * rewrite lock_calls_app, L. reflexivity.
      * rewrite open_calls_app, O. reflexivity.
Qed.


Lemma index_flags_create : forall flags,
  Z.lor (index_flags_of flags) MAIL_INDEX_OPEN_FLAG_CREATE
  = index_flags_of flags.
Proof.
  intros flags. unfold index_flags_of. cbv zeta.
  destruct (has_flag flags MAILBOX_OPEN_FAST);
    destruct (has_flag flags MAILBOX_OPEN_READONLY);
    destruct (has_flag flags MAILBOX_OPEN_MMAP_INVALIDATE);
    apply Z.bits_inj'; intros n _; rewrite ?Z.lor_spec;
    repeat match goal with
           | |- context [Z.testbit ?x n] => destruct (Z.testbit x n)
           end; reflexivity.
Qed.

(** The index object when [index_storage_mailbox_init] has passed its
    [if (!index->opened)] block. *)
Definition index_after_open (has_index_dir : bool)
  (idx : Registry.mail_index) (name : string) (flags : Z) (now : Z)
  (st : system W) : W :=
  sys_index
    (snd (open_index getenv right_to_left has_index_dir (index_flags_of flags)
            (new_mailbox idx name flags now)
            (set_lock_notify_callback true st))).

(** What a failed [index_storage_mailbox_init] leaves behind: [w] is the
    index object after the step that failed. *)
Definition abandoned (has_index_dir : bool) (idx : Registry.mail_index)
  (name : string) (flags : Z) (now t : Z) (st st' : system W) : Prop :=
  Registry.index_storage_unref idx t (sys_indexes st) = Some (sys_indexes st')
  /\ sys_callback st' = true
  /\ exists w b ops waits,
       let opened_index :=
         index_after_open has_index_dir idx name flags now st in
       let unlocked := index_set_lock MAIL_LOCK_UNLOCK (index_reset_error w) in
       box_name b = name
       /\ sys_calls st'
          = sys_calls st ++ OLock (EvSetLockNotifyCallback true) :: ops
            ++ map OLock (snd (translate_error (index_get_last_error w) b))
            ++ OLock EvResetError :: waits
            ++ [OLock (EvSetLock MAIL_LOCK_UNLOCK (fst (fst unlocked)));
                OCheckRemoveAll]
       /\ sys_index st' = snd unlocked
       /\ lock_calls waits = [] /\ open_calls waits = []
       /\ ((lock_calls ops = []
            /\ open_calls ops = [(index_flags_of flags, false)]
            /\ w = opened_index)
           \/ (lock_calls ops = [(MAIL_LOCK_SHARED, false)]
               /\ w = snd (index_set_lock MAIL_LOCK_SHARED opened_index))
           \/ (lock_calls ops
               = [(MAIL_LOCK_SHARED, true); (MAIL_LOCK_UNLOCK, false)]
               /\ w = snd (index_set_lock MAIL_LOCK_UNLOCK
                             (snd (index_set_lock MAIL_LOCK_SHARED
                                     opened_index))))).

(** What a successful [index_storage_mailbox_init] returns. *)
Definition opened (idx : Registry.mail_index) (name : string) (flags : Z)
  (st : system W) (mb : mailbox) (st' : system W) : Prop :=
  sys_indexes st' = sys_indexes st
  /\ sys_callback st' = false
  /\ box_index mb = idx
  /\ box_name (box mb) = name
  /\ index_storage_is_readonly mb = has_flag flags MAILBOX_OPEN_READONLY
  /\ index_storage_is_inconsistency_error mb = false
  /\ lock_type (box mb) = 0
  /\ trans_ctx (box mb) = None
  /\ exists ops,
       sys_calls st'
       = sys_calls st ++ OLock (EvSetLockNotifyCallback true) :: ops
         ++ [OLock (EvSetLockNotifyCallback false)]
       /\ lock_calls ops = [(MAIL_LOCK_SHARED, true); (MAIL_LOCK_UNLOCK, true)]
       /\ open_calls ops
          = (if index_opened (sys_index st) then []
             else [(index_flags_of flags, true)]).

Lemma init_spec : forall has_index_dir idx name flags now t (st : system W),
  match index_storage_mailbox_init getenv right_to_left has_index_dir idx name flags now t st
  with
  | None => Registry.index_storage_unref idx t (sys_indexes st) = None
  | Some (None, st') => abandoned has_index_dir idx name flags now t st st'
  | Some (Some mb, st') => opened idx name flags st mb st'
  end.
Proof.
  intros hid idx name flags now t st.
  pose proof (eq_refl (index_after_open hid idx name flags now st)) as Hw.
  unfold index_after_open at 2 in Hw.
  unfold index_storage_mailbox_init. cbv zeta.
  set (mb0 := new_mailbox idx name flags now) in *.
  set (st0 := set_lock_notify_callback true st) in *.
  assert (G0 : sys_indexes st0 = sys_indexes st
               /\ sys_callback st0 = true
               /\ sys_calls st0
                  = sys_calls st ++ [OLock (EvSetLockNotifyCallback true)]
               /\ sys_index st0 = sys_index st) by (repeat split).
  destruct G0 as (I0 & C0 & S0 & W0).
  destruct (open_index_spec hid (index_flags_of flags) mb0 st0)
    as (ops1 & (I1 & C1 & S1) & L1 & O1 & K1 & Hop).
  rewrite W0 in O1, Hop.
  destruct (open_index getenv right_to_left hid (index_flags_of flags) mb0 st0)
    as [[ok1 mb1] st1].
  cbn [fst snd] in *. destruct ok1; cbn [negb].
  - destruct (set_lock_spec MAIL_LOCK_SHARED mb1 st1)
      as (ops2 & (I2 & C2 & S2) & L2 & O2 & K2).
    destruct (set_lock_index MAIL_LOCK_SHARED mb1 st1) as (X2 & _).
    destruct (set_lock MAIL_LOCK_SHARED mb1 st1) as [[ok2 mb2] st2].
    cbn [fst snd] in *. destruct ok2; cbn [negb].
    + match goal with
      | |- context [set_lock MAIL_LOCK_UNLOCK ?m st2] => set (mb3 := m)
      end.
      destruct (set_lock_spec MAIL_LOCK_UNLOCK mb3 st2)
        as (ops3 & (I3 & C3 & S3) & L3 & O3 & K3).
      destruct (set_lock_index MAIL_LOCK_UNLOCK mb3 st2) as (X3 & _).
      destruct (set_lock MAIL_LOCK_UNLOCK mb3 st2) as [[ok3 mb4] st4].
      cbn [fst snd] in *. destruct ok3; cbn [negb].
      * unfold opened, index_storage_is_readonly,
          index_storage_is_inconsistency_error.
        cbn [set_lock_notify_callback sys_indexes sys_callback sys_calls].
        destruct K1 as (A1 & _ & A3 & A4 & A5 & A6 & A7).
        destruct K2 as (B1 & _ & B3 & B4 & B5 & B6 & B7).
        destruct K3 as (D1 & _ & D3 & D4 & D5 & D6 & D7).
        subst mb3. cbn [box box_index] in *.
        split; [congruence|]. split; [reflexivity|].
        split; [rewrite D1, B1, A1; reflexivity|].
        split; [rewrite D3, B3, A3; reflexivity|].
        split; [rewrite D4, B4, A4; reflexivity|].
        split; [rewrite D7, B7, A7; reflexivity|].
        split; [rewrite D5, B5, A5; reflexivity|].
        split; [rewrite D6, B6, A6; reflexivity|].
        exists (ops1 ++ ops2 ++ ops3).
        rewrite S3, S2, S1, S0, <- !app_assoc. split; [reflexivity|].
        rewrite !lock_calls_app, !open_calls_app, L1, L2, L3, O1, O2, O3.
        split; [reflexivity|].
        destruct (index_opened (sys_index st)); reflexivity.
      * pose proof (abandon_spec t mb4 st4) as Ha.
        pose proof (abandon_calls t mb4 st4) as Hcalls.
        assert (Hidx : box_index mb4 = idx).
        { destruct K1 as (A1 & _). destruct K2 as (B1 & _).
          destruct K3 as (D1 & _). subst mb3. cbn [box_index] in *.
          rewrite D1, B1, A1. reflexivity. }
        assert (Hname : box_name (box mb4) = name).
        { destruct K1 as (_ & _ & A3 & _). destruct K2 as (_ & _ & B3 & _).
          destruct K3 as (_ & _ & D3 & _). subst mb3. cbn [box] in *.
          rewrite D3, B3, A3. reflexivity. }
        rewrite Hidx, I3, I2, I1, I0 in Ha.
        destruct (abandon t mb4 st4) as [[res st']|]; [|exact Ha].
        destruct Ha as (-> & Hun & Hcb & _).
        destruct (Hcalls _ _ eq_refl) as (Hindex & waits & Hc & LW & OW).
        unfold abandoned. split; [exact Hun|]. split; [congruence|].
        exists (sys_index st4), (box mb4), (ops1 ++ ops2 ++ ops3), waits.
        cbv zeta. split; [exact Hname|].
        split; [rewrite Hc, S3, S2, S1, S0, <- !app_assoc; reflexivity|].
        split; [exact Hindex|]. split; [exact LW|]. split; [exact OW|].
        right. right. split.
        -- rewrite !lock_calls_app, L1, L2, L3. reflexivity.
        -- rewrite X3, X2, Hw. reflexivity.
    + pose proof (abandon_spec t mb2 st2) as Ha.
      pose proof (abandon_calls t mb2 st2) as Hcalls.
      assert (Hidx : box_index mb2 = idx).
      { destruct K1 as (A1 & _). destruct K2 as (B1 & _).
        rewrite B1, A1. reflexivity. }
      assert (Hname : box_name (box mb2) = name).
      { destruct K1 as (_ & _ & A3 & _). destruct K2 as (_ & _ & B3 & _).
        rewrite B3, A3. reflexivity. }
      rewrite Hidx, I2, I1, I0 in Ha.
      destruct (abandon t mb2 st2) as [[res st']|]; [|exact Ha].
      destruct Ha as (-> & Hun & Hcb & _).
      destruct (Hcalls _ _ eq_refl) as (Hindex & waits & Hc & LW & OW).
      unfold abandoned. split; [exact Hun|]. split; [congruence|].
      exists (sys_index st2), (box mb2), (ops1 ++ ops2), waits.
      cbv zeta. split; [exact Hname|].
      split; [rewrite Hc, S2, S1, S0, <- !app_assoc; reflexivity|].
      split; [exact Hindex|]. split; [exact LW|]. split; [exact OW|].
      right. left. split.
      * rewrite !lock_calls_app, L1, L2. reflexivity.
      * rewrite X2, Hw. reflexivity.
  - pose proof (abandon_spec t mb1 st1) as Ha.
    pose proof (abandon_calls t mb1 st1) as Hcalls.
    assert (Hidx : box_index mb1 = idx) by (destruct K1 as (A1 & _); exact A1).
    assert (Hname : box_name (box mb1) = name)
      by (destruct K1 as (_ & _ & A3 & _); exact A3).
    rewrite Hidx, I1, I0 in Ha.
    destruct (abandon t mb1 st1) as [[res st']|]; [|exact Ha].
    destruct Ha as (-> & Hun & Hcb & _).
    destruct (Hcalls _ _ eq_refl) as (Hindex & waits & Hc & LW & OW).
    unfold abandoned. split; [exact Hun|]. split; [congruence|].
    exists (sys_index st1), (box mb1), ops1, waits.
    cbv zeta. split; [exact Hname|].
    split; [rewrite Hc, S1, S0, <- !app_assoc; reflexivity|].
    split; [exact Hindex|]. split; [exact LW|]. split; [exact OW|].
    left. split; [exact L1|]. split; [|symmetry; exact Hw].
    rewrite O1. destruct (index_opened (sys_index st)).
    + specialize (Hop eq_refl). discriminate Hop.
    + reflexivity.
Qed.

(** X23: when [index_storage_mailbox_init] fails (returns NULL), the
    failure was a failed [index->open], a failed shared lock, or a failed
    unlock after a successful shared lock.  The error that the index
    reports after that failed step is translated for the storage (the
    calls of the [switch] of [mail_storage_set_index_error], with the name
    of the mailbox) and reset; then one more unlock is tried on the index,
    whose result is ignored, [index_mailbox_check_remove_all] is called,
    and the reference on the index is given back to the registry by
    [index_storage_unref].  The lock-notify callback is still installed on
    the index afterwards. *)
Theorem failed_open_releases_index :
  forall has_index_dir idx name flags now t (st st' : system W),
  index_storage_mailbox_init getenv right_to_left has_index_dir idx name flags now t st
  = Some (None, st') ->
  Registry.index_storage_unref idx t (sys_indexes st) = Some (sys_indexes st')
  /\ sys_callback st' = true
  /\ exists w b ops waits,
       let opened_index :=
         index_after_open has_index_dir idx name flags now st in
       let unlocked := index_set_lock MAIL_LOCK_UNLOCK (index_reset_error w) in
       box_name b = name
       /\ sys_calls st'
          = sys_calls st ++ OLock (EvSetLockNotifyCallback true) :: ops
            ++ map OLock (snd (translate_error (index_get_last_error w) b))
            ++ OLock EvResetError :: waits
            ++ [OLock (EvSetLock MAIL_LOCK_UNLOCK (fst (fst unlocked)));
                OCheckRemoveAll]
       /\ sys_index st' = snd unlocked
       /\ lock_calls waits = [] /\ open_calls waits = []
       /\ ((lock_calls ops = []
            /\ open_calls ops = [(index_flags_of flags, false)]
            /\ w = opened_index)
           \/ (lock_calls ops = [(MAIL_LOCK_SHARED, false)]
               /\ w = snd (index_set_lock MAIL_LOCK_SHARED opened_index))
           \/ (lock_calls ops
               = [(MAIL_LOCK_SHARED, true); (MAIL_LOCK_UNLOCK, false)]
               /\ w = snd (index_set_lock MAIL_LOCK_UNLOCK
                             (snd (index_set_lock MAIL_LOCK_SHARED
                                     opened_index))))).
Proof.
  intros hid idx name flags now t st st' Hinit.
  pose proof (init_spec hid idx name flags now t st) as Hs.
  rewrite Hinit in Hs. exact Hs.
Qed.

(** X24: when [index_storage_mailbox_init] succeeds, the registry is as
    before and the lock-notify callback is uninstalled again; the mailbox
    is bound to the given index and name, is read-only exactly when
    MAILBOX_OPEN_READONLY was given, is not marked inconsistent and has no
    cache transaction.  Between installing and uninstalling the callback
    the index was locked shared and unlocked, both with success, and
    [index->open] was called exactly when the index was not open yet, with
    flags that include MAIL_INDEX_OPEN_FLAG_CREATE. *)
Theorem successful_open_leaves_index_unlocked :
  forall has_index_dir idx name flags now t (st st' : system W) mb,
  index_storage_mailbox_init getenv right_to_left has_index_dir idx name flags now t st
  = Some (Some mb, st') ->
  sys_indexes st' = sys_indexes st
  /\ sys_callback st' = false
  /\ box_index mb = idx
  /\ box_name (box mb) = name
  /\ index_storage_is_readonly mb = has_flag flags MAILBOX_OPEN_READONLY
  /\ index_storage_is_inconsistency_error mb = false
  /\ trans_ctx (box mb) = None
  /\ Z.lor (index_flags_of flags) MAIL_INDEX_OPEN_FLAG_CREATE
     = index_flags_of flags
  /\ exists ops,
       sys_calls st'
       = sys_calls st ++ OLock (EvSetLockNotifyCallback true) :: ops
         ++ [OLock (EvSetLockNotifyCallback false)]
       /\ lock_calls ops = [(MAIL_LOCK_SHARED, true); (MAIL_LOCK_UNLOCK, true)]
       /\ open_calls ops
          = (if index_opened (sys_index st) then []
             else [(index_flags_of flags, true)]).
Proof.
  intros hid idx name flags now t st st' mb Hinit.
  pose proof (init_spec hid idx name flags now t st) as Hs.
  rewrite Hinit in Hs.
  destruct Hs as (P1 & P2 & P3 & P4 & P5 & P6 & _ & P8 & P9).
  repeat (split; [assumption|]). split; [apply index_flags_create|].
  exact P9.
Qed.

(** The registry after the reference taken by [index_storage_add] has been
    given back at time [t]. *)
Definition released (idx : Registry.mail_index) (t : Z)
  (reg : Registry.registry) : Registry.registry :=
  {| Registry.indexes :=
       {| Registry.index := idx; Registry.refcount := 0;
          Registry.destroy_time := t + Registry.INDEX_CACHE_TIMEOUT |}
       :: Registry.indexes reg;
     Registry.to_index := true;
     Registry.freed := Registry.freed reg |}.

Lemma unref_after_add : forall idx t reg,
  Registry.index_storage_unref idx t (Registry.index_storage_add idx reg)
  = Some (released idx t reg).
Proof.
  intros idx t reg. unfold Registry.index_storage_unref,
    Registry.index_storage_add, released.
  cbn [Registry.indexes Registry.unref_scan Registry.index Registry.refcount
       Registry.freed].
  rewrite Z.eqb_refl. reflexivity.
Qed.

(** X25: the reference that [index_storage_add] takes for a new index is
    given back exactly once.  Opening a mailbox on the index right after
    it was added trips no assertion; when the open fails, the entry is
    left unreferenced, due for destruction INDEX_CACHE_TIMEOUT seconds
    later, with the removal timer set; when it succeeds the registry is
    untouched, and closing the mailbox with [index_storage_mailbox_free]
    returns TRUE and leaves the entry in that same released state. *)
Theorem open_reference_is_returned_once :
  forall has_index_dir idx name flags now t t_close reg (st : system W),
  sys_indexes st = Registry.index_storage_add idx reg ->
  match index_storage_mailbox_init getenv right_to_left has_index_dir idx name flags now t st
  with
  | None => False
  | Some (None, st') => sys_indexes st' = released idx t reg
  | Some (Some mb, st1) =>
      sys_indexes st1 = Registry.index_storage_add idx reg
      /\ exists st2,
           index_storage_mailbox_free t_close mb st1 = Some (true, st2)
           /\ sys_indexes st2 = released idx t_close reg
  end.
Proof.
  intros hid idx name flags now t t2 reg st Hreg.
  pose proof (init_spec hid idx name flags now t st) as Hs.
  destruct (index_storage_mailbox_init getenv right_to_left hid idx name flags now t st)
    as [[[mb|] st1]|].
  - destruct Hs as (P1 & _ & P3 & _). rewrite Hreg in P1.
    split; [exact P1|].
    pose proof (free_spec t2 mb st1) as Hf. rewrite P3, P1 in Hf.
    rewrite unref_after_add in Hf.
    destruct (index_storage_mailbox_free t2 mb st1) as [[r st2]|];
      [|discriminate Hf].
    destruct Hf as (-> & Hun & _). exists st2. split; [reflexivity|].
    injection Hun as <-. reflexivity.
  - destruct Hs as (Hun & _). rewrite Hreg, unref_after_add in Hun.
    injection Hun as <-. reflexivity.
  - rewrite Hreg, unref_after_add in Hs. discriminate Hs.
Qed.

(** X26: [index_storage_get_recent_count] never reports more recent
    messages than the mailbox holds, given that the range lookup returns a
    sequence number of the mailbox.  All messages are recent when the
    first recent UID is at most 1, none when it is not below the next
    UID; otherwise the count is that of the messages from the first
    recent one to the last. *)
Theorem recent_count_is_a_tail : forall w : W,
  (messages_count w < UINT_MODULUS)%N ->
  (forall lo hi seq,
     lookup_uid_range lo hi w = Some seq ->
     (1 <= seq <= messages_count w)%N) ->
  (index_storage_get_recent_count w <= messages_count w)%N
  /\ ((first_recent_uid w <= 1)%N ->
      index_storage_get_recent_count w = messages_count w)
  /\ ((1 < first_recent_uid w)%N ->
      (next_uid w <= first_recent_uid w)%N ->
      index_storage_get_recent_count w = 0%N)
  /\ (forall seq,
        (1 < first_recent_uid w < next_uid w)%N ->
        (next_uid w < UINT_MODULUS)%N ->
        lookup_uid_range (first_recent_uid w) (next_uid w - 1) w = Some seq ->
        (index_storage_get_recent_count w + seq = messages_count w + 1)%N).
Proof.
  intros w Hmc Hlook. unfold index_storage_get_recent_count.
  assert (Hwrap : forall seq, (1 <= seq <= messages_count w)%N ->
            ((messages_count w + 1 + UINT_MODULUS - seq) mod UINT_MODULUS
             = messages_count w + 1 - seq)%N).
  { intros seq Hseq.
    replace (messages_count w + 1 + UINT_MODULUS - seq)%N
      with ((messages_count w + 1 - seq) + 1 * UINT_MODULUS)%N by lia.
    rewrite N.Div0.mod_add. apply N.mod_small. lia. }
  split; [|split; [|split]].
  - destruct (first_recent_uid w <=? 1)%N; [lia|].
    destruct (next_uid w <=? first_recent_uid w)%N; [lia|].
    destruct (lookup_uid_range _ _ w) as [seq|] eqn:Hl; [|lia].
    specialize (Hlook _ _ _ Hl). rewrite (Hwrap seq Hlook). lia.
  - intros Hf. apply N.leb_le in Hf. rewrite Hf. reflexivity.
  - intros Hf Hn. apply N.leb_gt in Hf. apply N.leb_le in Hn.
    rewrite Hf, Hn. reflexivity.
  - intros seq [Hf Hn] Hnext Hl.
    assert (Hf' : (first_recent_uid w <=? 1)%N = false)
      by (apply N.leb_gt; exact Hf).
    assert (Hn' : (next_uid w <=? first_recent_uid w)%N = false)
      by (apply N.leb_gt; exact Hn).
    rewrite Hf', Hn'.
    replace ((next_uid w + UINT_MODULUS - 1) mod UINT_MODULUS)%N
      with (next_uid w - 1)%N.
    + rewrite Hl. specialize (Hlook _ _ _ Hl). rewrite (Hwrap seq Hlook). lia.
    + replace (next_uid w + UINT_MODULUS - 1)%N
        with ((next_uid w - 1) + 1 * UINT_MODULUS)%N by lia.
      rewrite N.Div0.mod_add. symmetry. apply N.mod_small. lia.
Qed.

(** X27: [index_mailbox_fix_custom_flags] returns TRUE exactly when
    [mail_custom_flags_fix_list] returned 1, and then leaves the mailbox
    as it is and no error on the storage.  Every other result is
    reported: an error is left on the storage, or the mailbox is marked
    inconsistent. *)
Theorem fix_custom_flags_reports_failure :
  forall flags custom_flags mb (st : system W),
  let r := index_mailbox_fix_custom_flags flags custom_flags mb st in
  let ret := fst (fst (mail_custom_flags_fix_list flags custom_flags
                         (sys_index st))) in
  fst (fst (fst r)) = (ret =? 1)
  /\ sys_indexes (snd r) = sys_indexes st
  /\ exists ops,
       sys_calls (snd r)
       = sys_calls st ++ OFixList flags custom_flags ret :: ops
       /\ if ret =? 1
          then ops = [] /\ snd (fst r) = mb
          else existsb is_storage_error ops = true
               \/ index_storage_is_inconsistency_error (snd (fst r)) = true.
Proof.
  intros flags cf mb st. cbv zeta. unfold index_mailbox_fix_custom_flags.
  destruct (mail_custom_flags_fix_list flags cf (sys_index st))
    as [[ret flags'] w].
  cbn [fst snd]. destruct (ret =? 1) eqn:Hret.
  - cbn [fst snd with_calls with_index sys_indexes sys_calls].
    repeat split. exists []. repeat split.
  - destruct (ret =? 0).
    + cbn [fst snd with_calls with_index sys_indexes sys_calls].
      repeat split. eexists. rewrite <- app_assoc. split; [reflexivity|].
      left. reflexivity.
    + cbn [fst snd].
      match goal with
      | |- context [set_index_error mb ?s] =>
          destruct (set_index_error_spec mb s)
            as (ops & (G1 & _ & G3) & _ & _ & _ & Hrep)
      end.
      split; [reflexivity|]. split; [exact G1|].
      exists (ops ++ [OLock EvResetError]). rewrite G3.
      cbn [with_calls with_index sys_calls]. rewrite <- app_assoc.
      split; [reflexivity|].
      destruct Hrep as [Hrep | Hrep]; [left | right; exact Hrep].
      rewrite existsb_app, Hrep. reflexivity.
Qed.

End MailboxProofs.

(** ** A concrete index *)

(** An index with five messages whose UIDs are their sequence numbers; its
    calls give the results stored in it. *)
Record toy_index : Type :=
  { toy_opened : bool; toy_open_ok : bool; toy_shared_ok : bool;
    toy_first_recent : N }.

#[local] Instance toy_lock_enums : LockEnums :=
  {| MAIL_LOCK_UNLOCK := 0; MAIL_LOCK_SHARED := 1; MAIL_LOCK_EXCLUSIVE := 2;
     MAILBOX_LOCK_UNLOCK := 0 |}.

#[local] Instance toy_index_ops : IndexOps toy_index :=
  {| index_set_lock := fun l w =>
       (if l =? 1 then toy_shared_ok w else true, [], w);
     index_get_last_error := fun _ => MAIL_INDEX_ERROR_INDEX_LOCK_TIMEOUT;
     index_reset_error := fun w => w;
     index_mailbox_readonly := fun _ => false;
     mail_cache_transaction_commit := fun _ w => (true, w);
     mail_cache_transaction_end := fun _ w => (true, w) |}.

#[local] Instance toy_open_ops : OpenOps toy_index :=
  {| index_opened := toy_opened;
     index_open := fun _ w =>
       (toy_open_ok w, [],
        {| toy_opened := toy_open_ok w; toy_open_ok := toy_open_ok w;
           toy_shared_ok := toy_shared_ok w;
           toy_first_recent := toy_first_recent w |});
     mail_cache_set_defaults := fun _ _ w => w;
     INDEX_IS_IN_MEMORY := fun _ => true;
     messages_count := fun _ => 5%N;
     next_uid := fun _ => 6%N;
     first_recent_uid := toy_first_recent;
     lookup_uid_range := fun lo hi _ =>
       if ((1 <=? lo) && (lo <=? 5) && (lo <=? hi))%N then Some lo else None;
     mail_custom_flags_fix_list := fun f _ w => (1, f, w) |}.

#[local] Instance toy_open_enums : OpenEnums :=
  {| MAIL_INDEX_OPEN_FLAG_CREATE := 1;
     MAIL_INDEX_OPEN_FLAG_FAST := 2;
     MAIL_INDEX_OPEN_FLAG_UPDATE_RECENT := 4;
     MAIL_INDEX_OPEN_FLAG_MMAP_INVALIDATE := 8;
     MAILBOX_OPEN_FAST := 1;
     MAILBOX_OPEN_READONLY := 2;
     MAILBOX_OPEN_MMAP_INVALIDATE := 4;
     MAIL_LOCK_NOTIFY_ZERO := MAIL_LOCK_NOTIFY_MAILBOX_ABORT |}.

#[local] Instance toy_cache_enums : CacheFields.CacheEnums :=
  {| CacheFields.MAIL_CACHE_SENT_DATE := 1;
     CacheFields.MAIL_CACHE_RECEIVED_DATE := 2;
     CacheFields.MAIL_CACHE_VIRTUAL_FULL_SIZE := 4;
     CacheFields.MAIL_CACHE_BODY := 8;
     CacheFields.MAIL_CACHE_BODYSTRUCTURE := 16;
     CacheFields.MAIL_CACHE_MESSAGEPART := 32 |}.

Definition toy_env (name : string) : option string :=
  if String.eqb name "MAIL_CACHE_FIELDS" then Some "Body, SENT_DATE junk"
  else None.

(** The index at address 7 has just been added to the registry. *)
Definition toy_system (w : toy_index) : system toy_index :=
  {| sys_index := w;
     sys_indexes := Registry.index_storage_add 7 Registry.registry_init;
     sys_statics := {| CacheFields.default_ret := None;
                       CacheFields.never_ret := None |};
     sys_callback := false;
     sys_calls := [] |}.

Definition fresh_index : toy_index :=
  {| toy_opened := false; toy_open_ok := true; toy_shared_ok := true;
     toy_first_recent := 4 |}.

Definition locked_index : toy_index :=
  {| toy_opened := false; toy_open_ok := true; toy_shared_ok := false;
     toy_first_recent := 4 |}.

Definition toy_open (w : toy_index)
  : option (option mailbox * system toy_index) :=
  index_storage_mailbox_init toy_env true true 7 "INBOX" 2 1000 1000 (toy_system w).

Example toy_open_fresh_calls :
  option_map (fun r => sys_calls (snd r)) (toy_open fresh_index)
  = Some [ OLock (EvSetLockNotifyCallback true);
           OOpen 5 true;
           OError "Invalid cache field name '', ignoring ";
           OError "Invalid cache field name 'junk', ignoring ";
           OSetDefaults 9 0;
           OLock (EvNotifyNo "Couldn't use index files");
           OLock (EvSetLock 1 true);
           OLock (EvSetLock 0 true);
           OLock (EvSetLockNotifyCallback false) ].
Proof. vm_compute. reflexivity. Qed.

(** Both settings name an unknown field: the two warnings come in the
    order in which the getters are called. *)
Definition junk_env (name : string) : option string :=
  if String.eqb name "MAIL_CACHE_FIELDS" then Some "first"
  else if String.eqb name "MAIL_NEVER_CACHE_FIELDS" then Some "second"
  else None.

Example warnings_follow_evaluation_order :
  snd (fst (cache_defaults junk_env false
              {| CacheFields.default_ret := None;
                 CacheFields.never_ret := None |}))
  = [ "Invalid cache field name 'first', ignoring ";
      "Invalid cache field name 'second', ignoring " ]
  /\ snd (fst (cache_defaults junk_env true
                 {| CacheFields.default_ret := None;
                    CacheFields.never_ret := None |}))
     = [ "Invalid cache field name 'second', ignoring ";
         "Invalid cache field name 'first', ignoring " ].
Proof. vm_compute. split; reflexivity. Qed.

Definition state_after (w : toy_index) : system toy_index :=
  match toy_open w with
  | Some (_, st) => st
  | None => toy_system w
  end.

Definition mailbox_after (w : toy_index) : mailbox :=
  match toy_open w with
  | Some (Some mb, _) => mb
  | _ => new_mailbox 7 "INBOX" 2 1000
  end.

Lemma toy_open_locked :
  index_storage_mailbox_init toy_env true true 7 "INBOX" 2 1000 1000
    (toy_system locked_index)
  = Some (None, state_after locked_index).
Proof. vm_compute. reflexivity. Defined.

Lemma toy_open_fresh :
  index_storage_mailbox_init toy_env true true 7 "INBOX" 2 1000 1000
    (toy_system fresh_index)
  = Some (Some (mailbox_after fresh_index), state_after fresh_index).
Proof. vm_compute. reflexivity. Defined.

Lemma failed_open_releases_index_witness :
  Registry.index_storage_unref 7 1000 (sys_indexes (toy_system locked_index))
  = Some (sys_indexes (state_after locked_index))
  /\ sys_callback (state_after locked_index) = true
  /\ exists w b ops waits,
       let opened_index :=
         index_after_open toy_env true true 7 "INBOX" 2 1000
           (toy_system locked_index) in
       let unlocked := index_set_lock MAIL_LOCK_UNLOCK (index_reset_error w) in
       box_name b = "INBOX"
       /\ sys_calls (state_after locked_index)
          = sys_calls (toy_system locked_index)
            ++ OLock (EvSetLockNotifyCallback true) :: ops
            ++ map OLock (snd (translate_error (index_get_last_error w) b))
            ++ OLock EvResetError :: waits
            ++ [OLock (EvSetLock MAIL_LOCK_UNLOCK (fst (fst unlocked)));
                OCheckRemoveAll]
       /\ sys_index (state_after locked_index) = snd unlocked
       /\ lock_calls waits = [] /\ open_calls waits = []
       /\ ((lock_calls ops = []
            /\ open_calls ops = [(index_flags_of 2, false)]
            /\ w = opened_index)
           \/ (lock_calls ops = [(MAIL_LOCK_SHARED, false)]
               /\ w = snd (index_set_lock MAIL_LOCK_SHARED opened_index))
           \/ (lock_calls ops
               = [(MAIL_LOCK_SHARED, true); (MAIL_LOCK_UNLOCK, false)]
               /\ w = snd (index_set_lock MAIL_LOCK_UNLOCK
                             (snd (index_set_lock MAIL_LOCK_SHARED
                                     opened_index))))).
Proof.
  exact (failed_open_releases_index toy_env true true 7 "INBOX" 2 1000 1000
           (toy_system locked_index) (state_after locked_index)
           toy_open_locked).
Defined.

(** The calls of the failed open of the witness: the shared lock fails,
    the timeout is left on the storage with the name of the mailbox, the
    error is reset, and the unlock and the release follow. *)
Example toy_open_locked_calls :
  sys_calls (state_after locked_index)
  = [ OLock (EvSetLockNotifyCallback true);
      OOpen 5 true;
      OError "Invalid cache field name '', ignoring ";
      OError "Invalid cache field name 'junk', ignoring ";
      OSetDefaults 9 0;
      OLock (EvNotifyNo "Couldn't use index files");
      OLock (EvSetLock 1 false);
      OLock (EvSetError
               "Timeout while waiting for lock to index of mailbox INBOX");
      OLock EvResetError;
      OLock (EvSetLock 0 true);
      OCheckRemoveAll ].
Proof. vm_compute. reflexivity. Qed.

Lemma successful_open_leaves_index_unlocked_witness :
  sys_indexes (state_after fresh_index) = sys_indexes (toy_system fresh_index)
  /\ sys_callback (state_after fresh_index) = false
  /\ box_index (mailbox_after fresh_index) = 7
  /\ box_name (box (mailbox_after fresh_index)) = "INBOX"
  /\ index_storage_is_readonly (mailbox_after fresh_index)
     = has_flag 2 MAILBOX_OPEN_READONLY
  /\ index_storage_is_inconsistency_error (mailbox_after fresh_index) = false
  /\ trans_ctx (box (mailbox_after fresh_index)) = None
  /\ Z.lor (index_flags_of 2) MAIL_INDEX_OPEN_FLAG_CREATE = index_flags_of 2
  /\ exists ops,
       sys_calls (state_after fresh_index)
       = sys_calls (toy_system fresh_index)
         ++ OLock (EvSetLockNotifyCallback true) :: ops
         ++ [OLock (EvSetLockNotifyCallback false)]
       /\ lock_calls ops = [(MAIL_LOCK_SHARED, true); (MAIL_LOCK_UNLOCK, true)]
       /\ open_calls ops
          = (if index_opened (sys_index (toy_system fresh_index)) then []
             else [(index_flags_of 2, true)]).
Proof.
  exact (successful_open_leaves_index_unlocked toy_env true true 7 "INBOX" 2 1000
           1000 (toy_system fresh_index) (state_after fresh_index)
           (mailbox_after fresh_index) toy_open_fresh).
Defined.

Lemma open_reference_is_returned_once_witness :
  match index_storage_mailbox_init toy_env true true 7 "INBOX" 2 1000 1000
          (toy_system fresh_index)
  with
  | None => False
  | Some (None, st') => sys_indexes st' = released 7 1000 Registry.registry_init
  | Some (Some mb, st1) =>
      sys_indexes st1 = Registry.index_storage_add 7 Registry.registry_init
      /\ exists st2,
           index_storage_mailbox_free 1060 mb st1 = Some (true, st2)
           /\ sys_indexes st2 = released 7 1060 Registry.registry_init
  end.
Proof.
  exact (open_reference_is_returned_once toy_env true true 7 "INBOX" 2 1000 1000
           1060 Registry.registry_init (toy_system fresh_index) eq_refl).
Defined.

Lemma toy_lookup_in_range : forall lo hi seq,
  lookup_uid_range lo hi fresh_index = Some seq ->
  (1 <= seq <= messages_count fresh_index)%N.
Proof.
  intros lo hi seq. cbn [lookup_uid_range toy_open_ops messages_count].
  destruct (1 <=? lo)%N eqn:E1; [|discriminate].
  destruct (lo <=? 5)%N eqn:E2; [|discriminate].
  destruct (lo <=? hi)%N; [|discriminate].
  cbn [andb]. intros Hs. injection Hs as <-.
  apply N.leb_le in E1. apply N.leb_le in E2. split; assumption.
Defined.

Lemma recent_count_is_a_tail_witness :
  (index_storage_get_recent_count fresh_index <= messages_count fresh_index)%N
  /\ ((first_recent_uid fresh_index <= 1)%N ->
      index_storage_get_recent_count fresh_index = messages_count fresh_index)
  /\ ((1 < first_recent_uid fresh_index)%N ->
      (next_uid fresh_index <= first_recent_uid fresh_index)%N ->
      index_storage_get_recent_count fresh_index = 0%N)
  /\ (forall seq,
        (1 < first_recent_uid fresh_index < next_uid fresh_index)%N ->
        (next_uid fresh_index < UINT_MODULUS)%N ->
        lookup_uid_range (first_recent_uid fresh_index)
          (next_uid fresh_index - 1) fresh_index = Some seq ->
        (index_storage_get_recent_count fresh_index + seq
         = messages_count fresh_index + 1)%N).
Proof.
  exact (recent_count_is_a_tail fresh_index eq_refl toy_lookup_in_range).
Defined.

(** Two of the five messages are recent. *)
Example toy_recent_count : index_storage_get_recent_count fresh_index = 2%N.
Proof. vm_compute. reflexivity. Qed.


End Mailbox.
